(** * pw_kvs: the in-memory fake flash, the map-test harness and the
      key-value store they exercise

    The development has three parts.

    - [InMemoryFakeFlash] embeds [pw_kvs/in_memory_fake_flash.h]: the byte
      buffer that mimics NOR flash, with [Erase], [Read] and [Write].
    - [KeyValueStore] models the store itself from its design
      specification, its sources ([key_value_store.h],
      [key_value_store.cc]) not being at hand.
    - [KvsTester] embeds the tester of
      [pw_kvs/key_value_store_map_test.cc], which runs the store next to a
      reference map: [Put], [Delete], [CompareContents] and
      [RandomPresentKey].
    - [FakeFlashDevice] adds what is needed to speak of sequences of calls
      to the fake flash, and [MapTest] embeds the tester once more, over
      any store, with [Init], [CompareContents] and the random test.

    The definitions come first, the properties after them. *)

From Stdlib Require Import ZArith Lia.
From Stdlib.Strings Require Import Byte.
From stdpp Require Import gmap strings list fin_maps pretty.

Local Open Scope Z_scope.

(** ** Status codes *)

(** Modelled from the spec: the status codes of [pw_status/status.h]
    (section 7). *)
Inductive Status : Type :=
| OK
| INVALID_ARGUMENT
| UNKNOWN
| NOT_FOUND
| RESOURCE_EXHAUSTED
| DATA_LOSS
| INTERNAL.

#[global] Instance Status_eq_dec : EqDecision Status.
Proof. solve_decision. Defined.

(** [Status::ok()] *)
Definition ok (s : Status) : bool := bool_decide (s = OK).

(** Modelled from the spec: [StatusWithSize] of
    [pw_status/status_with_size.h], a status with a size (section 6).  A
    bare [Status] converts to one of size 0, a size to one with [OK]. *)
Record StatusWithSize : Type := mkStatusWithSize {
  status : Status;
  byte_count : Z
}.

Definition of_status (s : Status) : StatusWithSize := mkStatusWithSize s 0.
Definition of_size (n : Z) : StatusWithSize := mkStatusWithSize OK n.

(** ** Machine arithmetic

    [size_t] is taken 64 bits wide, as on the hosts the fake flash runs on;
    [unsigned] and [uint32_t] are 32 bits wide.  Unsigned arithmetic wraps.
    [FlashMemory::Address] is declared in [pw_kvs/flash_memory.h]; the
    design gives addresses as 32-bit unsigned integers (section 3). *)

Definition size_t_bits : Z := 64.
Definition to_size_t (x : Z) : Z := x mod 2 ^ size_t_bits.
Definition to_uint32 (x : Z) : Z := x mod 2 ^ 32.
Definition is_size_t (x : Z) : Prop := 0 <= x < 2 ^ size_t_bits.
Definition is_uint32 (x : Z) : Prop := 0 <= x < 2 ^ 32.

(** ** Outcomes of a call

    A call either returns, or its behaviour is undefined: a division by
    zero, an access outside [buffer_], or a loop that can make no progress. *)

Inductive outcome (A : Type) : Type :=
| Returns (a : A)
| Undefined.
Arguments Returns {A} a.
Arguments Undefined {A}.

#[global] Instance outcome_ret : MRet outcome := @Returns.
#[global] Instance outcome_bind : MBind outcome :=
  fun A B k m => match m with Returns a => k a | Undefined => Undefined end.

Definition returns {A} (m : outcome A) : Prop := ∃ a, m = Returns a.

(** [a % b] and [a / b] on [size_t]. *)
Definition size_mod (a b : Z) : outcome Z :=
  if b =? 0 then Undefined else Returns (a mod b).
Definition size_div (a b : Z) : outcome Z :=
  if b =? 0 then Undefined else Returns (a / b).

Module InMemoryFakeFlash.

(** The base class [FlashMemory] is declared in [pw_kvs/flash_memory.h],
    which is not among the sources.  The fake uses four of its accessors,
    all returning [size_t]; they are kept as the fields of a record, with
    no relation assumed between them. *)
Record FlashMemory : Type := mkFlashMemory {
  sector_size_bytes : Z;
  sector_count : Z;
  alignment_bytes : Z;
  size_bytes : Z
}.

(** The constructor passes [kSectorSize], a [uint32_t], [kSectorCount], a
    [uint16_t], and [alignment_bytes], a [uint8_t], to the base class. *)
Definition wf_FlashMemory (fm : FlashMemory) : Prop :=
  is_uint32 (sector_size_bytes fm) ∧ 0 <= sector_count fm < 2 ^ 16 ∧
  0 <= alignment_bytes fm < 2 ^ 8 ∧ is_size_t (size_bytes fm).

(** [buffer_] is a [std::array<uint8_t, kSectorCount * kSectorSize>]; the
    product of a [uint16_t] and a [uint32_t] is computed on 32 bits, so the
    array has fewer than [2^32] elements. *)
Definition wf_buffer (buffer_ : list byte) : Prop :=
  Z.of_nat (length buffer_) < 2 ^ 32.

(** The value of an erased byte, [0xFF]. *)
Definition kErasedByte : byte := xff.

(** *** Accesses to [buffer_] *)

Definition in_buffer (buffer_ : list byte) (address len : Z) : bool :=
  (0 <=? address) && (0 <=? len) &&
  (address + len <=? Z.of_nat (length buffer_)).

(** [buffer_[index]] *)
Definition load (buffer_ : list byte) (index : Z) : outcome byte :=
  if 0 <=? index then
    match buffer_ !! Z.to_nat index with
    | Some b => Returns b
    | None => Undefined
    end
  else Undefined.

(** [std::memset(&buffer_[address], value, len)] *)
Definition memset (buffer_ : list byte) (address : Z) (value : byte) (len : Z)
  : outcome (list byte) :=
  if in_buffer buffer_ address len then
    Returns (take (Z.to_nat address) buffer_ ++
             replicate (Z.to_nat len) value ++
             drop (Z.to_nat (address + len)) buffer_)
  else Undefined.

(** [std::memcpy(dst, &buffer_[address], len)]: the bytes copied out. *)
Definition memcpy_from (buffer_ : list byte) (address len : Z)
  : outcome (list byte) :=
  if in_buffer buffer_ address len then
    Returns (take (Z.to_nat len) (drop (Z.to_nat address) buffer_))
  else Undefined.

(** [std::memcpy(&buffer_[address], src, |src|)] *)
Definition memcpy_to (buffer_ : list byte) (address : Z) (src : list byte)
  : outcome (list byte) :=
  let len := Z.of_nat (length src) in
  if in_buffer buffer_ address len then
    Returns (take (Z.to_nat address) buffer_ ++ src ++
             drop (Z.to_nat (address + len)) buffer_)
  else Undefined.

(** *** Erase *)

Definition Erase (fm : FlashMemory) (buffer_ : list byte)
    (address num_sectors : Z) : outcome (Status * list byte) :=
  r ← size_mod address (sector_size_bytes fm);
  if negb (r =? 0) then Returns (INVALID_ARGUMENT, buffer_) else
  sector_id ← size_div address (sector_size_bytes fm);
  if sector_count fm <? to_size_t (sector_id + num_sectors)
  then Returns (UNKNOWN, buffer_) else
  r' ← size_mod address (alignment_bytes fm);
  if negb (r' =? 0) then Returns (INVALID_ARGUMENT, buffer_) else
  buffer' ← memset buffer_ address kErasedByte
              (to_size_t (sector_size_bytes fm * num_sectors));
  Returns (OK, buffer').

(** *** Read

    [output] is the caller's span; the second component of the result is
    its contents after the call. *)

(** [address + len >= sector_count() * size_bytes()] *)
Definition past_end (fm : FlashMemory) (address len : Z) : bool :=
  to_size_t (sector_count fm * size_bytes fm) <=? to_size_t (address + len).

Definition Read (fm : FlashMemory) (buffer_ : list byte)
    (address : Z) (output : list byte)
  : outcome (StatusWithSize * list byte) :=
  let len := Z.of_nat (length output) in
  if past_end fm address len
  then Returns (of_status INVALID_ARGUMENT, output) else
  copied ← memcpy_from buffer_ address len;
  Returns (of_status OK, copied).

(** *** Write *)

(** The condition of the first [if]: the three disjuncts are tried in
    order and the first that holds decides. *)
Definition write_rejected (fm : FlashMemory) (address len : Z)
  : outcome bool :=
  if past_end fm address len then Returns true else
  r ← size_mod address (alignment_bytes fm);
  if negb (r =? 0) then Returns true else
  r' ← size_mod len (alignment_bytes fm);
  Returns (negb (r' =? 0)).

(** The loop [for (unsigned i = 0; i < data.size(); i++)] that looks for a
    byte other than [0xFF]; [remaining] counts the iterations left.  The
    index [address + i] is computed on 32 bits.  Once [i] has run through
    all of [unsigned] the loop starts over without having changed
    anything, and never ends. *)
Fixpoint check_erased (buffer_ : list byte) (address i : Z)
    (remaining : nat) : outcome bool :=
  match remaining with
  | O => Returns true
  | S remaining' =>
      if 2 ^ 32 <=? i then Undefined else
      b ← load buffer_ (to_uint32 (address + i));
      if Byte.eqb b kErasedByte
      then check_erased buffer_ address (i + 1) remaining'
      else Returns false
  end.

Definition Write (fm : FlashMemory) (buffer_ : list byte)
    (address : Z) (data : list byte)
  : outcome (StatusWithSize * list byte) :=
  let len := Z.of_nat (length data) in
  rejected ← write_rejected fm address len;
  if (rejected : bool)
  then Returns (of_status INVALID_ARGUMENT, buffer_) else
  erased ← check_erased buffer_ address 0 (length data);
  if negb erased then Returns (of_status UNKNOWN, buffer_) else
  buffer' ← memcpy_to buffer_ address data;
  Returns (of_size len, buffer').

(** *** Sequences of calls *)

Inductive Call : Type :=
| CallErase (address num_sectors : Z)
| CallRead (address : Z) (output : list byte)
| CallWrite (address : Z) (data : list byte).

(** One call: the status it returns and [buffer_] after it. *)
Definition call (fm : FlashMemory) (buffer_ : list byte) (c : Call)
  : outcome (Status * list byte) :=
  match c with
  | CallErase address num_sectors => Erase fm buffer_ address num_sectors
  | CallRead address output =>
      r ← Read fm buffer_ address output; Returns (status r.1, buffer_)
  | CallWrite address data =>
      r ← Write fm buffer_ address data; Returns (status r.1, r.2)
  end.

Fixpoint run (fm : FlashMemory) (buffer_ : list byte) (cs : list Call)
  : outcome (list byte) :=
  match cs with
  | [] => Returns buffer_
  | c :: cs' => r ← call fm buffer_ c; run fm r.2 cs'
  end.

(** Among the [len] bytes of [buffer_] from [address] on, the target of a
    write, one is not [0xFF]. *)
Definition target_written (buffer_ : list byte) (address len : Z) : Prop :=
  ∃ (i : Z) (b : byte), 0 <= address ∧ 0 <= i < len ∧
    buffer_ !! Z.to_nat (address + i) = Some b ∧ b ≠ kErasedByte.

End InMemoryFakeFlash.

(** * The key-value store *)

Module KeyValueStore.

(** The store itself ([key_value_store.h] and [key_value_store.cc], with
    the entry codec and the flash partition under it) is not among the
    sources, which hold only its test.  This module models it from
    sections 3 and 4 of the design: the partition, the sector descriptor
    table, the key descriptor index, the write, update and delete
    protocol and garbage collection.  Flash is modelled at the level of
    entries: the partition records which entry was written at which
    address, every byte outside the recorded entries being erased; the
    size of an entry on flash is the size the codec gives it. *)

(** Modelled from the spec: the quantities that the store of
    [key_value_store.h] takes from its deployment (sections 3, 4.2 and 6):
    the geometry of the partition, the alignment of entries, the size of
    the header (12 bytes and the checksum), the compile-time limits and
    the key hash. *)
Record Config : Type := mkConfig {
  sector_size : Z;
  sector_count : nat;
  alignment : Z;
  header_size : Z;
  kMaxEntries : nat;
  kMaxValueLength : Z;
  hash : string → Z
}.

(** Modelled from the spec: [internal::Entry::kMaxKeyLength] of
    [pw_kvs/internal/entry.h]; a key has 1 to 64 bytes (section 3). *)
Definition kMaxKeyLength : Z := 64.

(** Modelled from the spec: the partition of [flash_memory.h] has sectors
    of a positive size, which the alignment divides (sections 2 and 6). *)
Definition wf_Config (cfg : Config) : Prop :=
  0 < alignment cfg ∧ 0 < sector_size cfg ∧ 0 <= header_size cfg ∧
  sector_size cfg mod alignment cfg = 0.

(** *** Entries (section 3, section 4.2) *)

(** Modelled from the spec: what an entry of [internal/entry.h] records
    (section 3): the key, the value, the transaction id and whether it
    encodes a delete. *)
Record Entry : Type := mkEntry {
  key : string;
  value : string;
  transaction_id : Z;
  deleted : bool
}.

Definition len (s : string) : Z := Z.of_nat (String.length s).

Definition round_up (x a : Z) : Z := (x + a - 1) / a * a.

(** Modelled from the spec: the size of the buffer the encoder of
    [internal/entry.h] produces, [round_up(header_size + |K| + |V|, A)]
    (section 4.2). *)
Definition entry_size (cfg : Config) (e : Entry) : Z :=
  round_up (header_size cfg + len (key e) + len (value e)) (alignment cfg).

(** *** The flash partition (section 4.1) *)

Definition partition_size (cfg : Config) : Z :=
  Z.of_nat (sector_count cfg) * sector_size cfg.

Definition sector_of (cfg : Config) (address : Z) : nat :=
  Z.to_nat (address / sector_size cfg).

Definition sector_base (cfg : Config) (sector : nat) : Z :=
  Z.of_nat sector * sector_size cfg.

(** The bytes [address .. address + n) meet the entry [p.2] written at
    [p.1]. *)
Definition overlaps (cfg : Config) (address n : Z) (p : Z * Entry) : bool :=
  (p.1 <? address + n) && (address <? p.1 + entry_size cfg p.2).

(** Modelled from the spec: the target region of a write to the
    partition of [flash_memory.h] is all-ones (section 4.1): it meets no
    entry written since the last erase. *)
Definition all_ones (cfg : Config) (partition : gmap Z Entry)
    (address n : Z) : bool :=
  forallb (λ p, negb (overlaps cfg address n p)) (map_to_list partition).

(** Modelled from the spec: [write(addr, data)] of the partition of
    [flash_memory.h] (section 4.1): [InvalidArgument] for an address or a
    length that is not aligned or a region outside the partition,
    [Unknown] for a region that is not all-ones. *)
Definition write (cfg : Config) (partition : gmap Z Entry)
    (address : Z) (e : Entry) : Status * gmap Z Entry :=
  let n := entry_size cfg e in
  if negb (address mod alignment cfg =? 0) ||
     negb (n mod alignment cfg =? 0) ||
     negb ((0 <=? address) && (address + n <=? partition_size cfg))
  then (INVALID_ARGUMENT, partition)
  else if negb (all_ones cfg partition address n)
  then (UNKNOWN, partition)
  else (OK, <[address := e]> partition).

(** Modelled from the spec: reading and decoding the entry at an address
    (sections 4.1 and 4.2); no entry is found where none was written. *)
Definition read (partition : gmap Z Entry) (address : Z) : option Entry :=
  partition !! address.

(** Modelled from the spec: the erase of one sector of the partition of
    [flash_memory.h], which resets it to all-ones (section 4.1). *)
Definition erase (cfg : Config) (partition : gmap Z Entry) (sector : nat)
  : gmap Z Entry :=
  filter (λ p, sector_of cfg p.1 ≠ sector) partition.

(** *** In-RAM entities (section 3) *)

(** Modelled from the spec: the state of a key descriptor of
    [key_value_store.h] (section 3). *)
Inductive KeyState : Type := valid | deleted_state.

#[global] Instance KeyState_eq_dec : EqDecision KeyState.
Proof. solve_decision. Defined.

(** Modelled from the spec: the key descriptor of [key_value_store.h]
    (section 3). *)
Record KeyDescriptor : Type := mkKeyDescriptor {
  key_hash : Z;
  tx_id : Z;
  address : Z;
  state : KeyState
}.

(** Modelled from the spec: the sector descriptor of [key_value_store.h]
    (section 3). *)
Record SectorDescriptor : Type := mkSectorDescriptor {
  bytes_written : Z;
  bytes_reclaimable : Z
}.

(** Modelled from the spec: the store of [key_value_store.h] with what it
    owns (sections 2 and 5): its partition, the index, the sector table
    and the transaction counter. *)
Record KVS : Type := mkKVS {
  partition : gmap Z Entry;
  key_descriptors : list KeyDescriptor;
  sector_descriptors : list SectorDescriptor;
  transaction_counter : Z
}.

(** Modelled from the spec: the store of [key_value_store.h] after [Init]
    on an erased partition (section 4.6): no entry is found, and both
    tables are empty. *)
Definition erased_store (cfg : Config) : KVS :=
  mkKVS ∅ [] (replicate (sector_count cfg) (mkSectorDescriptor 0 0)) 0.

(** *** The sector table (section 4.3) *)

Definition free_bytes (cfg : Config) (sd : SectorDescriptor) : Z :=
  sector_size cfg - bytes_written sd.

Definition empty_sectors (sds : list SectorDescriptor) : nat :=
  length (filter (λ sd, bytes_written sd = 0) sds).

(** Modelled from the spec: the best fit of [allocate] in the sector
    table of [key_value_store.cc] (section 4.3): the sector with the least
    free space among those [allowed] that can take [n] bytes, the first of
    them on a tie; [best] is the choice so far and [i] the index of the
    head of [sds]. *)
Fixpoint best_fit (cfg : Config) (allowed : nat → SectorDescriptor → bool)
    (n : Z) (sds : list SectorDescriptor) (i : nat)
    (best : option (nat * Z)) : option (nat * Z) :=
  match sds with
  | [] => best
  | sd :: sds' =>
      let free := free_bytes cfg sd in
      let better :=
        match best with
        | None => true
        | Some (_, best_free) => free <? best_free
        end in
      best_fit cfg allowed n sds' (S i)
        (if allowed i sd && (n <=? free) && better
         then Some (i, free) else best)
  end.

Definition address_in (cfg : Config) (sds : list SectorDescriptor)
    (choice : option (nat * Z)) : option (nat * Z) :=
  '(sector, free) ← choice;
  Some (sector, sector_base cfg sector + (sector_size cfg - free)).

(** Modelled from the spec: [allocate(size)] of the sector table of
    [key_value_store.cc] (section 4.3): best fit among the sectors with
    room, one fully erased sector being kept in reserve. *)
Definition allocate (cfg : Config) (sds : list SectorDescriptor) (n : Z)
  : option (nat * Z) :=
  let spare := bool_decide (2 ≤ empty_sectors sds)%nat in
  address_in cfg sds
    (best_fit cfg (λ _ sd, negb (bytes_written sd =? 0) || spare)
       n sds 0%nat None).

(** Modelled from the spec: the destination of an entry that garbage
    collection in [key_value_store.cc] moves out of [victim] (section
    4.5): any other sector with room, the reserve included. *)
Definition allocate_for_gc (cfg : Config) (sds : list SectorDescriptor)
    (victim : nat) (n : Z) : option (nat * Z) :=
  address_in cfg sds
    (best_fit cfg (λ i _, negb (i =? victim)%nat) n sds 0%nat None).

(** Modelled from the spec: [mark_written] of the sector table of
    [key_value_store.cc] (section 4.3). *)
Definition mark_written (sector : nat) (n : Z) (sds : list SectorDescriptor)
  : list SectorDescriptor :=
  alter (λ sd, mkSectorDescriptor (bytes_written sd + n) (bytes_reclaimable sd))
    sector sds.

(** Modelled from the spec: [mark_reclaimable] of the sector table of
    [key_value_store.cc] (section 4.3). *)
Definition mark_reclaimable (sector : nat) (n : Z)
    (sds : list SectorDescriptor) : list SectorDescriptor :=
  alter (λ sd, mkSectorDescriptor (bytes_written sd) (bytes_reclaimable sd + n))
    sector sds.

(** Modelled from the spec: [choose_gc_victim] of the sector table of
    [key_value_store.cc] (section 4.3): the sector with the most
    reclaimable bytes, the lowest index on a tie. *)
Fixpoint most_reclaimable (sds : list SectorDescriptor) (i : nat)
    (best : option (nat * Z)) : option (nat * Z) :=
  match sds with
  | [] => best
  | sd :: sds' =>
      let better :=
        match best with
        | None => true
        | Some (_, most) => most <? bytes_reclaimable sd
        end in
      most_reclaimable sds' (S i)
        (if better then Some (i, bytes_reclaimable sd) else best)
  end.

Definition choose_gc_victim (sds : list SectorDescriptor) : option nat :=
  fst <$> most_reclaimable sds 0%nat None.

(** *** Index lookup (section 3, section 4.4 step 2) *)

(** Modelled from the spec: the lookup of a key in the index of
    [key_value_store.cc]: a descriptor answers for [k] when its hash is
    that of [k] and the key bytes of the entry at its address are those
    of [k]. *)

Definition describes (cfg : Config) (partition : gmap Z Entry) (k : string)
    (d : KeyDescriptor) : Prop :=
  key_hash d = hash cfg k ∧ key <$> read partition (address d) = Some k.

#[global] Instance describes_dec cfg partition k d :
  Decision (describes cfg partition k d).
Proof. unfold describes. apply _. Defined.

Definition find_key (cfg : Config) (kvs : KVS) (k : string)
  : option (nat * KeyDescriptor) :=
  list_find (describes cfg (partition kvs) k) (key_descriptors kvs).

(** *** Garbage collection (section 4.5) *)

(** Modelled from the spec: the linear scan of a sector in
    [key_value_store.cc] (section 4.5 step 2): the entries resident in the
    bytes [address .. limit), up to the first address where no entry
    starts. *)
Fixpoint scan (cfg : Config) (partition : gmap Z Entry) (address limit : Z)
    (fuel : nat) : list (Z * Entry) :=
  match fuel with
  | O => []
  | S fuel' =>
      if limit <=? address then [] else
      match read partition address with
      | Some e =>
          (address, e) ::
          scan cfg partition (address + entry_size cfg e) limit fuel'
      | None => []
      end
  end.

Definition scan_sector (cfg : Config) (partition : gmap Z Entry)
    (sector : nat) : list (Z * Entry) :=
  scan cfg partition (sector_base cfg sector)
    (sector_base cfg sector + sector_size cfg)
    (Z.to_nat (sector_size cfg)).

(** Modelled from the spec: the update of the index of
    [key_value_store.cc] to the new address of a moved entry (section 4.5
    step 2). *)
Definition retarget (old new : Z) (d : KeyDescriptor) : KeyDescriptor :=
  if address d =? old
  then mkKeyDescriptor (key_hash d) (tx_id d) new (state d)
  else d.

(** Modelled from the spec: step 2 of garbage collection in
    [key_value_store.cc] for one entry of the victim (section 4.5): if a
    descriptor of the index, valid or deleted, points at it, it is copied
    unchanged into another sector and the index follows. *)
Definition relocate (cfg : Config) (victim : nat) (kvs : KVS)
    (p : Z * Entry) : Status * KVS :=
  if existsb (λ d, address d =? p.1) (key_descriptors kvs) then
    match allocate_for_gc cfg (sector_descriptors kvs) victim
            (entry_size cfg p.2) with
    | Some (sector, destination) =>
        match write cfg (partition kvs) destination p.2 with
        | (OK, partition') =>
            (OK,
             mkKVS partition'
               (retarget p.1 destination <$> key_descriptors kvs)
               (mark_written sector (entry_size cfg p.2)
                  (sector_descriptors kvs))
               (transaction_counter kvs))
        | (error, _) => (error, kvs)
        end
    | None => (RESOURCE_EXHAUSTED, kvs)
    end
  else (OK, kvs).

Fixpoint relocate_all (cfg : Config) (victim : nat) (kvs : KVS)
    (entries : list (Z * Entry)) : Status * KVS :=
  match entries with
  | [] => (OK, kvs)
  | p :: entries' =>
      match relocate cfg victim kvs p with
      | (OK, kvs') => relocate_all cfg victim kvs' entries'
      | failed => failed
      end
  end.

(** Modelled from the spec: steps 3 and 4 of garbage collection in
    [key_value_store.cc] (section 4.5): the victim is erased and its
    descriptor reset. *)
Definition erase_sector (cfg : Config) (victim : nat) (kvs : KVS) : KVS :=
  mkKVS (erase cfg (partition kvs) victim)
    (key_descriptors kvs)
    (<[victim := mkSectorDescriptor 0 0]> (sector_descriptors kvs))
    (transaction_counter kvs).

(** Modelled from the spec: garbage collection in [key_value_store.cc]
    (section 4.5); when an entry cannot be moved the victim is left as it
    is. *)
Definition garbage_collect (cfg : Config) (kvs : KVS) : Status * KVS :=
  match choose_gc_victim (sector_descriptors kvs) with
  | Some victim =>
      match relocate_all cfg victim kvs
              (scan_sector cfg (partition kvs) victim) with
      | (OK, kvs') => (OK, erase_sector cfg victim kvs')
      | failed => failed
      end
  | None => (RESOURCE_EXHAUSTED, kvs)
  end.

(** *** Writing an entry (section 4.4 steps 5 and 6) *)

(** Modelled from the spec: step 6 of [Put] in [key_value_store.cc]
    (section 4.4): the entry is written and the sector table follows; a
    failed write changes nothing. *)
Definition write_at (cfg : Config) (kvs : KVS) (sector : nat)
    (destination : Z) (e : Entry) : Status * KVS * Z :=
  match write cfg (partition kvs) destination e with
  | (OK, partition') =>
      (OK,
       mkKVS partition' (key_descriptors kvs)
         (mark_written sector (entry_size cfg e) (sector_descriptors kvs))
         (transaction_counter kvs),
       destination)
  | (error, _) => (error, kvs, destination)
  end.

(** Modelled from the spec: steps 5 and 6 of [Put] in
    [key_value_store.cc] (section 4.4): space is allocated, after one
    garbage collection if need be, and the entry written there. *)
Definition write_entry (cfg : Config) (kvs : KVS) (e : Entry)
  : Status * KVS * Z :=
  match allocate cfg (sector_descriptors kvs) (entry_size cfg e) with
  | Some (sector, destination) => write_at cfg kvs sector destination e
  | None =>
      let kvs' := (garbage_collect cfg kvs).2 in
      match allocate cfg (sector_descriptors kvs') (entry_size cfg e) with
      | Some (sector, destination) => write_at cfg kvs' sector destination e
      | None => (RESOURCE_EXHAUSTED, kvs', 0)
      end
  end.

(** Modelled from the spec: step 5 of [Put] in [key_value_store.cc]
    (section 4.4) finds room for [n] bytes, at once or after one garbage
    collection. *)
Definition room_for (cfg : Config) (kvs : KVS) (n : Z) : bool :=
  bool_decide (is_Some (allocate cfg (sector_descriptors kvs) n)) ||
  bool_decide
    (is_Some (allocate cfg (sector_descriptors (garbage_collect cfg kvs).2) n)).

(** Modelled from the spec: step 7 of [Put] in [key_value_store.cc]
    (section 4.4): the index points at the new entry; the bytes of the
    entry it pointed at before become reclaimable. *)
Definition supersede (cfg : Config) (kvs : KVS) (i : nat)
    (d : KeyDescriptor) : KVS :=
  let sds :=
    match key_descriptors kvs !! i with
    | Some old =>
        match read (partition kvs) (address old) with
        | Some e =>
            mark_reclaimable (sector_of cfg (address old)) (entry_size cfg e)
              (sector_descriptors kvs)
        | None => sector_descriptors kvs
        end
    | None => sector_descriptors kvs
    end in
  mkKVS (partition kvs) (<[i := d]> (key_descriptors kvs)) sds
    (transaction_counter kvs).

(** Modelled from the spec: step 7 of [Put] in [key_value_store.cc] for
    a new key (sections 3 and 4.4): a descriptor is created. *)
Definition add_descriptor (kvs : KVS) (d : KeyDescriptor) : KVS :=
  mkKVS (partition kvs) (key_descriptors kvs ++ [d])
    (sector_descriptors kvs) (transaction_counter kvs).

(** Modelled from the spec: the validation of a key in
    [key_value_store.cc] (section 4.4 step 1): 1 to 64 bytes. *)
Definition valid_key (k : string) : bool :=
  (1 <=? len k) && (len k <=? kMaxKeyLength).

(** Modelled from the spec: [++transaction_counter] in
    [key_value_store.cc] (section 4.4); the counter has 32 bits, and a
    store that would overflow it refuses to write. *)
Definition next_transaction (kvs : KVS) : option KVS :=
  if transaction_counter kvs + 1 <? 2 ^ 32 then
    Some (mkKVS (partition kvs) (key_descriptors kvs)
            (sector_descriptors kvs) (transaction_counter kvs + 1))
  else None.

(** *** Put, Delete, Get (section 4.4) *)

(** Modelled from the spec: [KeyValueStore::Put] of [key_value_store.cc]
    (section 4.4, steps 1 to 7). *)
Definition Put (cfg : Config) (kvs : KVS) (k v : string) : Status * KVS :=
  if negb (valid_key k) || (kMaxValueLength cfg <? len v)
  then (INVALID_ARGUMENT, kvs) else
  let found := find_key cfg kvs k in
  if bool_decide (found = None) &&
     bool_decide (kMaxEntries cfg ≤ length (key_descriptors kvs))%nat
  then (RESOURCE_EXHAUSTED, kvs) else
  match next_transaction kvs with
  | None => (INTERNAL, kvs)
  | Some kvs1 =>
      let tx := transaction_counter kvs1 in
      match write_entry cfg kvs1 (mkEntry k v tx false) with
      | (OK, kvs2, destination) =>
          let d := mkKeyDescriptor (hash cfg k) tx destination valid in
          (OK,
           match found with
           | Some (i, _) => supersede cfg kvs2 i d
           | None => add_descriptor kvs2 d
           end)
      | (error, kvs2, _) => (error, kvs2)
      end
  end.

(** Modelled from the spec: [KeyValueStore::Delete] of
    [key_value_store.cc] (section 4.4): as [Put], with an entry that has
    no value and the delete flag; [NotFound] for a key that is absent or
    deleted. *)
Definition Delete (cfg : Config) (kvs : KVS) (k : string) : Status * KVS :=
  if negb (valid_key k) then (INVALID_ARGUMENT, kvs) else
  match find_key cfg kvs k with
  | None => (NOT_FOUND, kvs)
  | Some (i, found) =>
      if bool_decide (state found = deleted_state) then (NOT_FOUND, kvs) else
      match next_transaction kvs with
      | None => (INTERNAL, kvs)
      | Some kvs1 =>
          let tx := transaction_counter kvs1 in
          match write_entry cfg kvs1 (mkEntry k "" tx true) with
          | (OK, kvs2, destination) =>
              (OK,
               supersede cfg kvs2 i
                 (mkKeyDescriptor (hash cfg k) tx destination deleted_state))
          | (error, kvs2, _) => (error, kvs2)
          end
      end
  end.

(** Modelled from the spec: the bytes [Get] of [key_value_store.cc]
    copies into a buffer of [n] bytes (section 4.4): the first [n] bytes
    of the value. *)
Definition prefix (n : nat) (s : string) : string := String.substring 0 n s.

(** Modelled from the spec: [KeyValueStore::Get] of [key_value_store.cc]
    (section 4.4), with [|out| = out_size]: the status, the bytes copied
    into [out] and the size of the value. *)
Definition Get (cfg : Config) (kvs : KVS) (k : string) (out_size : Z)
  : Status * string * Z :=
  match find_key cfg kvs k with
  | None => (NOT_FOUND, "", 0)
  | Some (_, found) =>
      if bool_decide (state found = deleted_state) then (NOT_FOUND, "", 0) else
      match read (partition kvs) (address found) with
      | Some e =>
          (if out_size <? len (value e) then RESOURCE_EXHAUSTED else OK,
           prefix (Z.to_nat out_size) (value e),
           len (value e))
      | None => (DATA_LOSS, "", 0)
      end
  end.

(** *** Iteration and size (section 6) *)

(** Modelled from the spec: the iteration over the store of
    [key_value_store.h] (section 6): the keys now valid, each with the
    value [Get] reads for it, in index order. *)
Definition items (kvs : KVS) : list (string * string) :=
  omap (λ d,
          if bool_decide (state d = valid)
          then (λ e, (key e, value e)) <$> read (partition kvs) (address d)
          else None)
    (key_descriptors kvs).

(** Modelled from the spec: [size()] of [key_value_store.h] (sections 6
    and 8, P2): the number of keys now valid. *)
Definition size (kvs : KVS) : nat :=
  length (filter (λ d, state d = valid) (key_descriptors kvs)).

(** Modelled from the spec: [max_size()] of [key_value_store.h] (section
    6). *)
Definition max_size (cfg : Config) : nat := kMaxEntries cfg.

(** *** Sequences of operations *)

Inductive Operation : Type :=
| OpPut (k v : string)
| OpDelete (k : string).

Definition apply (cfg : Config) (kvs : KVS) (op : Operation)
  : Status * KVS :=
  match op with
  | OpPut k v => Put cfg kvs k v
  | OpDelete k => Delete cfg kvs k
  end.

(** *** The representation invariant

    [logs] gives, for each sector, the entries written to it since it was
    last erased, in the order they were written. *)

Definition total (cfg : Config) (log : list Entry) : Z :=
  foldr (λ e n, entry_size cfg e + n) 0 log.

(** The addresses of the entries of [log], the first being at [address]. *)
Fixpoint place (cfg : Config) (address : Z) (log : list Entry)
  : list (Z * Entry) :=
  match log with
  | [] => []
  | e :: log' => (address, e) :: place cfg (address + entry_size cfg e) log'
  end.

Definition placed (cfg : Config) (logs : list (list Entry))
    (a : Z) (e : Entry) : Prop :=
  ∃ (sector : nat) (before after : list Entry),
    logs !! sector = Some (before ++ e :: after) ∧
    a = sector_base cfg sector + total cfg before.

(** What the index says of a key, with the entry its descriptor points
    at. *)
Definition resolve (partition : gmap Z Entry) (d : KeyDescriptor)
  : Z * KeyState * option Entry :=
  (key_hash d, state d, read partition (address d)).

Definition resolved (kvs : KVS) : list (Z * KeyState * option Entry) :=
  resolve (partition kvs) <$> key_descriptors kvs.

Record Inv (cfg : Config) (kvs : KVS) (logs : list (list Entry)) : Prop := {
  inv_count : length logs = sector_count cfg;
  inv_capacity : (length (resolved kvs) ≤ kMaxEntries cfg)%nat;
  inv_partition :
    ∀ a e, partition kvs !! a = Some e ↔ placed cfg logs a e;
  inv_sectors :
    Forall2 (λ sd log, bytes_written sd = total cfg log)
      (sector_descriptors kvs) logs;
  inv_fit :
    Forall (λ log, total cfg log <= sector_size cfg ∧
                   Forall (λ e, 0 < entry_size cfg e) log) logs;
  inv_aligned :
    Forall (Forall (λ e, entry_size cfg e mod alignment cfg = 0)) logs;
  inv_index :
    Forall (λ r : Z * KeyState * option Entry,
              ∃ e, r.2 = Some e ∧ r.1.1 = hash cfg (key e))
      (resolved kvs);
  inv_keys :
    NoDup ((λ r : Z * KeyState * option Entry, key <$> r.2) <$> resolved kvs)
}.

(** Every log fits its sector, and its entries take room. *)
Definition logs_fit (cfg : Config) (logs : list (list Entry)) : Prop :=
  Forall (λ log, total cfg log <= sector_size cfg ∧
                 Forall (λ e, 0 < entry_size cfg e) log) logs.

Definition key_of (r : Z * KeyState * option Entry) : option string :=
  key <$> r.2.

(** Every descriptor points at an entry with its hash, and no two at
    entries with the same key. *)
Definition index_ok (cfg : Config)
    (rs : list (Z * KeyState * option Entry)) : Prop :=
  Forall (λ r : Z * KeyState * option Entry,
            ∃ e, r.2 = Some e ∧ r.1.1 = hash cfg (key e)) rs ∧
  NoDup (key_of <$> rs).

(** The item the iteration yields for a descriptor. *)
Definition item_of (r : Z * KeyState * option Entry)
  : option (string * string) :=
  if bool_decide (r.1.2 = valid) then (λ e, (key e, value e)) <$> r.2
  else None.

(** The index, resolved, holds [v] for [k]. *)
Definition holds_in (rs : list (Z * KeyState * option Entry))
    (k v : string) : Prop :=
  ∃ h e, (h, valid, Some e) ∈ rs ∧ key e = k ∧ value e = v.

Definition holds (kvs : KVS) (k v : string) : Prop :=
  holds_in (resolved kvs) k v.

(** The reference mapping and the store agree. *)
Definition agree (kvs : KVS) (m : gmap string string) : Prop :=
  ∀ k v, m !! k = Some v ↔ holds kvs k v.

End KeyValueStore.

(** * The map test *)

Module KvsTester.
Import KeyValueStore.

Definition kMaxEntries : nat := 256.
Definition kMaxUsableSectors : nat := 256.

(** [KvsTester::kMaxValueLength] *)
Definition kMaxValueLength : Z := 64.

Record TestParameters : Type := mkTestParameters {
  sector_size : Z;
  sector_count : nat;
  sector_alignment : Z;
  partition_start_sector : nat;
  partition_sector_count : nat;
  partition_alignment : Z
}.

Definition Basic : TestParameters := mkTestParameters (4 * 1024) 4 16 0 4 16.
Definition LotsOfSmallSectors : TestParameters :=
  mkTestParameters 160 100 32 5 95 32.
Definition OnlyTwoSectors : TestParameters :=
  mkTestParameters (4 * 1024) 20 16 18 2 64.

(** The store a test runs on: [kFormat] has no checksum, so that a header
    takes 12 bytes; the store is a [KeyValueStoreBuffer<kMaxEntries,
    kMaxUsableSectors>] on the partition of the parameters. *)
Definition store_config (p : TestParameters) (max_value : Z)
    (hash : string → Z) : Config :=
  mkConfig (sector_size p) (partition_sector_count p) (partition_alignment p)
    12 kMaxEntries max_value hash.

(** The state of a tester: the store, the reference map, the keys deleted
    so far, the operation count, an [unsigned], and the number of
    [EXPECT_]s that failed. *)
Record Tester : Type := mkTester {
  kvs_ : KVS;
  map_ : gmap string string;
  deleted_ : gset string;
  count_ : Z;
  failures : nat
}.

Definition EXPECT (holds : bool) (t : Tester) : Tester :=
  if holds then t
  else mkTester (kvs_ t) (map_ t) (deleted_ t) (count_ t) (S (failures t)).

Definition StartOperation (t : Tester) : Tester :=
  mkTester (kvs_ t) (map_ t) (deleted_ t) (to_uint32 (count_ t + 1))
    (failures t).

Definition with_kvs (t : Tester) (kvs : KVS) : Tester :=
  mkTester kvs (map_ t) (deleted_ t) (count_ t) (failures t).

Definition EXPECT_EQ (expected result : Status) (t : Tester) : Tester :=
  EXPECT (bool_decide (expected = result)) t.

(** [KvsTester::Put]; [None] stands for [std::abort()].  The log lines
    of [StartOperation] and [FinishOperation] are left out. *)
Definition Put (cfg : Config) (t : Tester) (key value : string)
  : option Tester :=
  let t := StartOperation t in
  let t := EXPECT (len value <=? kMaxValueLength) t in
  let '(result, kvs) := KeyValueStore.Put cfg (kvs_ t) key value in
  let t := with_kvs t kvs in
  t ←
    (if (len key =? 0) || (kMaxKeyLength <? len key) then
       Some (EXPECT_EQ INVALID_ARGUMENT result t)
     else if bool_decide (base.size (map_ t) = max_size cfg) then
       Some (EXPECT_EQ RESOURCE_EXHAUSTED result t)
     else if bool_decide (result = RESOURCE_EXHAUSTED) then
       Some (EXPECT (negb (bool_decide (map_ t = ∅))) t)
     else if ok result then
       Some (mkTester (kvs_ t) (<[key := value]> (map_ t))
               (deleted_ t ∖ {[key]}) (count_ t) (failures t))
     else None);
  if bool_decide (KeyValueStore.size (kvs_ t) = base.size (map_ t))
  then Some t else None.

(** [KvsTester::Delete] *)
Definition Delete (cfg : Config) (t : Tester) (key : string)
  : option Tester :=
  let t := StartOperation t in
  let '(result, kvs) := KeyValueStore.Delete cfg (kvs_ t) key in
  let t := with_kvs t kvs in
  if (len key =? 0) || (kMaxKeyLength <? len key) then
    Some (EXPECT_EQ INVALID_ARGUMENT result t)
  else if bool_decide (map_ t !! key = None) then
    Some (EXPECT_EQ NOT_FOUND result t)
  else if ok result then
    if bool_decide (key ∈ deleted_ t) then None
    else Some (mkTester (kvs_ t) (delete key (map_ t))
                 (deleted_ t ∪ {[key]}) (count_ t) (failures t))
  else if bool_decide (result = RESOURCE_EXHAUSTED) then Some t
  else None.

(** [std::string(value)] for a [char] array that holds [s]: the bytes
    before the first NUL. *)
Fixpoint c_string (s : string) : string :=
  match s with
  | EmptyString => EmptyString
  | String c s' =>
      if Ascii.eqb c Ascii.zero then EmptyString else String c (c_string s')
  end.

(** The body of the loop of [CompareContents] for one item of the store,
    with its key and the value its [Get] reads.  The array [value] has
    [kMaxValueLength + 1] bytes, all zero before [Get] fills it; making a
    string of it when no byte of it is zero reads past its end. *)
Definition compare_item (t : Tester) (item : string * string)
  : outcome Tester :=
  match map_ t !! item.1 with
  | None => Returns t
  | Some expected =>
      let n := kMaxValueLength + 1 in
      let copied := prefix (Z.to_nat n) item.2 in
      let status := if n <? len item.2 then RESOURCE_EXHAUSTED else OK in
      let t := EXPECT_EQ OK status t in
      if len (c_string copied) =? n then Undefined
      else Returns (EXPECT (String.eqb expected (c_string copied)) t)
  end.

Fixpoint compare_items (t : Tester) (count : nat)
    (items : list (string * string)) : outcome (Tester * nat) :=
  match items with
  | [] => Returns (t, count)
  | item :: items' =>
      t' ← compare_item t item; compare_items t' (S count) items'
  end.

(** [KvsTester::CompareContents] *)
Definition CompareContents (t : Tester) : outcome Tester :=
  let t :=
    EXPECT (bool_decide (base.size (map_ t) = KeyValueStore.size (kvs_ t))) t in
  r ← compare_items t 0 (items (kvs_ t));
  Returns (EXPECT (bool_decide (r.2 = base.size (map_ r.1))) r.1).

(** The reference map after an operation that returned [result]: it
    follows the operation when the store reports success. *)
Definition record (map_ : gmap string string) (op : Operation)
    (result : Status) : gmap string string :=
  if ok result then
    match op with
    | OpPut key value => <[key := value]> map_
    | OpDelete key => delete key map_
    end
  else map_.

(** A sequence of operations on a fresh tester: the store and the
    reference map after it. *)
Definition step (cfg : Config) (s : KVS * gmap string string)
    (op : Operation) : KVS * gmap string string :=
  let r := apply cfg s.1 op in (r.2, record s.2 op r.1).

Definition run (cfg : Config) (ops : list Operation)
  : KVS * gmap string string :=
  foldl (step cfg) (erased_store cfg, ∅) ops.

(** The tester as its constructor leaves it, on an erased partition. *)
Definition fresh (cfg : Config) : Tester :=
  mkTester (erased_store cfg) ∅ ∅ 0 0.

(** A sequence of operations through the tester. *)
Definition perform (cfg : Config) (t : Tester) (op : Operation)
  : option Tester :=
  match op with
  | OpPut key value => Put cfg t key value
  | OpDelete key => Delete cfg t key
  end.

Definition perform_all (cfg : Config) (t : Tester) (ops : list Operation)
  : option Tester :=
  foldl (λ acc op, acc ≫= λ t, perform cfg t op) (Some t) ops.

Definition empty (t : Tester) : bool := bool_decide (map_ t = ∅).

(** *** Stores and testers to try the operations on *)

(** The store of the [Basic] test, with the length of a key for its
    hash, so that keys collide. *)
Definition basic : Config := store_config Basic 64 len.

(** Two sectors of 64 bytes and an index of two descriptors. *)
Definition tiny : Config := mkConfig 64 2 16 12 2 64 len.

(** A tester whose reference map has one entry. *)
Definition one_entry : Tester :=
  mkTester (erased_store basic) {["key" := "value"]} ∅ 1 0.

Section iteration_order.
(** The order in which a [std::unordered_map] is iterated is not
    specified; [iteration] stands for it. *)
Context (iteration : gmap string string → list (string * string)).

(** [map_.begin()] *)
Definition begin (m : gmap string string) : option (string * string) :=
  head (iteration m).

Definition RandomPresentKey (t : Tester) : string :=
  if empty t then ""
  else match begin (map_ t) with
       | Some entry => entry.2
       | None => ""
       end.

End iteration_order.

End KvsTester.

(** * The fake flash as a device *)

Module FakeFlashDevice.
Import InMemoryFakeFlash.

(** [Enable], [Disable] and [IsEnabled]: the fake is always enabled. *)
Definition Enable : Status := OK.
Definition Disable : Status := OK.
Definition IsEnabled : bool := true.

(** The accessors of [fm] describe no more than [buffer_] holds: neither
    the sectors that [Erase] counts nor the bound that [Read] and [Write]
    test against reach past its end. *)
Definition consistent (fm : FlashMemory) (buffer_ : list byte) : Prop :=
  0 < sector_size_bytes fm ∧ 0 < alignment_bytes fm ∧ 0 <= sector_count fm ∧
  sector_count fm * sector_size_bytes fm <= Z.of_nat (length buffer_) ∧
  0 <= sector_count fm * size_bytes fm <= Z.of_nat (length buffer_) ∧
  wf_buffer buffer_.

(** The arguments of a call: an [Address] has 32 bits; a sector count and
    the size of a span stay below [2^63], as the sizes of objects do. *)
Definition in_range (c : Call) : Prop :=
  match c with
  | CallErase address num_sectors =>
      is_uint32 address ∧ 0 <= num_sectors < 2 ^ 63
  | CallRead address output =>
      is_uint32 address ∧ Z.of_nat (length output) < 2 ^ 63
  | CallWrite address data =>
      is_uint32 address ∧ Z.of_nat (length data) < 2 ^ 63
  end.

End FakeFlashDevice.

(** * The map test over any store

    [KvsTester] of [pw_kvs/key_value_store_map_test.cc] once more, this
    time with nothing assumed of the store it drives: the store, its
    partition and its items are an interface, and what the tester does is
    read off its source for whatever they answer. *)

Module MapTest.

(** The places where the tester calls [std::abort()]. *)
Inductive Abort : Type :=
| InitFailed
| PutUnhandledResult
| PutSizeMismatch
| DeletedTwice
| DeleteUnhandledResult.

(** A run of the tester goes on, or has aborted. *)
Inductive exec (A : Type) : Type :=
| Done (a : A)
| Aborted (why : Abort).
Arguments Done {A} a.
Arguments Aborted {A} why.

#[global] Instance exec_ret : MRet exec := @Done.
#[global] Instance exec_bind : MBind exec :=
  fun A B k m => match m with Done a => k a | Aborted why => Aborted why end.

(** An item of the iteration over the store: its key, and [Get], which
    takes the caller's buffer and gives a status and the buffer as it
    leaves it. *)
Record Item : Type := mkItem {
  key : string;
  Get : string → Status * string
}.

(** What the tester uses of the store, of its partition and of
    [internal::Entry]. *)
Class Store (Kvs : Type) : Type := {
  kMaxKeyLength : nat;
  partition_Erase : Kvs → Status * Kvs;
  kvs_Init : Kvs → Status * Kvs;
  kvs_Put : Kvs → string → string → Status * Kvs;
  kvs_Delete : Kvs → string → Status * Kvs;
  kvs_size : Kvs → nat;
  kvs_max_size : Kvs → nat;
  kvs_items : Kvs → list Item
}.

Definition kChars : string :=
  "abcdefghijklmnopqrstuvwxyzABCDEFGHIJKLMNOPQRSTUVWXYZ0123456789".

(** [KvsTester::kMaxValueLength] *)
Definition kMaxValueLength : nat := 64.

(** [std::string(n, c)] *)
Fixpoint string_of (n : nat) (c : Ascii.ascii) : string :=
  match n with
  | O => EmptyString
  | S n' => String c (string_of n' c)
  end.

(** [std::to_string] of an [unsigned]. *)
Definition to_string (n : Z) : string := pretty n.

(** [kChars[index]]; an index past the end reads outside the string, and
    stands for the NUL character here. *)
Definition kChars_at (index : Z) : Ascii.ascii :=
  default Ascii.zero (String.get (Z.to_nat index) kChars).

(** The random numbers: [random] lists the values that [distro(random)]
    returns, in order, and [drawn] counts those taken so far. *)
Definition random_int (random : nat → Z) (drawn : nat) : Z :=
  to_uint32 (random drawn).

(** The lambda [random_string], with the count of numbers drawn after
    it. *)
Fixpoint random_string (random : nat → Z) (length : nat) (drawn : nat)
  : string * nat :=
  match length with
  | O => (EmptyString, drawn)
  | S length' =>
      let c :=
        kChars_at (random_int random drawn
                   mod Z.of_nat (String.length kChars)) in
      let rest := random_string random length' (S drawn) in
      (String c rest.1, rest.2)
  end.

(** Every character of [s] is one of [kChars]. *)
Definition from_kChars (s : string) : Prop :=
  Forall (λ c, c ∈ String.list_ascii_of_string kChars)
    (String.list_ascii_of_string s).

Section tester.
Context {Kvs : Type} {store : Store Kvs}.

(** The state of a tester: the store, the reference map, the keys deleted
    so far, the operation count, an [unsigned], and the number of
    [EXPECT_]s that failed. *)
Record Tester : Type := mkTester {
  kvs_ : Kvs;
  map_ : gmap string string;
  deleted_ : gset string;
  count_ : Z;
  failures : nat
}.

Definition EXPECT (holds : bool) (t : Tester) : Tester :=
  if holds then t
  else mkTester (kvs_ t) (map_ t) (deleted_ t) (count_ t)
         (S (failures t)).

Definition EXPECT_EQ (expected result : Status) (t : Tester) : Tester :=
  EXPECT (bool_decide (expected = result)) t.

(** [StartOperation]; its log line, and [FinishOperation], which only
    logs, are left out. *)
Definition StartOperation (t : Tester) : Tester :=
  mkTester (kvs_ t) (map_ t) (deleted_ t) (to_uint32 (count_ t + 1))
    (failures t).

Definition with_kvs (t : Tester) (kvs : Kvs) : Tester :=
  mkTester kvs (map_ t) (deleted_ t) (count_ t) (failures t).

Definition empty (t : Tester) : bool := bool_decide (map_ t = ∅).

(** [key.empty() || key.size() > internal::Entry::kMaxKeyLength] *)
Definition invalid_key (key : string) : bool :=
  (String.length key =? 0)%nat || (kMaxKeyLength <? String.length key)%nat.

(** The constructor, on the store as its own constructor made it. *)
Definition construct (kvs : Kvs) : exec Tester :=
  let '(erased, kvs) := partition_Erase kvs in
  let t := EXPECT_EQ OK erased (mkTester kvs ∅ ∅ 0 0) in
  let '(result, kvs) := kvs_Init (kvs_ t) in
  let t := EXPECT_EQ OK result (with_kvs t kvs) in
  if negb (ok result) then Aborted InitFailed else Done t.

(** [KvsTester::Put] *)
Definition Put (t : Tester) (key value : string) : exec Tester :=
  let t := StartOperation t in
  let t := EXPECT (String.length value <=? kMaxValueLength)%nat t in
  let '(result, kvs) := kvs_Put (kvs_ t) key value in
  let t := with_kvs t kvs in
  t ←
    (if invalid_key key then
       Done (EXPECT_EQ INVALID_ARGUMENT result t)
     else if bool_decide (size (map_ t) = kvs_max_size (kvs_ t)) then
       Done (EXPECT_EQ RESOURCE_EXHAUSTED result t)
     else if bool_decide (result = RESOURCE_EXHAUSTED) then
       Done (EXPECT (negb (empty t)) t)
     else if ok result then
       Done (mkTester (kvs_ t) (<[key := value]> (map_ t))
               (deleted_ t ∖ {[key]}) (count_ t) (failures t))
     else Aborted PutUnhandledResult);
  if bool_decide (kvs_size (kvs_ t) = size (map_ t))
  then Done t else Aborted PutSizeMismatch.

(** [KvsTester::Delete] *)
Definition Delete (t : Tester) (key : string) : exec Tester :=
  let t := StartOperation t in
  let '(result, kvs) := kvs_Delete (kvs_ t) key in
  let t := with_kvs t kvs in
  if invalid_key key then
    Done (EXPECT_EQ INVALID_ARGUMENT result t)
  else if bool_decide (map_ t !! key = None) then
    Done (EXPECT_EQ NOT_FOUND result t)
  else if ok result then
    if bool_decide (key ∈ deleted_ t) then Aborted DeletedTwice
    else Done (mkTester (kvs_ t) (delete key (map_ t))
                 (deleted_ t ∪ {[key]}) (count_ t) (failures t))
  else if bool_decide (result = RESOURCE_EXHAUSTED) then Done t
  else Aborted DeleteUnhandledResult.

(** [KvsTester::Init] *)
Definition Init (t : Tester) : Tester :=
  let t := StartOperation t in
  let '(status, kvs) := kvs_Init (kvs_ t) in
  EXPECT_EQ OK status (with_kvs t kvs).

(** *** CompareContents *)

(** [map_.find(key)]: the entry with that key. *)
Definition find (m : gmap string string) (key : string)
  : option (string * string) :=
  pair key <$> m !! key.

(** [std::string(value)] for the array [value]: the characters before the
    first NUL, which has to be there. *)
Definition string_from (value : string) : outcome string :=
  let s := KvsTester.c_string value in
  if (String.length s =? String.length value)%nat then Undefined
  else Returns s.

(** The body of the loop of [CompareContents], for one item.  An item
    whose key the map lacks is logged, and no expectation fails. *)
Definition compare_item (t : Tester) (item : Item) : outcome Tester :=
  match find (map_ t) (key item) with
  | None => Returns t
  | Some map_entry =>
      let t := EXPECT (String.eqb map_entry.1 (key item)) t in
      let '(status, value) :=
        Get item (string_of (kMaxValueLength + 1) Ascii.zero) in
      let t := EXPECT_EQ OK status t in
      s ← string_from value;
      Returns (EXPECT (String.eqb map_entry.2 s) t)
  end.

(** The item agrees with the map [m]: if [m] has its key, [Get] returns
    [OK] and leaves in the buffer, before the first NUL, the value that
    [m] has for the key. *)
Definition agrees (m : gmap string string) (item : Item) : Prop :=
  ∀ expected, m !! key item = Some expected →
    let r := Get item (string_of (kMaxValueLength + 1) Ascii.zero) in
    r.1 = OK ∧ string_from r.2 = Returns expected.

Fixpoint compare_items (t : Tester) (count : nat) (items : list Item)
  : outcome (Tester * nat) :=
  match items with
  | [] => Returns (t, count)
  | item :: items' =>
      t' ← compare_item t item;
      compare_items t' (S count) items'
  end.

(** [KvsTester::CompareContents], which the destructor runs. *)
Definition CompareContents (t : Tester) : outcome Tester :=
  let t := EXPECT (bool_decide (size (map_ t) = kvs_size (kvs_ t))) t in
  r ← compare_items t 0 (kvs_items (kvs_ t));
  Returns (EXPECT (bool_decide (r.2 = size (map_ r.1))) r.1).

(** *** Sequences of operations *)

Inductive Operation : Type :=
| OpInit
| OpPut (key value : string)
| OpDelete (key : string).

Definition perform (t : Tester) (op : Operation) : exec Tester :=
  match op with
  | OpInit => Done (Init t)
  | OpPut key value => Put t key value
  | OpDelete key => Delete t key
  end.

Definition perform_all (t : Tester) (ops : list Operation) : exec Tester :=
  foldl (λ acc op, acc ≫= λ t, perform t op) (Done t) ops.

(** The store always reports the same capacity. *)
Definition fixed_max_size : Prop :=
  ∀ (kvs : Kvs) (key value : string),
    kvs_max_size (kvs_Init kvs).2 = kvs_max_size kvs ∧
    kvs_max_size (kvs_Put kvs key value).2 = kvs_max_size kvs ∧
    kvs_max_size (kvs_Delete kvs key).2 = kvs_max_size kvs.

(** The values of the map are strings as the random test makes them. *)
Definition tame_map (t : Tester) : Prop :=
  ∀ k v, map_ t !! k = Some v →
    from_kChars v ∧ (String.length v < kMaxValueLength)%nat.

(** *** The tests *)

Section iteration_order.
(** The order in which a [std::unordered_map] is iterated is not
    specified; [iteration] stands for it. *)
Context (iteration : gmap string string → list (string * string)).

Definition RandomPresentKey (t : Tester) : string :=
  if empty t then ""
  else match head (iteration (map_ t)) with
       | Some entry => entry.2
       | None => ""
       end.

(** One round of the loop of [Test_RandomValidInputs], on the tester and
    the count of random numbers drawn.  [||] and [&&] draw their right
    operand's number only when the left operand does not decide. *)
Definition round (random : nat → Z) (reinit : bool) (s : Tester * nat)
  : exec (Tester * nat) :=
  let '(t, drawn) := s in
  let '(t, drawn) :=
    if reinit then
      (if random_int random drawn mod 10 =? 0 then Init t else t,
       S drawn)
    else (t, drawn) in
  let delete_a_key := random_int random drawn mod 4 =? 0 in
  let drawn := S drawn in
  if delete_a_key then
    let '(missing, drawn) :=
      if empty t then (true, drawn)
      else (random_int random drawn mod 8 =? 0, S drawn) in
    if (missing : bool) then
      t' ← Delete t ("not_a_key" +:+ to_string (random_int random drawn));
      Done (t', S drawn)
    else
      t' ← Delete t (RandomPresentKey t); Done (t', drawn)
  else
    let '(fresh, drawn) :=
      if empty t then (true, drawn)
      else (random_int random drawn mod 2 =? 0, S drawn) in
    let '(key, drawn) :=
      if (fresh : bool) then
        random_string random
          (Z.to_nat (random_int random drawn
                     mod (Z.of_nat kMaxKeyLength + 1)))
          (S drawn)
      else (RandomPresentKey t, drawn) in
    let '(value, drawn) :=
      random_string random
        (Z.to_nat (random_int random drawn mod Z.of_nat kMaxValueLength))
        (S drawn) in
    t' ← Put t key value; Done (t', drawn).

Fixpoint rounds (n : nat) (random : nat → Z) (reinit : bool)
    (s : Tester * nat) : exec (Tester * nat) :=
  match n with
  | O => Done s
  | S n' => s' ← round random reinit s; rounds n' random reinit s'
  end.

(** [Test_RandomValidInputs]; the numbers that the seed makes [random]
    give stand for the seed. *)
Definition Test_RandomValidInputs (iterations : Z) (random : nat → Z)
    (reinit : bool) (t : Tester) : exec Tester :=
  s ← rounds (Z.to_nat iterations) random reinit (t, 0%nat); Done s.1.

(** What the random test asks of the tester: a [Put] of strings of
    [kChars], a [Delete] of a key made not to be there or of such a
    string, and an [Init] when it was told to reinitialise. *)
Definition random_operation (reinit : bool) (op : Operation) : Prop :=
  match op with
  | OpInit => reinit = true
  | OpPut key value =>
      from_kChars key ∧
      (String.length key ≤ kMaxKeyLength `max` (kMaxValueLength - 1))%nat ∧
      from_kChars value ∧ (String.length value < kMaxValueLength)%nat
  | OpDelete key =>
      (∃ n, is_uint32 n ∧ key = "not_a_key" +:+ to_string n) ∨
      (from_kChars key ∧ (String.length key < kMaxValueLength)%nat)
  end.

End iteration_order.
End tester.

Arguments Tester Kvs : clear implicits.

(** *** A store to try the tester on

    It keeps its entries in a map and holds at most [capacity] of them;
    [Get] copies the value to the start of the buffer. *)

Definition copy_to (value buffer : string) : Status * string :=
  if (String.length value <=? String.length buffer)%nat then
    (OK, value +:+ String.substring (String.length value)
                     (String.length buffer - String.length value) buffer)
  else
    (RESOURCE_EXHAUSTED, String.substring 0 (String.length buffer) value).

Definition rejects (key : string) : bool :=
  (String.length key =? 0)%nat || (64 <? String.length key)%nat.

Definition map_store (capacity : nat) : Store (gmap string string) := {|
  kMaxKeyLength := 64;
  partition_Erase := λ _, (OK, ∅);
  kvs_Init := λ kvs, (OK, kvs);
  kvs_Put := λ kvs key value,
    if rejects key then (INVALID_ARGUMENT, kvs)
    else if bool_decide (kvs !! key = None) && (capacity <=? size kvs)%nat
    then (RESOURCE_EXHAUSTED, kvs)
    else (OK, <[key := value]> kvs);
  kvs_Delete := λ kvs key,
    if rejects key then (INVALID_ARGUMENT, kvs)
    else if bool_decide (kvs !! key = None) then (NOT_FOUND, kvs)
    else (OK, delete key kvs);
  kvs_size := size;
  kvs_max_size := λ _, capacity;
  kvs_items := λ kvs,
    (λ entry, mkItem entry.1 (copy_to entry.2)) <$> map_to_list kvs
|}.

(** A new tester on such a store, and a tester whose map has a value
    with a NUL character in it, which the store holds too. *)
Definition new_tester : Tester (gmap string string) := mkTester ∅ ∅ ∅ 0 0.

Definition with_NUL : string := "a" +:+ String Ascii.zero "b".

Definition NUL_tester : Tester (gmap string string) :=
  mkTester {["k" := with_NUL]} {["k" := with_NUL]} ∅ 1 0.

End MapTest.


(** * Properties of the fake flash *)

Module FakeFlashProperties.
Import InMemoryFakeFlash.

(** Inversion of a bind that returned. *)
Lemma bind_Returns {A B} (m : outcome A) (k : A → outcome B) (b : B) :
  m ≫= k = Returns b → ∃ a, m = Returns a ∧ k a = Returns b.
Proof. destruct m as [a|]; [eauto | discriminate]. Qed.

Ltac inv_bind H :=
  let a := fresh "a" in
  let Ha := fresh "Ha" in
  apply bind_Returns in H; destruct H as (a & Ha & H).

Lemma size_mod_Returns a b r :
  size_mod a b = Returns r → b ≠ 0 ∧ r = a mod b.
Proof.
  unfold size_mod. destruct (Z.eqb_spec b 0); [discriminate|].
  intros [= <-]. done.
Qed.

Lemma size_div_Returns a b r :
  size_div a b = Returns r → b ≠ 0 ∧ r = a / b.
Proof.
  unfold size_div. destruct (Z.eqb_spec b 0); [discriminate|].
  intros [= <-]. done.
Qed.

Lemma in_buffer_true buffer_ address len :
  in_buffer buffer_ address len = true ↔
  0 <= address ∧ 0 <= len ∧ address + len <= Z.of_nat (length buffer_).
Proof. unfold in_buffer. rewrite !andb_true_iff, !Z.leb_le. tauto. Qed.

Section buffer_updates.
Context (buffer_ buffer' : list byte) (address : Z).

Lemma memcpy_to_length src :
  memcpy_to buffer_ address src = Returns buffer' →
  length buffer' = length buffer_.
Proof.
  unfold memcpy_to. destruct (in_buffer _ _ _) eqn:Hin; [|discriminate].
  apply in_buffer_true in Hin. intros [= <-].
  rewrite !length_app, length_take, length_drop. lia.
Qed.

Lemma memcpy_to_inside src (i : nat) :
  memcpy_to buffer_ address src = Returns buffer' →
  (i < length src)%nat →
  buffer' !! (Z.to_nat address + i)%nat = src !! i.
Proof.
  unfold memcpy_to. destruct (in_buffer _ _ _) eqn:Hin; [|discriminate].
  apply in_buffer_true in Hin. intros [= <-] Hi.
  rewrite lookup_app_r; rewrite length_take; [|lia].
  replace (_ + i - _)%nat with i by lia.
  by rewrite lookup_app_l.
Qed.

Lemma memcpy_to_outside src (i : nat) :
  memcpy_to buffer_ address src = Returns buffer' →
  ¬ (Z.to_nat address <= i < Z.to_nat address + length src)%nat →
  buffer' !! i = buffer_ !! i.
Proof.
  unfold memcpy_to. destruct (in_buffer _ _ _) eqn:Hin; [|discriminate].
  apply in_buffer_true in Hin. intros [= <-] Hi.
  destruct (decide (i < Z.to_nat address)%nat) as [Hlt|Hge].
  - rewrite lookup_app_l by (rewrite length_take; lia).
    by rewrite lookup_take_lt.
  - rewrite lookup_app_r; rewrite length_take; [|lia].
    rewrite lookup_app_r by lia.
    rewrite lookup_drop. f_equal. lia.
Qed.

Lemma memset_length value len :
  memset buffer_ address value len = Returns buffer' →
  length buffer' = length buffer_.
Proof.
  unfold memset. destruct (in_buffer _ _ _) eqn:Hin; [|discriminate].
  apply in_buffer_true in Hin. intros [= <-].
  rewrite !length_app, length_take, length_replicate, length_drop. lia.
Qed.

Lemma memset_inside value len (i : Z) :
  memset buffer_ address value len = Returns buffer' →
  address <= i < address + len →
  buffer' !! Z.to_nat i = Some value.
Proof.
  unfold memset. destruct (in_buffer _ _ _) eqn:Hin; [|discriminate].
  apply in_buffer_true in Hin. intros [= <-] Hi.
  rewrite lookup_app_r; rewrite length_take; [|lia].
  rewrite lookup_app_l by (rewrite length_replicate; lia).
  apply lookup_replicate_2. lia.
Qed.
End buffer_updates.

Lemma memset_outside buffer_ buffer' address value len (i : nat) :
  memset buffer_ address value len = Returns buffer' →
  ¬ (address <= Z.of_nat i < address + len) →
  buffer' !! i = buffer_ !! i.
Proof.
  unfold memset. destruct (in_buffer _ _ _) eqn:Hin; [|discriminate].
  apply in_buffer_true in Hin. intros [= <-] Hi.
  destruct (decide (i < Z.to_nat address)%nat) as [Hlt|Hge].
  - rewrite lookup_app_l by (rewrite length_take; lia).
    by rewrite lookup_take_lt.
  - rewrite lookup_app_r; rewrite length_take; [|lia].
    rewrite lookup_app_r; rewrite length_replicate; [|lia].
    rewrite lookup_drop. f_equal. lia.
Qed.

Lemma load_Returns buffer_ index b :
  load buffer_ index = Returns b ↔
  0 <= index ∧ buffer_ !! Z.to_nat index = Some b.
Proof.
  unfold load. destruct (Z.leb_spec 0 index) as [Hge|Hlt].
  - destruct (buffer_ !! Z.to_nat index) as [b'|]; split.
    + by intros [= ->].
    + by intros [_ [= ->]].
    + discriminate.
    + by intros [_ ?].
  - split; [discriminate | lia].
Qed.

Lemma to_uint32_small x : 0 <= x < 2 ^ 32 → to_uint32 x = x.
Proof. intros. unfold to_uint32. by apply Z.mod_small. Qed.

Lemma to_size_t_small x : is_size_t x → to_size_t x = x.
Proof. intros. unfold to_size_t. by apply Z.mod_small. Qed.

Lemma to_size_t_range x : is_size_t (to_size_t x).
Proof. unfold to_size_t, is_size_t, size_t_bits. apply Z.mod_pos_bound. lia. Qed.

(** When the loop runs to its end, every byte it looked at was [0xFF]. *)
Lemma check_erased_true buffer_ address i remaining :
  check_erased buffer_ address i remaining = Returns true →
  ∀ j : nat, (j < remaining)%nat →
    load buffer_ (to_uint32 (address + i + Z.of_nat j)) = Returns kErasedByte.
Proof.
  revert i. induction remaining as [|n IH]; intros i H j Hj; [lia|].
  simpl in H. destruct (2 ^ 32 <=? i); [discriminate|].
  inv_bind H. destruct (Byte.eqb a kErasedByte) eqn:Hb; [|discriminate].
  apply byte_dec_bl in Hb. subst a.
  destruct j as [|j].
  - by rewrite Z.add_0_r.
  - specialize (IH _ H j ltac:(lia)).
    by replace (address + i + Z.of_nat (S j))
      with (address + (i + 1) + Z.of_nat j) by lia.
Qed.

(** The loop returns as long as the bytes it looks at lie in [buffer_]. *)
Lemma check_erased_returns buffer_ address i remaining :
  0 <= address → 0 <= i →
  address + i + Z.of_nat remaining <= Z.of_nat (length buffer_) →
  wf_buffer buffer_ →
  returns (check_erased buffer_ address i remaining).
Proof.
  unfold wf_buffer. revert i.
  induction remaining as [|n IH]; intros i Ha Hi Hlen Hwf; [by eexists|].
  simpl. destruct (Z.leb_spec (2 ^ 32) i); [lia|].
  rewrite to_uint32_small by lia.
  destruct (lookup_lt_is_Some_2 buffer_ (Z.to_nat (address + i)))
    as [b Hb]; [lia|].
  pose proof (proj2 (load_Returns buffer_ (address + i) b)) as ->; [|split; [lia|done]].
  simpl. destruct (Byte.eqb b kErasedByte); [|by eexists].
  apply IH; lia.
Qed.

Lemma Erase_length fm buffer_ address num_sectors st buffer' :
  Erase fm buffer_ address num_sectors = Returns (st, buffer') →
  length buffer' = length buffer_.
Proof.
  unfold Erase. intros H. inv_bind H.
  destruct (negb (a =? 0)); [by injection H as _ <-|].
  inv_bind H.
  destruct (_ <? _); [by injection H as _ <-|].
  inv_bind H.
  destruct (negb (a1 =? 0)); [by injection H as _ <-|].
  inv_bind H. injection H as _ <-. eauto using memset_length.
Qed.

Lemma Write_length fm buffer_ address data r buffer' :
  Write fm buffer_ address data = Returns (r, buffer') →
  length buffer' = length buffer_.
Proof.
  unfold Write. intros H. inv_bind H.
  destruct a; [by injection H as _ <-|].
  inv_bind H.
  destruct (negb a); [by injection H as _ <-|].
  inv_bind H. injection H as _ <-. eauto using memcpy_to_length.
Qed.

Lemma call_length fm buffer_ c st buffer' :
  call fm buffer_ c = Returns (st, buffer') →
  length buffer' = length buffer_.
Proof.
  destruct c as [address n|address output|address data]; simpl; intros H.
  - eauto using Erase_length.
  - inv_bind H. by injection H as _ <-.
  - inv_bind H. destruct a as [r b]. injection H as _ <-.
    eauto using Write_length.
Qed.

Lemma run_length fm cs : ∀ buffer_ buffer',
  run fm buffer_ cs = Returns buffer' → length buffer' = length buffer_.
Proof.
  induction cs as [|c cs IH]; simpl; intros buffer_ buffer' H.
  - by injection H as <-.
  - inv_bind H. destruct a as [st b]. simpl in H.
    rewrite (IH _ _ H). eauto using call_length.
Qed.

(** What a [Write] that returned did, case by case. *)
Lemma Write_Returns fm buffer_ address data r buffer' :
  Write fm buffer_ address data = Returns (r, buffer') →
  let len := Z.of_nat (length data) in
  (write_rejected fm address len = Returns true ∧
   r = of_status INVALID_ARGUMENT ∧ buffer' = buffer_) ∨
  (write_rejected fm address len = Returns false ∧
   check_erased buffer_ address 0 (length data) = Returns false ∧
   r = of_status UNKNOWN ∧ buffer' = buffer_) ∨
  (write_rejected fm address len = Returns false ∧
   check_erased buffer_ address 0 (length data) = Returns true ∧
   r = of_size len ∧ memcpy_to buffer_ address data = Returns buffer').
Proof.
  unfold Write. cbv zeta. intros H. inv_bind H.
  destruct a; [injection H as <- <-; by left|].
  inv_bind H. destruct a; simpl in H.
  - inv_bind H. injection H as <- <-. right; right. done.
  - injection H as <- <-. right; left. done.
Qed.

(** [Write] returns whenever its target lies in [buffer_] and the
    alignment is not zero. *)
Lemma Write_returns fm buffer_ address data :
  wf_buffer buffer_ → alignment_bytes fm ≠ 0 →
  in_buffer buffer_ address (Z.of_nat (length data)) = true →
  returns (Write fm buffer_ address data).
Proof.
  intros Hwf Hal Hin. unfold Write, write_rejected, size_mod.
  destruct (past_end _ _ _); [by eexists|].
  destruct (Z.eqb_spec (alignment_bytes fm) 0); [done|]. simpl.
  destruct (negb (_ =? 0)); simpl; [by eexists|].
  destruct (negb (_ =? 0)); simpl; [by eexists|].
  pose proof Hin as Hin'. apply in_buffer_true in Hin' as (? & ? & ?).
  destruct (check_erased_returns buffer_ address 0 (length data))
    as [erased ->]; [lia..|done|]. simpl.
  destruct erased; simpl; [|by eexists].
  unfold memcpy_to. rewrite Hin. by eexists.
Qed.

(** A written byte in the target makes the loop stop with [false]. *)
Lemma check_erased_written buffer_ address (len : nat) r :
  wf_buffer buffer_ →
  target_written buffer_ address (Z.of_nat len) →
  check_erased buffer_ address 0 len = Returns r → r = false.
Proof.
  intros Hwf (i & b & Ha & Hi & Hb & Hne) H.
  destruct r; [|done]. exfalso.
  pose proof (check_erased_true _ _ _ _ H (Z.to_nat i) ltac:(lia)) as Hl.
  apply lookup_lt_Some in Hb as Hlt. unfold wf_buffer in Hwf.
  rewrite to_uint32_small in Hl by lia.
  apply load_Returns in Hl as [_ Hl].
  replace (address + 0 + Z.of_nat (Z.to_nat i)) with (address + i) in Hl by lia.
  congruence.
Qed.

(** A written byte in the target makes the loop end, with [false]: it
    stops at the first byte that is not [0xFF], and every byte it looks at
    before lies in [buffer_]. *)
Lemma check_erased_stops buffer_ address (remaining : nat) : ∀ i,
  wf_buffer buffer_ → 0 <= address → 0 <= i →
  (∃ (j : nat) (b : byte), (j < remaining)%nat ∧
     buffer_ !! Z.to_nat (address + i + Z.of_nat j) = Some b ∧
     b ≠ kErasedByte) →
  check_erased buffer_ address i remaining = Returns false.
Proof.
  unfold wf_buffer.
  induction remaining as [|n IH]; intros i Hwf Ha Hi (j & b & Hj & Hb & Hne);
    [lia|].
  simpl. apply lookup_lt_Some in Hb as Hlt.
  destruct (Z.leb_spec (2 ^ 32) i); [lia|].
  rewrite to_uint32_small by lia.
  destruct (lookup_lt_is_Some_2 buffer_ (Z.to_nat (address + i)))
    as [b0 Hb0]; [lia|].
  pose proof (proj2 (load_Returns buffer_ (address + i) b0)) as ->;
    [|split; [lia|done]].
  simpl. destruct (Byte.eqb b0 kErasedByte) eqn:He; [|done].
  apply byte_dec_bl in He. subst b0.
  destruct j as [|j].
  - rewrite Z.add_0_r in Hb. congruence.
  - apply IH; [done|lia|lia|]. exists j, b. split; [lia|]. split; [|done].
    by replace (address + (i + 1) + Z.of_nat j)
      with (address + i + Z.of_nat (S j)) by lia.
Qed.

(** With an alignment that is not zero the first [if] of [Write] is
    decided. *)
Lemma write_rejected_returns fm address len :
  alignment_bytes fm ≠ 0 →
  write_rejected fm address len = Returns true ∨
  write_rejected fm address len = Returns false.
Proof.
  intros Hal. unfold write_rejected, size_mod.
  destruct (past_end _ _ _); [by left|].
  destruct (Z.eqb_spec (alignment_bytes fm) 0); [done|]. simpl.
  destruct (negb (_ =? 0)); simpl; [by left|].
  destruct (negb (_ =? 0)); [by left|by right].
Qed.

(** C2, as amended: in every state the fake flash can reach, on a device
    whose alignment is not zero, a [Write] changes no byte that is not
    [0xFF]; a [Write] whose target holds such a byte does return, writes
    nothing and reports an error, [INVALID_ARGUMENT] when the
    bounds-and-alignment check rejects the call and [UNKNOWN] otherwise.
    A [Write] also returns whenever its target lies in [buffer_]. *)
Theorem Write_keeps_written_bytes fm buffer0 cs buffer_ address data :
  wf_buffer buffer0 →
  alignment_bytes fm ≠ 0 →
  run fm buffer0 cs = Returns buffer_ →
  let len := Z.of_nat (length data) in
  (∀ r buffer', Write fm buffer_ address data = Returns (r, buffer') →
     ∀ (i : nat) (b : byte),
       buffer_ !! i = Some b → b ≠ kErasedByte → buffer' !! i = Some b) ∧
  (target_written buffer_ address len →
     write_rejected fm address len = Returns true ∧
     Write fm buffer_ address data
       = Returns (of_status INVALID_ARGUMENT, buffer_) ∨
     write_rejected fm address len = Returns false ∧
     Write fm buffer_ address data = Returns (of_status UNKNOWN, buffer_)) ∧
  (in_buffer buffer_ address len = true →
     returns (Write fm buffer_ address data)).
Proof.
  intros Hwf0 Hal Hrun. cbv zeta.
  assert (Hwf : wf_buffer buffer_).
  { unfold wf_buffer in *. by rewrite (run_length _ _ _ _ Hrun). }
  split; [|split].
  - intros r buffer' HW i b Hb Hne.
    apply Write_Returns in HW. cbv zeta in HW.
    destruct HW as [(_ & _ & ->)|[(_ & _ & _ & ->)|(_ & Hchk & _ & Hcpy)]];
      [done|done|].
    destruct (decide (Z.to_nat address <= i
                      < Z.to_nat address + length data)%nat) as [Hin|Hout].
    + exfalso. unfold memcpy_to in Hcpy.
      destruct (in_buffer _ _ _) eqn:Hib; [|discriminate].
      apply in_buffer_true in Hib. unfold wf_buffer in Hwf.
      pose proof (check_erased_true _ _ _ _ Hchk (i - Z.to_nat address)%nat
                    ltac:(lia)) as Hl.
      rewrite to_uint32_small in Hl by lia.
      apply load_Returns in Hl as [_ Hl].
      replace (Z.to_nat _) with i in Hl by lia. congruence.
    + by rewrite (memcpy_to_outside _ _ _ _ _ Hcpy Hout).
  - intros (i & b & Ha & Hi & Hb & Hne). unfold Write.
    destruct (write_rejected_returns fm address (Z.of_nat (length data)) Hal)
      as [Hrej|Hrej]; rewrite Hrej; simpl; [by left|right].
    split; [done|].
    rewrite (check_erased_stops buffer_ address (length data) 0); [done..|].
    exists (Z.to_nat i), b. split; [lia|]. split; [|done].
    by replace (address + 0 + Z.of_nat (Z.to_nat i)) with (address + i) by lia.
  - intros Hin. by apply Write_returns.
Qed.

(** A state reached by an erase and a write of one byte, and a second
    write over the written byte: it returns [UNKNOWN] and changes
    nothing. *)
Lemma Write_keeps_written_bytes_witness :
  let fm := mkFlashMemory 4 1 1 4 in
  let buffer_ := [x00; xff; xff; xff] in
  run fm (replicate 4 x00) [CallErase 0 1; CallWrite 0 [x00]]
    = Returns buffer_ ∧
  target_written buffer_ 0 2 ∧
  (write_rejected fm 0 2 = Returns true ∧
   Write fm buffer_ 0 [x01; x02]
     = Returns (of_status INVALID_ARGUMENT, buffer_) ∨
   write_rejected fm 0 2 = Returns false ∧
   Write fm buffer_ 0 [x01; x02] = Returns (of_status UNKNOWN, buffer_)) ∧
  write_rejected fm 0 2 = Returns false ∧
  returns (Write fm buffer_ 0 [x01; x02]).
Proof.
  intros fm buffer_.
  assert (Hwf : wf_buffer (replicate 4 x00)) by (unfold wf_buffer; simpl; lia).
  assert (Hal : alignment_bytes fm ≠ 0) by (simpl; lia).
  assert (Htw : target_written buffer_ 0 2).
  { exists 0, x00. repeat split; try lia; try reflexivity. discriminate. }
  destruct (Write_keeps_written_bytes fm (replicate 4 x00)
              [CallErase 0 1; CallWrite 0 [x00]] buffer_ 0 [x01; x02]
              Hwf Hal eq_refl) as (_ & Hwritten & Hreturns).
  split; [reflexivity|]. split; [exact Htw|]. split; [exact (Hwritten Htw)|].
  split; [reflexivity|]. apply Hreturns. reflexivity.
Defined.

(** C2, as stated, fails: with 16-byte alignment, a write of 16 bytes to
    address 8 of a buffer of zero bytes targets written bytes only, and
    returns [INVALID_ARGUMENT], not [UNKNOWN]. *)
Lemma Write_over_written_bytes_not_Unknown :
  let fm := mkFlashMemory 32 1 16 32 in
  let buffer_ := replicate 32 x00 in
  run fm buffer_ [] = Returns buffer_ ∧
  target_written buffer_ 8 16 ∧
  Write fm buffer_ 8 (replicate 16 x00)
    = Returns (of_status INVALID_ARGUMENT, buffer_) ∧
  ¬ ∃ r buffer', Write fm buffer_ 8 (replicate 16 x00) = Returns (r, buffer')
                 ∧ status r = UNKNOWN.
Proof.
  intros fm buffer_. split; [reflexivity|]. split; [|split].
  - exists 0, x00. repeat split; try lia; try reflexivity. discriminate.
  - reflexivity.
  - intros (r & b' & H & Hr).
    assert (H' : Write fm buffer_ 8 (replicate 16 x00)
                 = Returns (of_status INVALID_ARGUMENT, buffer_)) by reflexivity.
    rewrite H' in H. injection H as <- _. discriminate.
Qed.

(** What an [Erase] that returned did, case by case. *)
Lemma Erase_Returns fm buffer_ address num_sectors st buffer' :
  Erase fm buffer_ address num_sectors = Returns (st, buffer') →
  sector_size_bytes fm ≠ 0 ∧
  ((address mod sector_size_bytes fm ≠ 0 ∧
    st = INVALID_ARGUMENT ∧ buffer' = buffer_) ∨
   (address mod sector_size_bytes fm = 0 ∧
    sector_count fm
      < to_size_t (address / sector_size_bytes fm + num_sectors) ∧
    st = UNKNOWN ∧ buffer' = buffer_) ∨
   (address mod sector_size_bytes fm = 0 ∧
    to_size_t (address / sector_size_bytes fm + num_sectors)
      <= sector_count fm ∧
    alignment_bytes fm ≠ 0 ∧ address mod alignment_bytes fm ≠ 0 ∧
    st = INVALID_ARGUMENT ∧ buffer' = buffer_) ∨
   (address mod sector_size_bytes fm = 0 ∧
    to_size_t (address / sector_size_bytes fm + num_sectors)
      <= sector_count fm ∧
    alignment_bytes fm ≠ 0 ∧ address mod alignment_bytes fm = 0 ∧
    st = OK ∧
    memset buffer_ address kErasedByte
      (to_size_t (sector_size_bytes fm * num_sectors)) = Returns buffer')).
Proof.
  unfold Erase. intros H. inv_bind H.
  apply size_mod_Returns in Ha as [Hss ->]. split; [done|].
  destruct (Z.eqb_spec (address mod sector_size_bytes fm) 0) as [Hm|Hm];
    simpl in H; [|injection H as <- <-; by left].
  inv_bind H. apply size_div_Returns in Ha as [_ ->].
  destruct (Z.ltb_spec (sector_count fm)
              (to_size_t (address / sector_size_bytes fm + num_sectors)));
    [injection H as <- <-; right; by left|].
  inv_bind H. apply size_mod_Returns in Ha as [Hal ->].
  destruct (Z.eqb_spec (address mod alignment_bytes fm) 0) as [Hm'|Hm'];
    simpl in H; [|injection H as <- <-; right; right; by left].
  inv_bind H. injection H as <- <-. right; right; right. done.
Qed.

(** C9: a call that fails, whatever the status, leaves [buffer_] as it
    was: every check comes before the first byte is changed. *)
Theorem failed_call_keeps_buffer fm buffer_ c st buffer' :
  call fm buffer_ c = Returns (st, buffer') →
  st ≠ OK →
  buffer' = buffer_.
Proof.
  destruct c as [address n|address output|address data]; simpl; intros H Hst.
  - apply Erase_Returns in H as [_ H].
    destruct H as [(_ & _ & ->)|[(_ & _ & _ & ->)|[(_ & _ & _ & _ & _ & ->)|H]]];
      try done.
    by destruct H as (_ & _ & _ & _ & -> & _).
  - inv_bind H. by injection H as _ <-.
  - inv_bind H. destruct a as [r b]. injection H as <- <-.
    apply Write_Returns in Ha.
    destruct Ha as [(_ & _ & ->)|[(_ & _ & _ & ->)|(_ & _ & -> & _)]]; done.
Qed.

(** A write over written bytes and an erase past the last sector. *)
Lemma failed_call_keeps_buffer_witness :
  let fm := mkFlashMemory 4 2 1 8 in
  let buffer_ := [x00; x01; xff; xff; xff; xff; xff; xff] in
  call fm buffer_ (CallWrite 0 [x07; x07]) = Returns (UNKNOWN, buffer_) ∧
  call fm buffer_ (CallErase 4 2) = Returns (UNKNOWN, buffer_) ∧
  buffer_ = buffer_.
Proof.
  intros fm buffer_. split; [reflexivity|]. split; [reflexivity|].
  apply (failed_call_keeps_buffer fm buffer_ (CallWrite 0 [x07; x07])
           UNKNOWN buffer_); [reflexivity | discriminate].
Defined.

(** The outcomes of [Read]: [INVALID_ARGUMENT] when its bounds check
    rejects the call; [OK] with the [|output|] bytes found at [address]
    when the check passes and they lie in [buffer_]; and no return at all
    when the check passes and they do not.  What it returns is never
    [UNKNOWN], and the alignment plays no part. *)
Lemma Read_never_Unknown fm buffer_ address output :
  let len := Z.of_nat (length output) in
  (past_end fm address len = true ∧
   Read fm buffer_ address output
     = Returns (of_status INVALID_ARGUMENT, output) ∨
   past_end fm address len = false ∧
   in_buffer buffer_ address len = true ∧
   (∃ copied,
      Read fm buffer_ address output = Returns (of_status OK, copied) ∧
      length copied = length output ∧
      ∀ i : nat, (i < length output)%nat →
        copied !! i = buffer_ !! (Z.to_nat address + i)%nat) ∨
   past_end fm address len = false ∧
   in_buffer buffer_ address len = false ∧
   Read fm buffer_ address output = Undefined) ∧
  (∀ r output', Read fm buffer_ address output = Returns (r, output') →
     status r = INVALID_ARGUMENT ∨ status r = OK) ∧
  (∀ alignment,
     Read (mkFlashMemory (sector_size_bytes fm) (sector_count fm) alignment
             (size_bytes fm)) buffer_ address output
     = Read fm buffer_ address output).
Proof.
  cbv zeta. split; [|split].
  - unfold Read. destruct (past_end _ _ _); [by left|right].
    unfold memcpy_from.
    destruct (in_buffer _ _ _) eqn:Hin; [left|by right].
    split; [done|]. split; [done|]. eexists. split; [done|].
    apply in_buffer_true in Hin. split.
    + rewrite length_take, length_drop. lia.
    + intros i Hi. rewrite lookup_take_lt by lia. by rewrite lookup_drop.
  - unfold Read. intros r output'. destruct (past_end _ _ _).
    + intros [= <- _]. by left.
    + intros H. inv_bind H. injection H as <- _. by right.
  - reflexivity.
Qed.

(** The two places where [Erase] computes on [size_t] do not wrap when the
    call succeeds. *)
Lemma Erase_OK_no_wrap fm buffer_ address num_sectors :
  wf_FlashMemory fm → wf_buffer buffer_ →
  is_uint32 address → is_size_t num_sectors →
  let ss := sector_size_bytes fm in
  ss ≠ 0 → address mod ss = 0 →
  to_size_t (address / ss + num_sectors) <= sector_count fm →
  in_buffer buffer_ address (to_size_t (ss * num_sectors)) = true →
  address / ss + num_sectors <= sector_count fm ∧
  to_size_t (ss * num_sectors) = num_sectors * ss.
Proof.
  intros (Hss & Hsc & _ & _) Hwf Ha Hn ss Hnz Hmod Hle Hin.
  unfold is_uint32, is_size_t, wf_buffer, size_t_bits in *. fold ss in Hss.
  apply in_buffer_true in Hin as (_ & _ & Hin).
  assert (Hq : address = ss * (address / ss))
    by (apply Z.div_exact; [done|exact Hmod]).
  assert (0 <= address / ss) by (apply Z.div_pos; lia).
  unfold to_size_t, size_t_bits in *.
  destruct (Z.lt_ge_cases (address / ss + num_sectors) (2 ^ 64)) as [Hlt|Hge].
  - rewrite Z.mod_small in Hle by lia. split; [done|].
    rewrite Z.mod_small; [lia|]. split; [nia|].
    assert (ss * num_sectors <= (2 ^ 32) * (2 ^ 16)) by nia. lia.
  - exfalso. set (k := 2 ^ 64 - num_sectors) in *.
    assert (Hk : 1 <= k <= address / ss) by (unfold k; lia).
    assert (Hsk : 0 < ss * k <= address) by nia.
    replace (ss * num_sectors) with (- (ss * k) + ss * 2 ^ 64) in Hin
      by (unfold k; lia).
    rewrite Z.mod_add in Hin by lia.
    rewrite <- (Z.mod_unique (- (ss * k)) (2 ^ 64) (-1) (2 ^ 64 - ss * k))
      in Hin; lia.
Qed.

(** C5: [Erase] fails with [INVALID_ARGUMENT] when [address] is not a
    multiple of the sector size; when it succeeds the sectors erased end
    within the device and every byte of them is [0xFF], the others being
    left alone; and it does succeed on an aligned range of sectors of the
    device. *)
Theorem Erase_resets_sectors fm buffer_ address num_sectors :
  wf_FlashMemory fm → wf_buffer buffer_ →
  is_uint32 address → is_size_t num_sectors →
  let ss := sector_size_bytes fm in
  (ss ≠ 0 → address mod ss ≠ 0 →
   Erase fm buffer_ address num_sectors
     = Returns (INVALID_ARGUMENT, buffer_)) ∧
  (∀ buffer', Erase fm buffer_ address num_sectors = Returns (OK, buffer') →
     address mod ss = 0 ∧
     address + num_sectors * ss <= sector_count fm * ss ∧
     length buffer' = length buffer_ ∧
     (∀ i : Z, address <= i < address + num_sectors * ss →
        buffer' !! Z.to_nat i = Some kErasedByte) ∧
     (∀ i : nat, ¬ address <= Z.of_nat i < address + num_sectors * ss →
        buffer' !! i = buffer_ !! i)) ∧
  (ss ≠ 0 → address mod ss = 0 →
   alignment_bytes fm ≠ 0 → address mod alignment_bytes fm = 0 →
   address / ss + num_sectors <= sector_count fm →
   address + num_sectors * ss <= Z.of_nat (length buffer_) →
   ∃ buffer', Erase fm buffer_ address num_sectors = Returns (OK, buffer')).
Proof.
  intros Hfm Hwf Ha Hn ss. split; [|split].
  - intros Hnz Hmod. unfold Erase, size_mod. fold ss.
    destruct (Z.eqb_spec ss 0); [done|]. simpl.
    by destruct (Z.eqb_spec (address mod ss) 0).
  - intros buffer' H. apply Erase_Returns in H as [Hnz H]. fold ss in Hnz, H.
    destruct H as [(_ & [=] & _)|[(_ & _ & [=] & _)|[(_ & _ & _ & _ & [=] & _)|H]]].
    destruct H as (Hmod & Hle & Hal & Hmod' & _ & Hset).
    assert (Hin : in_buffer buffer_ address (to_size_t (ss * num_sectors)) = true).
    { unfold memset in Hset. by destruct (in_buffer _ _ _). }
    destruct (Erase_OK_no_wrap fm buffer_ address num_sectors
                Hfm Hwf Ha Hn Hnz Hmod Hle Hin) as [Hle' Hlen].
    fold ss in Hle', Hlen. rewrite Hlen in Hset.
    assert (Hq : address = ss * (address / ss))
      by (apply Z.div_exact; [done|exact Hmod]).
    destruct Hfm as (Hss & _). unfold is_uint32 in Hss. fold ss in Hss.
    repeat split.
    + done.
    + nia.
    + eauto using memset_length.
    + intros i Hi. eauto using memset_inside.
    + intros i Hi. eauto using memset_outside.
  - intros Hnz Hmod Hal Hmod' Hle Hlen.
    destruct Hfm as (Hss & Hsc & _ & _).
    unfold is_uint32, is_size_t, size_t_bits in *. fold ss in Hss.
    assert (0 <= address / ss) by (apply Z.div_pos; lia).
    unfold Erase, size_mod, size_div. fold ss.
    destruct (Z.eqb_spec ss 0); [done|]. simpl.
    rewrite Hmod. simpl.
    rewrite to_size_t_small
      by (unfold is_size_t, size_t_bits; lia).
    destruct (Z.ltb_spec (sector_count fm) (address / ss + num_sectors));
      [lia|].
    destruct (Z.eqb_spec (alignment_bytes fm) 0); [done|]. simpl.
    rewrite Hmod'. simpl.
    rewrite to_size_t_small
      by (unfold is_size_t, size_t_bits; split; [nia|];
          assert (ss * num_sectors <= 2 ^ 32 * 2 ^ 16) by nia; lia).
    unfold memset.
    pose proof (proj2 (in_buffer_true buffer_ address (ss * num_sectors))) as ->;
      [by eexists|].
    split; [lia|]. split; [nia|lia].
Qed.

(** The second of three 4-byte sectors, erased. *)
Lemma Erase_resets_sectors_witness :
  let fm := mkFlashMemory 4 3 2 12 in
  let buffer_ := replicate 12 x00 in
  Erase fm buffer_ 4 1
    = Returns (OK, replicate 4 x00 ++ replicate 4 xff ++ replicate 4 x00) ∧
  Erase fm buffer_ 5 1 = Returns (INVALID_ARGUMENT, buffer_) ∧
  ∃ buffer', Erase fm buffer_ 4 1 = Returns (OK, buffer').
Proof.
  intros fm buffer_.
  assert (Hfm : wf_FlashMemory fm)
    by (unfold wf_FlashMemory, is_uint32, is_size_t, size_t_bits; simpl; lia).
  assert (Hwf : wf_buffer buffer_) by (unfold wf_buffer; simpl; lia).
  assert (Ha : is_uint32 4) by (unfold is_uint32; lia).
  assert (Ha' : is_uint32 5) by (unfold is_uint32; lia).
  assert (Hn : is_size_t 1) by (unfold is_size_t, size_t_bits; lia).
  split; [reflexivity|]. split.
  - by apply (proj1 (Erase_resets_sectors fm buffer_ 5 1 Hfm Hwf Ha' Hn));
      vm_compute.
  - by apply (proj2 (proj2 (Erase_resets_sectors fm buffer_ 4 1 Hfm Hwf Ha Hn)));
      vm_compute.
Defined.

(** Any read or write that ends exactly where the device ends is
    rejected, whatever the device. *)
Lemma past_end_at_end fm address len :
  is_size_t (sector_count fm * size_bytes fm) →
  address + len = sector_count fm * size_bytes fm →
  past_end fm address len = true.
Proof.
  intros Hs He. unfold past_end. rewrite He. apply Z.leb_le. lia.
Qed.

Lemma Read_at_end_rejected fm buffer_ address output :
  is_size_t (sector_count fm * size_bytes fm) →
  address + Z.of_nat (length output) = sector_count fm * size_bytes fm →
  Read fm buffer_ address output = Returns (of_status INVALID_ARGUMENT, output).
Proof. intros Hs He. unfold Read. by rewrite past_end_at_end. Qed.

Lemma Write_at_end_rejected fm buffer_ address data :
  is_size_t (sector_count fm * size_bytes fm) →
  address + Z.of_nat (length data) = sector_count fm * size_bytes fm →
  Write fm buffer_ address data
  = Returns (of_status INVALID_ARGUMENT, buffer_).
Proof.
  intros Hs He. unfold Write, write_rejected. by rewrite past_end_at_end.
Qed.

(** C10, at the input where the code departs from it: a device of two
    16-byte sectors, [size_bytes()] being the 32 bytes that [buffer_]
    holds.  The bound that [Read] tests against is
    [sector_count() * size_bytes()], 64: a read of one byte at address 48
    passes the test and copies from outside [buffer_], so that it returns
    neither [INVALID_ARGUMENT] nor [OK] with a byte of [buffer_]. *)
Theorem Read_past_buffer_accepted :
  let fm := mkFlashMemory 16 2 1 32 in
  let buffer_ := replicate 32 kErasedByte in
  size_bytes fm = sector_count fm * sector_size_bytes fm ∧
  Z.of_nat (length buffer_) = sector_count fm * sector_size_bytes fm ∧
  Z.of_nat (length buffer_) < 48 + 1 ∧
  past_end fm 48 1 = false ∧
  in_buffer buffer_ 48 1 = false ∧
  Read fm buffer_ 48 [x00] = Undefined ∧
  ¬ returns (Read fm buffer_ 48 [x00]).
Proof.
  intros fm buffer_.
  split; [reflexivity|]. split; [reflexivity|]. split; [simpl; lia|].
  split; [reflexivity|]. split; [reflexivity|]. split; [reflexivity|].
  intros [r Hr]. discriminate Hr.
Qed.

(** C3, at the input where the code departs from it: on a device of one
    16-byte sector the read of the last byte, and the read of all 16
    bytes, end at the end of the device and are rejected; a read that
    stops one byte short succeeds. *)
Theorem Read_up_to_end_rejected :
  let fm := mkFlashMemory 16 1 1 16 in
  let buffer_ := replicate 16 kErasedByte in
  sector_count fm * size_bytes fm = Z.of_nat (length buffer_) ∧
  Read fm buffer_ 15 [x00] = Returns (of_status INVALID_ARGUMENT, [x00]) ∧
  Read fm buffer_ 0 (replicate 16 x00)
    = Returns (of_status INVALID_ARGUMENT, replicate 16 x00) ∧
  Read fm buffer_ 14 [x00] = Returns (of_status OK, [kErasedByte]).
Proof.
  intros fm buffer_.
  split; [reflexivity|]. split; [reflexivity|]. split; reflexivity.
Qed.

(** C4, at the input where the code departs from it: on an erased device
    of one 16-byte sector with 16-byte alignment, the write of the whole
    sector is aligned, targets erased bytes only and lies within the
    device, and is rejected. *)
Theorem Write_up_to_end_rejected :
  let fm := mkFlashMemory 16 1 16 16 in
  let buffer_ := replicate 16 kErasedByte in
  let data := replicate 16 x00 in
  sector_count fm * size_bytes fm = Z.of_nat (length buffer_) ∧
  0 mod alignment_bytes fm = 0 ∧
  Z.of_nat (length data) mod alignment_bytes fm = 0 ∧
  0 + Z.of_nat (length data) <= Z.of_nat (length buffer_) ∧
  check_erased buffer_ 0 0 (length data) = Returns true ∧
  Write fm buffer_ 0 data = Returns (of_status INVALID_ARGUMENT, buffer_).
Proof.
  intros fm buffer_ data.
  split; [reflexivity|]. split; [reflexivity|]. split; [reflexivity|].
  split; [simpl; lia|]. split; reflexivity.
Qed.

End FakeFlashProperties.

(** * Properties of the key-value store *)

Module KeyValueStoreProperties.
Import KeyValueStore.

Section with_config.
Context (cfg : Config) (Hcfg : wf_Config cfg).

Lemma round_up_spec x : 0 < x →
  let a := alignment cfg in
  x <= round_up x a ∧ round_up x a mod a = 0.
Proof using Hcfg.
  destruct Hcfg as (Ha & _). intros Hx a. fold a in Ha. unfold round_up.
  split.
  - pose proof (Z.div_mod (x + a - 1) a ltac:(lia)).
    pose proof (Z.mod_pos_bound (x + a - 1) a Ha). lia.
  - by apply Z.mod_mul; lia.
Qed.

Lemma entry_size_pos e : 1 <= len (key e) → 0 < entry_size cfg e.
Proof using Hcfg.
  intros Hk. unfold entry_size.
  assert (0 <= len (value e)) by (unfold len; lia).
  destruct Hcfg as (_ & _ & Hh & _).
  pose proof (round_up_spec (header_size cfg + len (key e) + len (value e))
                ltac:(lia)) as [? _]. lia.
Qed.

Lemma entry_size_aligned e :
  1 <= len (key e) → entry_size cfg e mod alignment cfg = 0.
Proof using Hcfg.
  intros Hk. unfold entry_size.
  assert (0 <= len (value e)) by (unfold len; lia).
  destruct Hcfg as (_ & _ & Hh & _).
  by pose proof (round_up_spec (header_size cfg + len (key e) + len (value e))
                ltac:(lia)) as [_ ?].
Qed.

Lemma total_app log log' :
  total cfg (log ++ log') = total cfg log + total cfg log'.
Proof. induction log as [|e log IH]; simpl; [done|]. rewrite IH. lia. Qed.

Lemma total_nonneg log :
  Forall (λ e, 0 < entry_size cfg e) log → 0 <= total cfg log.
Proof. induction 1; simpl; lia. Qed.

Lemma sector_of_base (sector : nat) offset :
  0 <= offset < sector_size cfg →
  sector_of cfg (sector_base cfg sector + offset) = sector.
Proof using Hcfg.
  destruct Hcfg as (_ & Hs & _). intros Ho. unfold sector_of, sector_base.
  rewrite Z.add_comm, Z.div_add by lia.
  rewrite Z.div_small by lia. lia.
Qed.

(** **** The sector table *)

Lemma best_fit_sound allowed n sds i best sector free :
  best_fit cfg allowed n sds i best = Some (sector, free) →
  best = Some (sector, free) ∨
  ∃ sd, sds !! (sector - i)%nat = Some sd ∧ (i ≤ sector)%nat ∧
        free = free_bytes cfg sd ∧ n <= free ∧ allowed sector sd = true.
Proof.
  revert i best. induction sds as [|sd sds IH]; simpl; intros i best H.
  - by left.
  - apply IH in H as [H|(sd' & Hsd' & Hle & -> & Hn & Hal)].
    + destruct (allowed i sd) eqn:Hal; simpl in H; [|by left].
      destruct (Z.leb_spec n (free_bytes cfg sd)); simpl in H; [|by left].
      destruct (match best with Some _ => _ | None => _ end); [|by left].
      injection H as <- <-. right. exists sd.
      rewrite Nat.sub_diag. split_and!; (done || lia).
    + right. exists sd'. split_and!; try (done || lia).
      replace (sector - i)%nat with (S (sector - S i)) by lia. done.
Qed.

Lemma address_in_sound allowed n sds sector a :
  address_in cfg sds (best_fit cfg allowed n sds 0%nat None)
    = Some (sector, a) →
  ∃ sd, sds !! sector = Some sd ∧
        a = sector_base cfg sector + bytes_written sd ∧
        bytes_written sd + n <= sector_size cfg ∧
        allowed sector sd = true.
Proof.
  unfold address_in. intros H.
  destruct (best_fit _ _ _ _ _ _) as [[s free]|] eqn:Hb; [|done].
  simpl in H. injection H as <- <-.
  apply best_fit_sound in Hb as [[=]|(sd & Hsd & _ & -> & Hn & Hal)].
  rewrite Nat.sub_0_r in Hsd. exists sd. unfold free_bytes in *.
  repeat split; [done|lia|lia|done].
Qed.

Lemma allocate_sound sds n sector a :
  allocate cfg sds n = Some (sector, a) →
  ∃ sd, sds !! sector = Some sd ∧
        a = sector_base cfg sector + bytes_written sd ∧
        bytes_written sd + n <= sector_size cfg.
Proof.
  intros H. apply address_in_sound in H as (sd & ? & ? & ? & _). eauto.
Qed.

Lemma allocate_for_gc_sound sds victim n sector a :
  allocate_for_gc cfg sds victim n = Some (sector, a) →
  sector ≠ victim ∧
  ∃ sd, sds !! sector = Some sd ∧
        a = sector_base cfg sector + bytes_written sd ∧
        bytes_written sd + n <= sector_size cfg.
Proof.
  intros H. apply address_in_sound in H as (sd & ? & ? & ? & Hne).
  split; [|eauto].
  apply negb_true_iff in Hne. by apply Nat.eqb_neq in Hne.
Qed.

(** **** The partition *)

Lemma write_cases pt a e r pt' :
  write cfg pt a e = (r, pt') →
  r = OK ∧ pt' = <[a := e]> pt ∨ r ≠ OK ∧ pt' = pt.
Proof.
  unfold write. intros H.
  destruct (_ || _); [injection H as <- <-; by right|].
  destruct (negb _); injection H as <- <-; [by right|by left].
Qed.

(** **** Logs *)

Lemma logs_fit_lookup logs sector log :
  logs_fit cfg logs → logs !! sector = Some log →
  total cfg log <= sector_size cfg ∧ Forall (λ e, 0 < entry_size cfg e) log.
Proof. intros Hf Hl. by apply (Forall_lookup_1 _ _ _ _ Hf Hl). Qed.

(** Where an entry of a log lies within its sector. *)
Lemma split_range logs sector before e after :
  logs_fit cfg logs → logs !! sector = Some (before ++ e :: after) →
  0 <= total cfg before ∧ 0 < entry_size cfg e ∧ 0 <= total cfg after ∧
  total cfg before + entry_size cfg e + total cfg after <= sector_size cfg.
Proof.
  intros Hf Hl. destruct (logs_fit_lookup _ _ _ Hf Hl) as [Ht Hpos].
  rewrite total_app in Ht. simpl in Ht.
  apply Forall_app in Hpos as [Hb Ha]. apply Forall_cons in Ha as [He Ha].
  apply total_nonneg in Hb, Ha. lia.
Qed.

Lemma base_offset_inj (s s' : nat) t t' :
  0 <= t < sector_size cfg → 0 <= t' < sector_size cfg →
  sector_base cfg s + t = sector_base cfg s' + t' → s = s' ∧ t = t'.
Proof using Hcfg.
  intros Ht Ht' Heq.
  assert (s = s') as <-.
  { rewrite <- (sector_of_base s t Ht), <- (sector_of_base s' t' Ht').
    by rewrite Heq. }
  split; [done|lia].
Qed.

(** No entry starts where a log that does not fill its sector ends. *)
Lemma end_of_log_free (pt : gmap Z Entry) logs sector log :
  (∀ a e, pt !! a = Some e ↔ placed cfg logs a e) →
  logs_fit cfg logs → logs !! sector = Some log →
  total cfg log < sector_size cfg →
  pt !! (sector_base cfg sector + total cfg log) = None.
Proof using Hcfg.
  intros Hpt Hf Hl Hlt.
  destruct (pt !! _) as [e|] eqn:He; [exfalso|done].
  apply Hpt in He as (s & before & after & Hl' & Heq).
  pose proof (split_range _ _ _ _ _ Hf Hl') as (? & ? & ? & ?).
  destruct (logs_fit_lookup _ _ _ Hf Hl) as [_ Hpos].
  apply total_nonneg in Hpos.
  apply base_offset_inj in Heq as [-> Heq]; [|lia..].
  rewrite Hl in Hl'. injection Hl' as ->.
  rewrite total_app in Heq. simpl in Heq. lia.
Qed.

(** Writing at the end of a log extends it. *)
Lemma placed_extend (pt : gmap Z Entry) logs sector log e :
  (∀ a e', pt !! a = Some e' ↔ placed cfg logs a e') →
  logs_fit cfg logs → logs !! sector = Some log →
  0 < entry_size cfg e →
  total cfg log + entry_size cfg e <= sector_size cfg →
  ∀ a e',
    <[sector_base cfg sector + total cfg log := e]> pt !! a = Some e' ↔
    placed cfg (<[sector := log ++ [e]]> logs) a e'.
Proof using Hcfg.
  intros Hpt Hf Hl He Hle a e'.
  assert (Hlen : (sector < length logs)%nat) by eauto using lookup_lt_Some.
  destruct (logs_fit_lookup _ _ _ Hf Hl) as [_ Hpos].
  pose proof (total_nonneg _ Hpos) as Hnn.
  split.
  - intros H. apply lookup_insert_Some in H as [[<- <-]|[Hne H]].
    + exists sector, log, []. by rewrite list_lookup_insert_eq.
    + apply Hpt in H as (s & before & after & Hl' & ->).
      destruct (decide (s = sector)) as [->|Hs].
      * rewrite Hl in Hl'. injection Hl' as ->.
        exists sector, before, (after ++ [e]).
        rewrite list_lookup_insert_eq by done.
        by rewrite <- app_assoc.
      * exists s, before, after. by rewrite list_lookup_insert_ne.
  - intros (s & before & after & Hl' & ->).
    destruct (decide (s = sector)) as [->|Hs].
    + rewrite list_lookup_insert_eq in Hl' by done. injection Hl' as Heq.
      destruct after as [|x after _] using rev_ind.
      * apply app_inj_tail in Heq as [Hlog He']. subst before e'.
        by rewrite lookup_insert_eq.
      * rewrite app_comm_cons, app_assoc in Heq.
        apply app_inj_tail in Heq as [Hlog _]. subst log.
        pose proof (split_range _ _ _ _ _ Hf Hl) as (? & ? & ? & ?).
        rewrite lookup_insert_ne
          by (rewrite total_app; simpl; lia).
        apply Hpt. by exists sector, before, after.
    + rewrite list_lookup_insert_ne in Hl' by done.
      pose proof (split_range _ _ _ _ _ Hf Hl') as (? & ? & ? & ?).
      rewrite lookup_insert_ne.
      * apply Hpt. by exists s, before, after.
      * intros Heq. apply base_offset_inj in Heq as [? _]; [done|lia..].
Qed.

Lemma logs_fit_extend logs sector log e :
  logs_fit cfg logs → logs !! sector = Some log →
  0 < entry_size cfg e →
  total cfg log + entry_size cfg e <= sector_size cfg →
  logs_fit cfg (<[sector := log ++ [e]]> logs).
Proof.
  intros Hf Hl He Hle. destruct (logs_fit_lookup _ _ _ Hf Hl) as [_ Hpos].
  apply Forall_insert; [done|]. split.
  - rewrite total_app. simpl. lia.
  - apply Forall_app. split; [done|]. by apply Forall_singleton.
Qed.

(** Erasing a sector empties its log. *)
Lemma placed_erase (pt : gmap Z Entry) logs victim :
  (∀ a e, pt !! a = Some e ↔ placed cfg logs a e) →
  logs_fit cfg logs →
  ∀ a e, erase cfg pt victim !! a = Some e ↔
         placed cfg (<[victim := []]> logs) a e.
Proof using Hcfg.
  intros Hpt Hf a e. unfold erase. rewrite map_lookup_filter_Some. simpl.
  split.
  - intros [H Hne]. apply Hpt in H as (s & before & after & Hl & ->).
    pose proof (split_range _ _ _ _ _ Hf Hl) as (? & ? & ? & ?).
    rewrite sector_of_base in Hne by lia.
    exists s, before, after. by rewrite list_lookup_insert_ne.
  - intros (s & before & after & Hl & ->).
    assert (Hs : s ≠ victim).
    { intros ->. destruct (decide (victim < length logs)%nat).
      - rewrite list_lookup_insert_eq in Hl by done.
        by destruct before.
      - apply lookup_lt_Some in Hl. rewrite length_insert in Hl. lia. }
    rewrite list_lookup_insert_ne in Hl by done.
    pose proof (split_range _ _ _ _ _ Hf Hl) as (? & ? & ? & ?).
    split.
    + apply Hpt. by exists s, before, after.
    + by rewrite sector_of_base by lia.
Qed.

(** **** Scanning a sector *)

Lemma length_le_total log :
  Forall (λ e, 0 < entry_size cfg e) log →
  Z.of_nat (length log) <= total cfg log.
Proof. induction 1; simpl; lia. Qed.

Lemma scan_place (pt : gmap Z Entry) logs sector rest : ∀ before fuel,
  (∀ a e, pt !! a = Some e ↔ placed cfg logs a e) →
  logs_fit cfg logs → logs !! sector = Some (before ++ rest) →
  (length rest ≤ fuel)%nat →
  scan cfg pt (sector_base cfg sector + total cfg before)
    (sector_base cfg sector + sector_size cfg) fuel
  = place cfg (sector_base cfg sector + total cfg before) rest.
Proof using Hcfg.
  induction rest as [|e rest IH]; intros before fuel Hpt Hf Hl Hfuel.
  - destruct fuel as [|fuel]; simpl; [done|].
    destruct (Z.leb_spec (sector_base cfg sector + sector_size cfg)
                (sector_base cfg sector + total cfg before)); [done|].
    rewrite app_nil_r in Hl. unfold read.
    by rewrite (end_of_log_free pt logs sector before) by (done || lia).
  - destruct fuel as [|fuel]; simpl in *; [lia|].
    pose proof (split_range _ _ _ _ _ Hf Hl) as (? & ? & ? & ?).
    destruct (Z.leb_spec (sector_base cfg sector + sector_size cfg)
                (sector_base cfg sector + total cfg before)); [lia|].
    unfold read.
    assert (pt !! (sector_base cfg sector + total cfg before) = Some e) as ->.
    { apply Hpt. by exists sector, before, rest. }
    f_equal.
    specialize (IH (before ++ [e]) fuel Hpt Hf).
    rewrite total_app in IH. simpl in IH.
    rewrite Z.add_0_r, Z.add_assoc in IH. apply IH; [|lia].
    by rewrite <- app_assoc.
Qed.

Lemma scan_sector_place (pt : gmap Z Entry) logs sector log :
  (∀ a e, pt !! a = Some e ↔ placed cfg logs a e) →
  logs_fit cfg logs → logs !! sector = Some log →
  scan_sector cfg pt sector = place cfg (sector_base cfg sector) log.
Proof using Hcfg.
  intros Hpt Hf Hl. unfold scan_sector.
  pose proof (scan_place pt logs sector log [] (Z.to_nat (sector_size cfg))
                Hpt Hf Hl) as H.
  simpl in H. rewrite Z.add_0_r in H. apply H.
  destruct (logs_fit_lookup _ _ _ Hf Hl) as [Ht Hpos].
  apply length_le_total in Hpos. lia.
Qed.

Lemma elem_of_place base log a e :
  (a, e) ∈ place cfg base log ↔
  ∃ before after, log = before ++ e :: after ∧ a = base + total cfg before.
Proof.
  revert base. induction log as [|x log IH]; intros base; simpl.
  - split; [by intros ?%elem_of_nil|]. intros (before & ? & ? & _).
    by destruct before.
  - rewrite elem_of_cons, IH. split.
    + intros [[= -> ->]|(before & after & -> & ->)].
      * exists [], log. simpl. split; [done|lia].
      * exists (x :: before), after. simpl. split; [done|lia].
    + intros ([|y before] & after & Heq & ->); simpl in *.
      * injection Heq as <- <-. left. f_equal. lia.
      * injection Heq as <- ->. right. exists before, after.
        split; [done|lia].
Qed.

Lemma most_reclaimable_sound sds i best sector most :
  most_reclaimable sds i best = Some (sector, most) →
  best = Some (sector, most) ∨ (i ≤ sector < i + length sds)%nat.
Proof.
  revert i best. induction sds as [|sd sds IH]; simpl; intros i best H.
  - by left.
  - apply IH in H as [H|H]; [|right; lia].
    destruct (match best with Some _ => _ | None => _ end); [|by left].
    injection H as <- _. right. lia.
Qed.

Lemma choose_gc_victim_sound sds victim :
  choose_gc_victim sds = Some victim → (victim < length sds)%nat.
Proof.
  unfold choose_gc_victim. intros H.
  destruct (most_reclaimable sds 0 None) as [[s m]|] eqn:Hm; [|done].
  injection H as <-.
  apply most_reclaimable_sound in Hm as [[=]|?]. lia.
Qed.

(** **** Steps that keep the invariant *)

Lemma insert_alter_list {A} (f : A → A) (l : list A) i x :
  l !! i = Some x → <[i := f x]> l = alter f i l.
Proof.
  intros Hl. apply list_eq. intros j.
  rewrite list_lookup_alter, list_lookup_insert.
  apply lookup_lt_Some in Hl as Hlt.
  destruct (decide (i = j)) as [<-|Hne].
  - rewrite decide_True by done. by rewrite Hl.
  - by rewrite decide_False by tauto.
Qed.

(** Entries the index points at are found again after writes elsewhere. *)
Lemma resolve_weaken (pt pt' : gmap Z Entry) ds :
  pt ⊆ pt' →
  Forall (λ r : Z * KeyState * option Entry,
            ∃ e, r.2 = Some e ∧ r.1.1 = hash cfg (key e)) (resolve pt <$> ds) →
  resolve pt' <$> ds = resolve pt <$> ds.
Proof.
  intros Hsub Hidx. apply Forall_fmap_ext.
  rewrite Forall_fmap in Hidx. eapply Forall_impl; [exact Hidx|].
  intros d (e & He & _). simpl in *. unfold resolve, read in *.
  by rewrite He, (lookup_weaken _ _ _ _ He Hsub).
Qed.

(** The state after [e] was written at the end of the log of [sector],
    whatever became of the index, as long as it resolves as before. *)
Lemma Inv_append kvs logs sector sd e ds' counter' :
  Inv cfg kvs logs →
  sector_descriptors kvs !! sector = Some sd →
  0 < entry_size cfg e →
  entry_size cfg e mod alignment cfg = 0 →
  bytes_written sd + entry_size cfg e <= sector_size cfg →
  let a := sector_base cfg sector + bytes_written sd in
  resolve (<[a := e]> (partition kvs)) <$> ds' = resolved kvs →
  ∃ logs',
    Inv cfg
      (mkKVS (<[a := e]> (partition kvs)) ds'
         (mark_written sector (entry_size cfg e) (sector_descriptors kvs))
         counter')
      logs'.
Proof using Hcfg.
  intros [Hcnt Hcap Hpt Hsec Hfit Hal Hidx Hkeys] Hsd He Hmod Hle a Hres.
  destruct (Forall2_lookup_l _ _ _ _ _ Hsec Hsd) as (log & Hlog & Hbw).
  exists (<[sector := log ++ [e]]> logs). subst a. rewrite Hbw in *.
  split; simpl.
  - by rewrite length_insert.
  - unfold resolved. simpl. by rewrite Hres.
  - by apply placed_extend.
  - rewrite (insert_alter_list (λ l, l ++ [e]) logs sector log Hlog).
    unfold mark_written. apply Forall2_alter; [done|].
    intros sd' log' _ _ Hbw'. simpl. rewrite total_app. simpl. lia.
  - by apply logs_fit_extend.
  - apply Forall_insert; [done|]. apply Forall_app. split.
    + by apply (Forall_lookup_1 _ _ _ _ Hal Hlog).
    + by apply Forall_singleton.
  - unfold resolved. simpl. by rewrite Hres.
  - unfold resolved. simpl. by rewrite Hres.
Qed.

Lemma append_fresh kvs logs sector sd n :
  Inv cfg kvs logs →
  sector_descriptors kvs !! sector = Some sd →
  0 < n → bytes_written sd + n <= sector_size cfg →
  0 <= bytes_written sd ∧
  partition kvs !! (sector_base cfg sector + bytes_written sd) = None.
Proof using Hcfg.
  intros [_ _ Hpt Hsec Hfit _ _ _] Hsd Hn Hle.
  destruct (Forall2_lookup_l _ _ _ _ _ Hsec Hsd) as (log & Hlog & Hbw).
  rewrite Hbw in *.
  destruct (logs_fit_lookup _ _ _ Hfit Hlog) as [_ Hpos].
  split; [by apply total_nonneg|].
  apply (end_of_log_free _ logs); (done || lia).
Qed.

(** Moving one entry of the victim. *)
Lemma relocate_spec victim kvs logs p r kvs' :
  Inv cfg kvs logs →
  partition kvs !! p.1 = Some p.2 →
  relocate cfg victim kvs p = (r, kvs') →
  (∃ logs', Inv cfg kvs' logs') ∧
  resolved kvs' = resolved kvs ∧
  transaction_counter kvs' = transaction_counter kvs ∧
  partition kvs ⊆ partition kvs' ∧
  (r = OK → ∀ d', d' ∈ key_descriptors kvs' →
     sector_of cfg (address d') = victim →
     d' ∈ key_descriptors kvs ∧ address d' ≠ p.1).
Proof using Hcfg.
  intros HI Hp H. unfold relocate in H.
  destruct (existsb _ _) eqn:Hex.
  2:{ injection H as <- <-. split; [eauto|]. do 3 (split; [done|]).
      intros _ d' Hd' _. split; [done|]. intros Ha.
      apply not_true_iff_false in Hex. apply Hex, existsb_exists.
      exists d'. split; [by apply list_elem_of_In|]. by apply Z.eqb_eq. }
  destruct (allocate_for_gc _ _ _ _) as [[sector dest]|] eqn:Hal.
  2:{ injection H as <- <-. split; [eauto|]. by do 3 (split; [done|]). }
  apply allocate_for_gc_sound in Hal as (Hne & sd & Hsd & -> & Hle).
  destruct (write _ _ _ _) as [r' pt'] eqn:Hw.
  apply write_cases in Hw as [[-> ->]|[Hr' ->]].
  2:{ destruct r'; try done; injection H as <- <-;
        (split; [eauto|]); by do 3 (split; [done|]). }
  injection H as <- <-. simpl.
  assert (He : 0 < entry_size cfg p.2 ∧
               entry_size cfg p.2 mod alignment cfg = 0).
  { destruct HI as [_ _ Hpt _ Hfit Hal _ _].
    apply Hpt in Hp as (s & before & after & Hl & _).
    pose proof (split_range _ _ _ _ _ Hfit Hl) as (_ & ? & _).
    split; [done|].
    pose proof (Forall_lookup_1 _ _ _ _ Hal Hl) as Hlog.
    apply Forall_app in Hlog as [_ Hlog].
    by apply Forall_cons in Hlog as [? _]. }
  destruct He as [He Hmod].
  destruct (append_fresh _ _ _ _ _ HI Hsd He Hle) as [Hbw Hfresh].
  assert (Hres : resolve (<[sector_base cfg sector + bytes_written sd := p.2]>
                            (partition kvs))
                   <$> (retarget p.1 (sector_base cfg sector + bytes_written sd)
                          <$> key_descriptors kvs)
                 = resolved kvs).
  { unfold resolved. rewrite <- list_fmap_compose.
    apply Forall_fmap_ext. destruct HI as [_ _ _ _ _ _ Hidx _].
    unfold resolved in Hidx.
    rewrite Forall_fmap in Hidx. eapply Forall_impl; [exact Hidx|].
    intros d (e & Hde & _). simpl in *. unfold retarget, resolve, read in *.
    destruct (Z.eqb_spec (address d) p.1) as [Heq|Hneq]; simpl.
    - by rewrite lookup_insert_eq, Heq, Hp.
    - rewrite lookup_insert_ne; [done|]. intros Heq. congruence. }
  split; [|split; [|split; [|split]]].
  - eapply Inv_append; eauto.
  - done.
  - done.
  - by apply insert_subseteq.
  - intros _ d' Hd' Hsec.
    apply list_elem_of_fmap in Hd' as (d & -> & Hd).
    unfold retarget in *.
    destruct (Z.eqb_spec (address d) p.1) as [Heq|Hneq]; simpl in *.
    + rewrite sector_of_base in Hsec by lia. done.
    + done.
Qed.

Lemma relocate_all_spec victim entries : ∀ kvs logs r kvs',
  Inv cfg kvs logs →
  Forall (λ p : Z * Entry, partition kvs !! p.1 = Some p.2) entries →
  relocate_all cfg victim kvs entries = (r, kvs') →
  (∃ logs', Inv cfg kvs' logs') ∧
  resolved kvs' = resolved kvs ∧
  transaction_counter kvs' = transaction_counter kvs ∧
  (r = OK → ∀ d', d' ∈ key_descriptors kvs' →
     sector_of cfg (address d') = victim →
     d' ∈ key_descriptors kvs ∧ address d' ∉ entries.*1).
Proof using Hcfg.
  induction entries as [|p entries IH]; intros kvs logs r kvs' HI Hall H;
    simpl in H.
  - injection H as <- <-. split; [eauto|]. do 2 (split; [done|]).
    intros _ d' Hd' _. split; [done|]. apply not_elem_of_nil.
  - apply Forall_cons in Hall as [Hp Hall].
    destruct (relocate cfg victim kvs p) as [r1 kvs1] eqn:H1.
    destruct (relocate_spec _ _ _ _ _ _ HI Hp H1)
      as ([logs1 HI1] & Hres1 & Hctr1 & Hsub1 & Hptr1).
    assert (r1 = OK ∨ r1 ≠ OK) as [->|Hr1] by (destruct r1; eauto).
    2:{ assert (r = r1 ∧ kvs' = kvs1) as [-> ->]
          by (destruct r1; try done; by injection H as <- <-).
        split; [eauto|]. by do 2 (split; [done|]). }
    assert (Hall1 : Forall (λ p : Z * Entry, partition kvs1 !! p.1 = Some p.2)
                      entries).
    { eapply Forall_impl; [exact Hall|]. intros q Hq. simpl in *.
      by apply (lookup_weaken _ _ _ _ Hq Hsub1). }
    destruct (IH _ _ _ _ HI1 Hall1 H) as (HI' & Hres' & Hctr' & Hptr').
    split; [done|]. split; [congruence|]. split; [congruence|].
    intros Hr d' Hd' Hsec.
    destruct (Hptr' Hr d' Hd' Hsec) as [Hd1 Hnot].
    destruct (Hptr1 eq_refl d' Hd1 Hsec) as [Hd Hne].
    split; [done|]. simpl. by apply not_elem_of_cons.
Qed.

Lemma resolved_elem kvs d :
  d ∈ key_descriptors kvs → resolve (partition kvs) d ∈ resolved kvs.
Proof. intros Hd. apply list_elem_of_fmap. eauto. Qed.

Lemma garbage_collect_spec kvs logs r kvs' :
  Inv cfg kvs logs →
  garbage_collect cfg kvs = (r, kvs') →
  (∃ logs', Inv cfg kvs' logs') ∧
  resolved kvs' = resolved kvs ∧
  transaction_counter kvs' = transaction_counter kvs.
Proof using Hcfg.
  intros HI H. unfold garbage_collect in H.
  destruct (choose_gc_victim _) as [victim|] eqn:Hv.
  2:{ injection H as <- <-. eauto. }
  apply choose_gc_victim_sound in Hv.
  pose proof HI as [Hcnt Hcap Hpt Hsec Hfit Hal Hidx Hkeys].
  rewrite (Forall2_length _ _ _ Hsec) in Hv.
  destruct (lookup_lt_is_Some_2 _ _ Hv) as [log Hlog].
  rewrite (scan_sector_place _ logs victim log Hpt Hfit Hlog) in H.
  destruct (relocate_all _ _ _ _) as [r1 kvs1] eqn:H1.
  assert (Hall : Forall (λ p : Z * Entry, partition kvs !! p.1 = Some p.2)
                   (place cfg (sector_base cfg victim) log)).
  { apply Forall_forall. intros [a e] Hin. simpl.
    apply elem_of_place in Hin as (before & after & -> & ->).
    apply Hpt. by exists victim, before, after. }
  destruct (relocate_all_spec _ _ _ _ _ _ HI Hall H1)
    as ([logs1 HI1] & Hres1 & Hctr1 & Hptr1).
  assert (r1 = OK ∨ r1 ≠ OK) as [->|Hr1] by (destruct r1; eauto).
  2:{ assert (r = r1 ∧ kvs' = kvs1) as [-> ->]
        by (destruct r1; try done; by injection H as <- <-).
      eauto. }
  injection H as <- <-.
  (* no descriptor points into the victim any more *)
  assert (Hout : Forall (λ d, sector_of cfg (address d) ≠ victim)
                   (key_descriptors kvs1)).
  { apply Forall_forall. intros d' Hd' Hsec'.
    destruct (Hptr1 eq_refl d' Hd' Hsec') as [Hd Hnot]. apply Hnot.
    pose proof (resolved_elem _ _ Hd) as Hr.
    rewrite Forall_forall in Hidx. apply Hidx in Hr as (e & He & _).
    simpl in He. unfold read in He.
    apply Hpt in He as He'. destruct He' as (s & before & after & Hl & Ha).
    pose proof (split_range _ _ _ _ _ Hfit Hl) as (? & ? & ? & ?).
    assert (s = victim) as ->.
    { rewrite <- Hsec', Ha. by rewrite sector_of_base by lia. }
    rewrite Hlog in Hl. injection Hl as ->.
    apply list_elem_of_fmap. exists (address d', e). split; [done|].
    apply elem_of_place. eauto. }
  pose proof HI1 as [Hcnt1 Hcap1 Hpt1 Hsec1 Hfit1 Hal1 Hidx1 Hkeys1].
  assert (Hres : resolved (erase_sector cfg victim kvs1) = resolved kvs1).
  { unfold resolved, erase_sector. simpl. apply Forall_fmap_ext.
    unfold resolved in Hidx1. rewrite Forall_fmap in Hidx1.
    rewrite Forall_forall in Hidx1, Hout. apply Forall_forall.
    intros d Hd. destruct (Hidx1 d Hd) as (e & He & _).
    simpl in He. unfold resolve, read, erase in *. rewrite He.
    f_equal. apply map_lookup_filter_Some. split; [done|].
    simpl. by apply Hout. }
  split; [|split; [congruence|done]].
  exists (<[victim := []]> logs1). split.
  - by rewrite length_insert.
  - by rewrite Hres.
  - simpl. by apply placed_erase.
  - simpl. by apply Forall2_insert.
  - apply Forall_insert; [done|]. split; [simpl|done].
    destruct Hcfg as (_ & ? & _). lia.
  - by apply Forall_insert.
  - by rewrite Hres.
  - by rewrite Hres.
Qed.

Lemma write_at_spec kvs logs sector sd e r kvs' a :
  Inv cfg kvs logs →
  sector_descriptors kvs !! sector = Some sd →
  0 < entry_size cfg e →
  entry_size cfg e mod alignment cfg = 0 →
  bytes_written sd + entry_size cfg e <= sector_size cfg →
  write_at cfg kvs sector (sector_base cfg sector + bytes_written sd) e
    = (r, kvs', a) →
  (∃ logs', Inv cfg kvs' logs') ∧
  resolved kvs' = resolved kvs ∧
  transaction_counter kvs' = transaction_counter kvs ∧
  (r = OK → partition kvs' !! a = Some e).
Proof using Hcfg.
  intros HI Hsd He Hmod Hle H. unfold write_at in H.
  destruct (write _ _ _ _) as [r' pt'] eqn:Hw.
  apply write_cases in Hw as [[-> ->]|[Hr' ->]].
  2:{ assert (r = r' ∧ kvs' = kvs) as [-> ->]
        by (destruct r'; try done; by injection H as <- <- _).
      split; [eauto|]. do 2 (split; [done|]). by intros ->. }
  injection H as <- <- <-.
  destruct (append_fresh _ _ _ _ _ HI Hsd He Hle) as [Hbw Hfresh].
  assert (Hres : resolve (<[sector_base cfg sector + bytes_written sd := e]>
                            (partition kvs)) <$> key_descriptors kvs
                 = resolved kvs).
  { apply resolve_weaken; [by apply insert_subseteq|]. by destruct HI. }
  split; [|split; [done|split; [done|]]].
  - eapply Inv_append; eauto.
  - intros _. simpl. by rewrite lookup_insert_eq.
Qed.

Lemma write_entry_spec kvs logs e r kvs' a :
  Inv cfg kvs logs →
  0 < entry_size cfg e →
  entry_size cfg e mod alignment cfg = 0 →
  write_entry cfg kvs e = (r, kvs', a) →
  (∃ logs', Inv cfg kvs' logs') ∧
  resolved kvs' = resolved kvs ∧
  transaction_counter kvs' = transaction_counter kvs ∧
  (r = OK → partition kvs' !! a = Some e).
Proof using Hcfg.
  intros HI He Hmod H. unfold write_entry in H.
  destruct (allocate _ _ _) as [[sector dest]|] eqn:Hal.
  - apply allocate_sound in Hal as (sd & Hsd & -> & Hle).
    eauto using write_at_spec.
  - destruct (garbage_collect cfg kvs) as [rg kvsg] eqn:Hgc. simpl in H.
    destruct (garbage_collect_spec _ _ _ _ HI Hgc)
      as ([logsg HIg] & Hresg & Hctrg).
    destruct (allocate cfg (sector_descriptors kvsg) _)
      as [[sector dest]|] eqn:Hal'.
    + apply allocate_sound in Hal' as (sd & Hsd & -> & Hle).
      destruct (write_at_spec _ _ _ _ _ _ _ _ HIg Hsd He Hmod Hle H)
        as (HI' & Hres' & Hctr' & Hw).
      split; [done|]. split; [congruence|]. split; [congruence|done].
    + injection H as <- <- <-. split; [eauto|]. by do 2 (split; [done|]).
Qed.

(** **** Writes at the end of a log succeed *)

Lemma total_aligned log :
  Forall (λ e, entry_size cfg e mod alignment cfg = 0) log →
  total cfg log mod alignment cfg = 0.
Proof using Hcfg.
  destruct Hcfg as (Ha & _).
  induction 1 as [|e log He _ IH]; simpl; [by apply Z.mod_0_l; lia|].
  rewrite Z.add_mod, He, IH by lia. by apply Z.mod_0_l; lia.
Qed.

Lemma sector_base_aligned sector :
  sector_base cfg sector mod alignment cfg = 0.
Proof using Hcfg.
  destruct Hcfg as (Ha & _ & _ & Hs). unfold sector_base.
  rewrite Z.mul_mod, Hs, Z.mul_0_r by lia. by apply Z.mod_0_l; lia.
Qed.

Lemma write_OK kvs logs sector sd e :
  Inv cfg kvs logs →
  sector_descriptors kvs !! sector = Some sd →
  0 < entry_size cfg e →
  entry_size cfg e mod alignment cfg = 0 →
  bytes_written sd + entry_size cfg e <= sector_size cfg →
  write cfg (partition kvs) (sector_base cfg sector + bytes_written sd) e
  = (OK, <[sector_base cfg sector + bytes_written sd := e]> (partition kvs)).
Proof using Hcfg.
  intros [Hcnt _ Hpt Hsec Hfit Hal _ _] Hsd He Hmod Hle.
  destruct (Forall2_lookup_l _ _ _ _ _ Hsec Hsd) as (log & Hlog & Hbw).
  rewrite Hbw in *.
  destruct (logs_fit_lookup _ _ _ Hfit Hlog) as [_ Hpos].
  pose proof (total_nonneg _ Hpos) as Hnn.
  pose proof Hcfg as (Ha & Hss & _).
  assert (Hs : (sector < sector_count cfg)%nat).
  { rewrite <- Hcnt. eauto using lookup_lt_Some. }
  unfold write.
  assert ((sector_base cfg sector + total cfg log) mod alignment cfg = 0) as ->.
  { rewrite Z.add_mod, sector_base_aligned by lia.
    rewrite total_aligned by apply (Forall_lookup_1 _ _ _ _ Hal Hlog).
    by apply Z.mod_0_l; lia. }
  rewrite Hmod. simpl.
  assert (0 <= sector_base cfg sector) by (unfold sector_base; lia).
  destruct (Z.leb_spec 0 (sector_base cfg sector + total cfg log)); [|lia].
  destruct (Z.leb_spec (sector_base cfg sector + total cfg log
                        + entry_size cfg e) (partition_size cfg)).
  2:{ unfold partition_size, sector_base in *. nia. }
  simpl.
  assert (all_ones cfg (partition kvs) (sector_base cfg sector + total cfg log)
            (entry_size cfg e) = true) as ->; [|done].
  unfold all_ones. apply forallb_forall. intros [a' e'] Hin.
  apply list_elem_of_In, elem_of_map_to_list in Hin.
  apply Hpt in Hin as (s' & before & after & Hl & ->).
  pose proof (split_range _ _ _ _ _ Hfit Hl) as (? & ? & ? & ?).
  apply negb_true_iff, andb_false_iff. unfold overlaps. simpl.
  rewrite Z.ltb_ge, Z.ltb_ge.
  destruct (decide (s' = sector)) as [->|Hne].
  - rewrite Hlog in Hl. injection Hl as ->.
    rewrite total_app. simpl. right. lia.
  - unfold sector_base.
    destruct (decide (s' < sector)%nat); [right|left]; nia.
Qed.

(** Moving an entry fails only for want of room. *)
Lemma relocate_status victim kvs logs p r kvs' :
  Inv cfg kvs logs →
  partition kvs !! p.1 = Some p.2 →
  relocate cfg victim kvs p = (r, kvs') →
  r = OK ∨ r = RESOURCE_EXHAUSTED.
Proof using Hcfg.
  intros HI Hp H. unfold relocate in H.
  destruct (existsb _ _); [|injection H as <- _; by left].
  destruct (allocate_for_gc _ _ _ _) as [[sector dest]|] eqn:Hal;
    [|injection H as <- _; by right].
  apply allocate_for_gc_sound in Hal as (_ & sd & Hsd & -> & Hle).
  assert (He : 0 < entry_size cfg p.2 ∧
               entry_size cfg p.2 mod alignment cfg = 0).
  { destruct HI as [_ _ Hpt _ Hfit Hal _ _].
    apply Hpt in Hp as (s & before & after & Hl & _).
    pose proof (split_range _ _ _ _ _ Hfit Hl) as (_ & ? & _).
    split; [done|].
    pose proof (Forall_lookup_1 _ _ _ _ Hal Hl) as Hlog.
    apply Forall_app in Hlog as [_ Hlog].
    by apply Forall_cons in Hlog as [? _]. }
  destruct He as [He Hmod].
  rewrite (write_OK _ _ _ _ _ HI Hsd He Hmod Hle) in H.
  injection H as <- _. by left.
Qed.

Lemma write_entry_status kvs logs e :
  Inv cfg kvs logs →
  0 < entry_size cfg e →
  entry_size cfg e mod alignment cfg = 0 →
  (write_entry cfg kvs e).1.1 =
  if room_for cfg kvs (entry_size cfg e) then OK else RESOURCE_EXHAUSTED.
Proof using Hcfg.
  intros HI He Hmod. unfold write_entry, room_for.
  destruct (allocate cfg (sector_descriptors kvs) _)
    as [[sector dest]|] eqn:Hal.
  - rewrite bool_decide_true by eauto. simpl.
    apply allocate_sound in Hal as (sd & Hsd & -> & Hle).
    unfold write_at. by rewrite (write_OK _ _ _ _ _ HI Hsd He Hmod Hle).
  - rewrite (bool_decide_false (is_Some None)) by (by intros [? ?]). simpl.
    destruct (garbage_collect cfg kvs) as [rg kvsg] eqn:Hgc. simpl.
    destruct (garbage_collect_spec _ _ _ _ HI Hgc) as ([logsg HIg] & _).
    destruct (allocate cfg (sector_descriptors kvsg) _)
      as [[sector dest]|] eqn:Hal'.
    + rewrite bool_decide_true by eauto.
      apply allocate_sound in Hal' as (sd & Hsd & -> & Hle).
      unfold write_at. by rewrite (write_OK _ _ _ _ _ HIg Hsd He Hmod Hle).
    + by rewrite bool_decide_false by (by intros [? ?]).
Qed.

(** **** What the index holds *)

Lemma Inv_index_ok kvs logs : Inv cfg kvs logs → index_ok cfg (resolved kvs).
Proof. intros [_ _ _ _ _ _ ? ?]. by split. Qed.

(** The entry for [k] is replaced, in place. *)
Lemma holds_in_insert rs i h0 s0 e0 s1 e1 :
  index_ok cfg rs →
  rs !! i = Some (h0, s0, Some e0) →
  key e1 = key e0 →
  index_ok cfg (<[i := (hash cfg (key e1), s1, Some e1)]> rs) ∧
  ∀ k v,
    holds_in (<[i := (hash cfg (key e1), s1, Some e1)]> rs) k v ↔
    (k = key e0 ∧ s1 = valid ∧ v = value e1) ∨
    (k ≠ key e0 ∧ holds_in rs k v).
Proof.
  intros [Hidx Hnd] Hi Hk.
  assert (Hlt : (i < length rs)%nat) by eauto using lookup_lt_Some.
  assert (Hkeys : key_of <$> <[i := (hash cfg (key e1), s1, Some e1)]> rs
                  = key_of <$> rs).
  { rewrite list_fmap_insert. apply list_insert_id.
    rewrite list_lookup_fmap, Hi. unfold key_of. simpl. by rewrite Hk. }
  split.
  { split; [|by rewrite Hkeys]. apply Forall_insert; [done|]. simpl. eauto. }
  (* an entry of [rs] with the key of [e0] sits at [i] *)
  assert (Huniq : ∀ j h s e, rs !! j = Some (h, s, Some e) →
                    key e = key e0 → j = i).
  { intros j h s e Hj He. rewrite NoDup_alt in Hnd.
    apply (Hnd j i (Some (key e0))); rewrite list_lookup_fmap.
    - rewrite Hj. unfold key_of. simpl. by rewrite He.
    - by rewrite Hi. }
  intros k v. unfold holds_in. split.
  - intros (h & e & Hin & <- & <-).
    apply list_elem_of_lookup in Hin as [j Hj].
    rewrite list_lookup_insert in Hj. case_decide as Hd.
    + injection Hj as _ <- <-. left. done.
    + right. split.
      * intros He. apply Hd. split; [|done].
        symmetry. eauto.
      * exists h, e. split; [|done]. apply list_elem_of_lookup. eauto.
  - intros [(-> & -> & ->)|(Hne & h & e & Hin & <- & <-)].
    + exists (hash cfg (key e1)), e1. split; [|done].
      by apply list_elem_of_insert.
    + exists h, e. split; [|done].
      apply list_elem_of_lookup in Hin as [j Hj].
      apply list_elem_of_lookup. exists j.
      rewrite list_lookup_insert_ne; [done|].
      intros <-. rewrite Hi in Hj. by injection Hj as _ _ <-.
Qed.

(** An entry for a key the index does not have is added. *)
Lemma holds_in_app rs s1 e1 :
  index_ok cfg rs →
  Some (key e1) ∉ key_of <$> rs →
  index_ok cfg (rs ++ [(hash cfg (key e1), s1, Some e1)]) ∧
  ∀ k v,
    holds_in (rs ++ [(hash cfg (key e1), s1, Some e1)]) k v ↔
    (k = key e1 ∧ s1 = valid ∧ v = value e1) ∨
    (k ≠ key e1 ∧ holds_in rs k v).
Proof.
  intros [Hidx Hnd] Hnew. split.
  { split.
    - apply Forall_app. split; [done|]. apply Forall_singleton. simpl. eauto.
    - rewrite fmap_app. apply NoDup_app. split; [done|]. split.
      + intros x Hx ->%list_elem_of_singleton. done.
      + apply NoDup_singleton. }
  intros k v. unfold holds_in. split.
  - intros (h & e & Hin & <- & <-).
    apply elem_of_app in Hin as [Hin|Hin].
    + right. split; [|eauto]. intros He. apply Hnew.
      apply list_elem_of_fmap. exists (h, valid, Some e).
      split; [|done]. unfold key_of. simpl. by rewrite He.
    + apply list_elem_of_singleton in Hin. injection Hin as _ <- <-.
      by left.
  - intros [(-> & -> & ->)|(Hne & h & e & Hin & <- & <-)].
    + exists (hash cfg (key e1)), e1. split; [|done].
      apply elem_of_app. right. by apply list_elem_of_singleton.
    + exists h, e. split; [|done]. apply elem_of_app. by left.
Qed.

(** **** Looking a key up *)

Lemma find_key_Some kvs k i d :
  find_key cfg kvs k = Some (i, d) →
  key_descriptors kvs !! i = Some d ∧
  ∃ e, partition kvs !! address d = Some e ∧ key e = k ∧
       resolved kvs !! i = Some (hash cfg k, state d, Some e).
Proof.
  unfold find_key. intros H.
  apply list_find_Some in H as (Hi & [Hh Hk] & _).
  split; [done|]. unfold read in Hk.
  destruct (partition kvs !! address d) as [e|] eqn:He; [|done].
  injection Hk as Hk. exists e. split; [done|]. split; [done|].
  unfold resolved. rewrite list_lookup_fmap, Hi. simpl.
  unfold resolve, read. by rewrite Hh, He.
Qed.

Lemma find_key_None kvs logs k :
  Inv cfg kvs logs →
  find_key cfg kvs k = None → Some k ∉ key_of <$> resolved kvs.
Proof.
  intros [_ _ _ _ _ _ Hidx _] H Hin. unfold find_key in H.
  rewrite list_find_None, Forall_forall in H.
  apply list_elem_of_fmap in Hin as (r & Hr & Hin).
  rewrite Forall_forall in Hidx. destruct (Hidx _ Hin) as (e & He & Hh).
  apply list_elem_of_fmap in Hin as (d & -> & Hd).
  apply (H d Hd). unfold describes, key_of in *. simpl in *.
  rewrite He in Hr |- *. simpl in *. injection Hr as ->. done.
Qed.

Lemma agree_resolved kvs kvs' m :
  resolved kvs' = resolved kvs → agree kvs m → agree kvs' m.
Proof. unfold agree, holds. by intros ->. Qed.

(** The index and the reclaimable counts changed, nothing else. *)
Lemma Inv_reindex kvs logs ds' sds' counter' :
  Inv cfg kvs logs →
  (length ds' ≤ kMaxEntries cfg)%nat →
  index_ok cfg (resolve (partition kvs) <$> ds') →
  Forall2 (λ sd' sd, bytes_written sd' = bytes_written sd)
    sds' (sector_descriptors kvs) →
  Inv cfg (mkKVS (partition kvs) ds' sds' counter') logs.
Proof.
  intros [Hcnt _ Hpt Hsec Hfit Hal _ _] Hlen [Hidx Hnd] Hsds.
  split; simpl; try done.
  { unfold resolved. simpl. by rewrite length_fmap. }
  clear -Hsec Hsds. revert logs Hsec.
  induction Hsds as [|sd' sd sds' sds Hbw _ IH]; intros logs Hsec.
  - by inversion Hsec.
  - inversion Hsec as [|? log ? logs' Hx Hy]; subst.
    constructor; [congruence|]. by apply IH.
Qed.

Lemma same_bytes_written_refl sds :
  Forall2 (λ sd' sd : SectorDescriptor, bytes_written sd' = bytes_written sd)
    sds sds.
Proof. by apply Forall_Forall2_diag, Forall_forall. Qed.

Lemma supersede_sectors kvs i :
  Forall2 (λ sd' sd : SectorDescriptor, bytes_written sd' = bytes_written sd)
    match key_descriptors kvs !! i with
    | Some old =>
        match read (partition kvs) (address old) with
        | Some e =>
            mark_reclaimable (sector_of cfg (address old)) (entry_size cfg e)
              (sector_descriptors kvs)
        | None => sector_descriptors kvs
        end
    | None => sector_descriptors kvs
    end
    (sector_descriptors kvs).
Proof.
  destruct (key_descriptors kvs !! i) as [old|];
    [|apply same_bytes_written_refl].
  destruct (read _ _) as [e|]; [|apply same_bytes_written_refl].
  unfold mark_reclaimable. apply Forall2_alter_l.
  - apply same_bytes_written_refl.
  - intros sd sd' _ _ <-. done.
Qed.

(** The effect of a write that replaces the entry of a key, valid or
    deleted, on what the store holds. *)
Lemma supersede_spec kvs logs kvs2 logs2 i d0 k v tx a st :
  Inv cfg kvs logs →
  find_key cfg kvs k = Some (i, d0) →
  Inv cfg kvs2 logs2 →
  resolved kvs2 = resolved kvs →
  partition kvs2 !! a = Some (mkEntry k v tx (bool_decide (st = deleted_state))) →
  let kvs' := supersede cfg kvs2 i (mkKeyDescriptor (hash cfg k) tx a st) in
  Inv cfg kvs' logs2 ∧
  ∀ k' v', holds kvs' k' v' ↔
           (k' = k ∧ st = valid ∧ v' = v) ∨ (k' ≠ k ∧ holds kvs k' v').
Proof.
  intros HI Hfind HI2 Hres Ha kvs'.
  apply find_key_Some in Hfind as (_ & e0 & _ & Hk0 & Hi).
  set (e1 := mkEntry k v tx (bool_decide (st = deleted_state))) in *.
  assert (Hres' : resolved kvs'
                  = <[i := (hash cfg (key e1), st, Some e1)]> (resolved kvs)).
  { unfold resolved, kvs', supersede. simpl. rewrite list_fmap_insert.
    fold (resolved kvs2). rewrite Hres. unfold resolve, read. simpl.
    by rewrite Ha. }
  destruct (holds_in_insert (resolved kvs) i _ _ e0 st e1
              (Inv_index_ok _ _ HI) Hi) as [Hok Hholds]; [by simpl|].
  split.
  - apply Inv_reindex; [done| | |apply supersede_sectors].
    { rewrite length_insert. destruct HI2 as [_ Hcap _ _ _ _ _ _].
      unfold resolved in Hcap. by rewrite length_fmap in Hcap. }
    fold (resolved kvs2). rewrite <- Hres' in Hok.
    unfold resolved, kvs', supersede in Hok. simpl in Hok. exact Hok.
  - intros k' v'. unfold holds. rewrite Hres', Hholds, Hk0. done.
Qed.

Lemma next_transaction_spec kvs logs kvs1 :
  Inv cfg kvs logs →
  next_transaction kvs = Some kvs1 →
  Inv cfg kvs1 logs ∧ resolved kvs1 = resolved kvs ∧
  transaction_counter kvs1 = transaction_counter kvs + 1.
Proof.
  unfold next_transaction. intros HI H.
  destruct (_ <? _); [|done]. injection H as <-.
  split; [|done]. by destruct HI.
Qed.

Lemma valid_key_len k : valid_key k = true → 1 <= len k <= kMaxKeyLength.
Proof. unfold valid_key. rewrite andb_true_iff, !Z.leb_le. tauto. Qed.

(** **** Put and Delete *)

Lemma Put_spec kvs logs m k v r kvs' :
  Inv cfg kvs logs → agree kvs m →
  Put cfg kvs k v = (r, kvs') →
  (∃ logs', Inv cfg kvs' logs') ∧
  agree kvs' (if decide (r = OK) then <[k := v]> m else m).
Proof using Hcfg.
  intros HI Hm H. unfold Put in H.
  destruct (valid_key k) eqn:Hk; simpl in H;
    [|injection H as <- <-; eauto].
  destruct (kMaxValueLength cfg <? len v);
    [injection H as <- <-; eauto|].
  destruct (_ && _) eqn:Hfull; [injection H as <- <-; eauto|].
  destruct (next_transaction kvs) as [kvs1|] eqn:Hnext;
    [|injection H as <- <-; eauto].
  destruct (next_transaction_spec _ _ _ HI Hnext) as (HI1 & Hres1 & _).
  set (e := mkEntry k v (transaction_counter kvs1) false) in *.
  assert (He : 0 < entry_size cfg e).
  { apply entry_size_pos. simpl. by apply valid_key_len in Hk as []. }
  assert (Hmod : entry_size cfg e mod alignment cfg = 0).
  { apply entry_size_aligned. simpl. by apply valid_key_len in Hk as []. }
  destruct (write_entry cfg kvs1 e) as [[rw kvs2] a] eqn:Hw.
  destruct (write_entry_spec _ _ _ _ _ _ HI1 He Hmod Hw)
    as ([logs2 HI2] & Hres2 & _ & Ha).
  assert (rw = OK ∨ rw ≠ OK) as [->|Hrw] by (destruct rw; eauto).
  2:{ assert (r = rw ∧ kvs' = kvs2) as [-> ->]
        by (destruct rw; try done; by injection H as <- <-).
      split; [eauto|]. rewrite decide_False by done.
      apply (agree_resolved kvs); [congruence|done]. }
  specialize (Ha eq_refl). injection H as <- <-.
  rewrite decide_True by done.
  destruct (find_key cfg kvs k) as [[i d0]|] eqn:Hfind.
  - destruct (supersede_spec kvs logs kvs2 logs2 i d0 k v
                (transaction_counter kvs1) a valid HI Hfind HI2
                ltac:(congruence) Ha) as [HI' Hholds].
    split; [eauto|]. intros k' v'. rewrite Hholds, lookup_insert_Some.
    unfold agree in Hm. rewrite Hm. intuition congruence.
  - pose proof (find_key_None _ _ _ HI Hfind) as Hnew.
    destruct (holds_in_app (resolved kvs) valid e (Inv_index_ok _ _ HI) Hnew)
      as [Hok Hholds].
    assert (Hres' : resolved (add_descriptor kvs2
                      (mkKeyDescriptor (hash cfg k) (transaction_counter kvs1)
                         a valid))
                    = resolved kvs ++ [(hash cfg (key e), valid, Some e)]).
    { unfold resolved, add_descriptor. simpl. rewrite fmap_app.
      fold (resolved kvs2). rewrite Hres2, Hres1. simpl.
      unfold resolve, read. simpl. by rewrite Ha. }
    split.
    + exists logs2.
      apply Inv_reindex; [done| | |apply same_bytes_written_refl].
      { rewrite length_app. simpl.
        apply andb_false_iff in Hfull as [Hfull|Hfull];
          [by rewrite bool_decide_true in Hfull|].
        apply bool_decide_eq_false in Hfull.
        assert (length (resolved kvs2) = length (resolved kvs)) as Hlen
          by congruence.
        unfold resolved in Hlen. rewrite !length_fmap in Hlen. lia. }
      rewrite <- Hres' in Hok. exact Hok.
    + intros k' v'. unfold holds. rewrite Hres', Hholds, lookup_insert_Some.
      unfold agree, holds in Hm. rewrite Hm. simpl. intuition congruence.
Qed.

Lemma Delete_spec kvs logs m k r kvs' :
  Inv cfg kvs logs → agree kvs m →
  Delete cfg kvs k = (r, kvs') →
  (∃ logs', Inv cfg kvs' logs') ∧
  agree kvs' (if decide (r = OK) then delete k m else m).
Proof using Hcfg.
  intros HI Hm H. unfold Delete in H.
  destruct (valid_key k) eqn:Hk; simpl in H;
    [|injection H as <- <-; eauto].
  destruct (find_key cfg kvs k) as [[i d0]|] eqn:Hfind;
    [|injection H as <- <-; eauto].
  case_bool_decide; [injection H as <- <-; eauto|].
  destruct (next_transaction kvs) as [kvs1|] eqn:Hnext;
    [|injection H as <- <-; eauto].
  destruct (next_transaction_spec _ _ _ HI Hnext) as (HI1 & Hres1 & _).
  set (e := mkEntry k "" (transaction_counter kvs1) true) in *.
  assert (He : 0 < entry_size cfg e).
  { apply entry_size_pos. simpl. by apply valid_key_len in Hk as []. }
  assert (Hmod : entry_size cfg e mod alignment cfg = 0).
  { apply entry_size_aligned. simpl. by apply valid_key_len in Hk as []. }
  destruct (write_entry cfg kvs1 e) as [[rw kvs2] a] eqn:Hw.
  destruct (write_entry_spec _ _ _ _ _ _ HI1 He Hmod Hw)
    as ([logs2 HI2] & Hres2 & _ & Ha).
  assert (rw = OK ∨ rw ≠ OK) as [->|Hrw] by (destruct rw; eauto).
  2:{ assert (r = rw ∧ kvs' = kvs2) as [-> ->]
        by (destruct rw; try done; by injection H as <- <-).
      split; [eauto|]. rewrite decide_False by done.
      apply (agree_resolved kvs); [congruence|done]. }
  specialize (Ha eq_refl). injection H as <- <-.
  rewrite decide_True by done.
  destruct (supersede_spec kvs logs kvs2 logs2 i d0 k ""
              (transaction_counter kvs1) a deleted_state HI Hfind HI2
              ltac:(congruence) Ha) as [HI' Hholds].
  split; [eauto|]. intros k' v'. rewrite Hholds, lookup_delete_Some.
  unfold agree in Hm. rewrite Hm. intuition congruence.
Qed.

Lemma erased_store_Inv :
  Inv cfg (erased_store cfg) (replicate (sector_count cfg) []) ∧
  agree (erased_store cfg) ∅.
Proof using Hcfg.
  split; [split; simpl|].
  - by rewrite length_replicate.
  - lia.
  - intros a e. rewrite lookup_empty. split; [done|].
    intros (s & before & after & Hl & _).
    apply lookup_replicate in Hl as [Hl _]. by destruct before.
  - apply Forall2_replicate. simpl. done.
  - apply Forall_replicate. simpl. destruct Hcfg as (_ & ? & _).
    split; [lia|done].
  - by apply Forall_replicate.
  - constructor.
  - constructor.
  - intros k v. rewrite lookup_empty. split; [done|].
    intros (h & e & Hin & _). by apply elem_of_nil in Hin.
Qed.

(** **** Get, iteration and size *)

Lemma prefix_all (n : nat) s : (String.length s ≤ n)%nat → prefix n s = s.
Proof.
  unfold prefix. revert n. induction s as [|c s IH]; intros n Hn.
  - by destruct n.
  - destruct n as [|n]; simpl in *; [lia|]. rewrite IH; [done|lia].
Qed.

Lemma holds_unique kvs logs k i h s e v :
  Inv cfg kvs logs →
  resolved kvs !! i = Some (h, s, Some e) → key e = k →
  holds kvs k v → s = valid ∧ v = value e.
Proof.
  intros [_ _ _ _ _ _ _ Hnd] Hi Hk (h' & e' & Hin & Hk' & <-).
  apply list_elem_of_lookup in Hin as [j Hj].
  rewrite NoDup_alt in Hnd.
  assert (j = i) as ->.
  { apply (Hnd j i (Some k)); rewrite list_lookup_fmap.
    - rewrite Hj. simpl. by rewrite Hk'.
    - rewrite Hi. simpl. by rewrite Hk. }
  rewrite Hi in Hj. by injection Hj as _ -> ->.
Qed.

Lemma Get_spec kvs logs m k n :
  Inv cfg kvs logs → agree kvs m →
  Get cfg kvs k n =
  match m !! k with
  | Some v =>
      (if n <? len v then RESOURCE_EXHAUSTED else OK,
       prefix (Z.to_nat n) v, len v)
  | None => (NOT_FOUND, "", 0)
  end.
Proof.
  intros HI Hm. unfold Get.
  destruct (find_key cfg kvs k) as [[i d]|] eqn:Hfind.
  - apply find_key_Some in Hfind as (_ & e & He & Hk & Hi).
    unfold read. rewrite He.
    destruct (m !! k) as [v|] eqn:Hmk.
    + apply Hm in Hmk.
      destruct (holds_unique _ _ _ _ _ _ _ _ HI Hi Hk Hmk) as [Hs ->].
      rewrite Hs. by rewrite bool_decide_false.
    + destruct (state d) eqn:Hs; [|by rewrite bool_decide_true].
      assert (holds kvs k (value e)) as Hh.
      { exists (hash cfg k), e. split; [|done].
        apply list_elem_of_lookup. eauto. }
      apply Hm in Hh. congruence.
  - destruct (m !! k) as [v|] eqn:Hmk; [|done]. exfalso.
    apply Hm in Hmk as (h & e & Hin & Hk & _).
    apply (find_key_None _ _ _ HI Hfind).
    apply list_elem_of_fmap. exists (h, valid, Some e).
    split; [|done]. unfold key_of. simpl. by rewrite Hk.
Qed.

Lemma items_resolved kvs : items kvs = omap item_of (resolved kvs).
Proof.
  unfold items, resolved.
  induction (key_descriptors kvs) as [|d ds IH]; csimpl; [done|].
  rewrite <- IH. unfold item_of at 1. simpl.
  by destruct (bool_decide (state d = valid)).
Qed.

Lemma elem_of_items kvs k v : (k, v) ∈ items kvs ↔ holds kvs k v.
Proof.
  rewrite items_resolved, list_elem_of_omap. unfold holds, holds_in. split.
  - intros ([[h s] oe] & Hin & Hitem). unfold item_of in Hitem. simpl in *.
    case_bool_decide as Hs; [|done]. destruct oe as [e|]; [|done].
    injection Hitem as <- <-. subst s. eauto.
  - intros (h & e & Hin & <- & <-). by exists (h, valid, Some e).
Qed.

Lemma NoDup_items kvs logs : Inv cfg kvs logs → NoDup (items kvs).
Proof.
  intros [_ _ _ _ _ _ _ Hnd]. rewrite items_resolved.
  induction (resolved kvs) as [|r rs IH]; simpl; [constructor|].
  apply NoDup_cons in Hnd as [Hr Hnd]. specialize (IH Hnd).
  destruct (item_of r) as [[k v]|] eqn:Hitem; [|done].
  constructor; [|done]. intros Hin.
  apply list_elem_of_omap in Hin as (r' & Hr' & Hitem'). apply Hr.
  apply list_elem_of_fmap. exists r'. split; [|done].
  unfold item_of in *. repeat case_bool_decide; try done.
  destruct r as [[? ?] [e|]], r' as [[? ?] [e'|]]; simpl in *; try done.
  injection Hitem as <- <-. by injection Hitem' as -> _.
Qed.

Lemma size_items kvs logs :
  Inv cfg kvs logs → size kvs = length (items kvs).
Proof.
  intros [_ _ _ _ _ _ Hidx _]. unfold size, items, resolved in *.
  rewrite Forall_fmap in Hidx.
  induction Hidx as [|d ds (e & He & _) _ IH]; [done|].
  rewrite filter_cons. csimpl. simpl in He. rewrite He.
  case_decide as Hs.
  - rewrite bool_decide_true by done. simpl. by rewrite IH.
  - by rewrite bool_decide_false by done.
Qed.

Lemma items_reference kvs logs m :
  Inv cfg kvs logs → agree kvs m → items kvs ≡ₚ map_to_list m.
Proof.
  intros HI Hm. apply NoDup_Permutation.
  - eauto using NoDup_items.
  - apply NoDup_map_to_list.
  - intros [k v]. rewrite elem_of_items, elem_of_map_to_list.
    symmetry. apply Hm.
Qed.

(** **** Sequences of operations *)

Lemma apply_spec kvs logs m op :
  Inv cfg kvs logs → agree kvs m →
  (∃ logs', Inv cfg (apply cfg kvs op).2 logs') ∧
  agree (apply cfg kvs op).2 (KvsTester.record m op (apply cfg kvs op).1).
Proof using Hcfg.
  intros HI Hm. unfold KvsTester.record, ok.
  destruct op as [k v|k]; simpl.
  - destruct (Put cfg kvs k v) as [r kvs'] eqn:H.
    destruct (Put_spec _ _ _ _ _ _ _ HI Hm H) as [HI' Hm']. simpl.
    split; [done|]. by destruct (decide (r = OK)); case_bool_decide.
  - destruct (Delete cfg kvs k) as [r kvs'] eqn:H.
    destruct (Delete_spec _ _ _ _ _ _ HI Hm H) as [HI' Hm']. simpl.
    split; [done|]. by destruct (decide (r = OK)); case_bool_decide.
Qed.

Lemma run_spec ops :
  ∃ logs, Inv cfg (KvsTester.run cfg ops).1 logs ∧
          agree (KvsTester.run cfg ops).1 (KvsTester.run cfg ops).2.
Proof using Hcfg.
  unfold KvsTester.run.
  induction ops as [|op ops IH] using rev_ind.
  - simpl. eexists. apply erased_store_Inv.
  - rewrite foldl_app. simpl.
    destruct IH as (logs & HI & Hm).
    destruct (apply_spec _ _ _ op HI Hm) as [[logs' HI'] Hm'].
    unfold KvsTester.step at 1 3 4. simpl. eauto.
Qed.

(** **** The status of Put and Delete *)

Lemma Put_status kvs logs k v :
  Inv cfg kvs logs →
  valid_key k = true → len v <= kMaxValueLength cfg →
  (Put cfg kvs k v).1 =
  if bool_decide (find_key cfg kvs k = None) &&
     bool_decide (kMaxEntries cfg ≤ length (key_descriptors kvs))%nat
  then RESOURCE_EXHAUSTED
  else match next_transaction kvs with
       | None => INTERNAL
       | Some kvs1 =>
           if room_for cfg kvs1
                (entry_size cfg (mkEntry k v (transaction_counter kvs1) false))
           then OK else RESOURCE_EXHAUSTED
       end.
Proof using Hcfg.
  intros HI Hk Hv. unfold Put. rewrite Hk. simpl.
  destruct (Z.ltb_spec (kMaxValueLength cfg) (len v)); [lia|].
  destruct (_ && _); [done|].
  destruct (next_transaction kvs) as [kvs1|] eqn:Hnext; [|done].
  destruct (next_transaction_spec _ _ _ HI Hnext) as (HI1 & _).
  set (e := mkEntry k v (transaction_counter kvs1) false).
  assert (Hlen : 1 <= len (key e)) by (by apply valid_key_len in Hk as []).
  pose proof (write_entry_status kvs1 logs e HI1 (entry_size_pos e Hlen)
                (entry_size_aligned e Hlen)) as Hw.
  destruct (write_entry cfg kvs1 e) as [[rw kvs2] a]. simpl in Hw.
  rewrite Hw. by destruct (room_for _ _ _).
Qed.

Lemma Delete_status kvs logs k :
  Inv cfg kvs logs →
  valid_key k = true →
  (Delete cfg kvs k).1 ≠ INVALID_ARGUMENT.
Proof using Hcfg.
  intros HI Hk. unfold Delete. rewrite Hk. simpl.
  destruct (find_key cfg kvs k) as [[i d]|]; [|done].
  case_bool_decide; [done|].
  destruct (next_transaction kvs) as [kvs1|] eqn:Hnext; [|done].
  destruct (next_transaction_spec _ _ _ HI Hnext) as (HI1 & _).
  set (e := mkEntry k "" (transaction_counter kvs1) true).
  assert (Hlen : 1 <= len (key e)) by (by apply valid_key_len in Hk as []).
  pose proof (write_entry_status kvs1 logs e HI1 (entry_size_pos e Hlen)
                (entry_size_aligned e Hlen)) as Hw.
  destruct (write_entry cfg kvs1 e) as [[rw kvs2] a]. simpl in Hw.
  rewrite Hw. by destruct (room_for _ _ _).
Qed.

Lemma invalid_key k :
  len k = 0 ∨ kMaxKeyLength < len k → valid_key k = false.
Proof.
  unfold valid_key. intros [H|H].
  - rewrite H. done.
  - apply andb_false_iff. right. by apply Z.leb_gt.
Qed.

Lemma valid_key_true k : 1 <= len k <= kMaxKeyLength → valid_key k = true.
Proof. unfold valid_key. rewrite andb_true_iff, !Z.leb_le. tauto. Qed.

(** **** The claims *)

(** C1: after any sequence of [Put] and [Delete] on a fresh store, the
    reference map following those that succeed, [Get] returns, byte for
    byte, the value the reference map has for a key and [NOT_FOUND] for a
    key it does not have; the items the store iterates over are the
    entries of the reference map, and their number is its size. *)
Theorem contents_match_reference ops :
  let kvs := (KvsTester.run cfg ops).1 in
  let m := (KvsTester.run cfg ops).2 in
  (∀ k v, m !! k = Some v →
     ∀ n, len v <= n → Get cfg kvs k n = (OK, v, len v)) ∧
  (∀ k, m !! k = None → ∀ n, Get cfg kvs k n = (NOT_FOUND, "", 0)) ∧
  items kvs ≡ₚ map_to_list m ∧
  size kvs = base.size m.
Proof using Hcfg.
  intros kvs m. destruct (run_spec ops) as (logs & HI & Hm).
  fold kvs m in HI, Hm. split; [|split; [|split]].
  - intros k v Hk n Hn. rewrite (Get_spec _ _ _ _ _ HI Hm), Hk.
    destruct (Z.ltb_spec n (len v)); [lia|].
    rewrite prefix_all; [done|]. unfold len in Hn. lia.
  - intros k Hk n. by rewrite (Get_spec _ _ _ _ _ HI Hm), Hk.
  - eauto using items_reference.
  - rewrite (size_items _ _ HI), <- length_map_to_list.
    by rewrite (items_reference _ _ _ HI Hm).
Qed.

(** C7: [Put] returns [INVALID_ARGUMENT] for an empty key, for a key of
    more than 64 bytes and for a value of more than [kMaxValueLength]
    bytes, and [Delete] for the same keys; with a key of 1 to 64 bytes
    (and, for [Put], a value within the limit) neither returns
    [INVALID_ARGUMENT]. *)
Theorem key_length_validation ops k v :
  let kvs := (KvsTester.run cfg ops).1 in
  (len k = 0 ∨ kMaxKeyLength < len k ∨ kMaxValueLength cfg < len v →
   Put cfg kvs k v = (INVALID_ARGUMENT, kvs)) ∧
  (len k = 0 ∨ kMaxKeyLength < len k →
   Delete cfg kvs k = (INVALID_ARGUMENT, kvs)) ∧
  (1 <= len k <= kMaxKeyLength →
   (len v <= kMaxValueLength cfg → (Put cfg kvs k v).1 ≠ INVALID_ARGUMENT) ∧
   (Delete cfg kvs k).1 ≠ INVALID_ARGUMENT).
Proof using Hcfg.
  intros kvs. destruct (run_spec ops) as (logs & HI & _). fold kvs in HI.
  split; [|split].
  - intros H. unfold Put.
    destruct (valid_key k) eqn:Hk; simpl; [|done].
    destruct H as [H|[H|H]].
    + by rewrite invalid_key in Hk by eauto.
    + by rewrite invalid_key in Hk by eauto.
    + by destruct (Z.ltb_spec (kMaxValueLength cfg) (len v)); [|lia].
  - intros H. unfold Delete. by rewrite invalid_key.
  - intros Hk. apply valid_key_true in Hk. split.
    + intros Hv. rewrite (Put_status _ _ _ _ HI Hk Hv).
      destruct (_ && _); [done|].
      destruct (next_transaction kvs); [|done]. by destruct (room_for _ _ _).
    + eauto using Delete_status.
Qed.

Lemma filter_all {A} (P : A → Prop) `{∀ x, Decision (P x)} (l : list A) :
  length (filter P l) = length l → Forall P l.
Proof.
  induction l as [|x l IH]; [by constructor|].
  rewrite filter_cons. pose proof (length_filter P l).
  case_decide; simpl; intros Hlen; [|lia].
  constructor; [done|]. apply IH. lia.
Qed.

(** C6, as amended: when the store holds [kMaxEntries] keys, a [Put] of
    a key it does not hold fails with [RESOURCE_EXHAUSTED] and changes
    nothing; a [Put] of a key it holds is not refused for the index being
    full: the transaction counter not being exhausted, it succeeds when
    room for the new entry can be allocated, at once or after one garbage
    collection, and fails with [RESOURCE_EXHAUSTED] when it cannot. *)
Theorem replacement_at_capacity ops k v kvs1 :
  let kvs := (KvsTester.run cfg ops).1 in
  let m := (KvsTester.run cfg ops).2 in
  base.size m = kMaxEntries cfg →
  1 <= len k <= kMaxKeyLength → len v <= kMaxValueLength cfg →
  next_transaction kvs = Some kvs1 →
  (m !! k = None → Put cfg kvs k v = (RESOURCE_EXHAUSTED, kvs)) ∧
  (is_Some (m !! k) →
   (Put cfg kvs k v).1 =
   if room_for cfg kvs1
        (entry_size cfg (mkEntry k v (transaction_counter kvs1) false))
   then OK else RESOURCE_EXHAUSTED).
Proof using Hcfg.
  intros kvs m Hfull Hk Hv Hnext.
  destruct (run_spec ops) as (logs & HI & Hm). fold kvs m in HI, Hm.
  apply valid_key_true in Hk.
  destruct (contents_match_reference ops) as (_ & _ & _ & Hsize).
  fold kvs m in Hsize.
  (* the index is full, of valid descriptors *)
  assert (Hlen : length (key_descriptors kvs) = kMaxEntries cfg ∧
                 Forall (λ d, state d = valid) (key_descriptors kvs)).
  { pose proof (inv_capacity _ _ _ HI) as Hcap.
    unfold resolved in Hcap. rewrite length_fmap in Hcap.
    unfold size in Hsize.
    pose proof (length_filter (λ d, state d = valid) (key_descriptors kvs)).
    split; [lia|]. apply (filter_all (λ d, state d = valid)). lia. }
  destruct Hlen as [Hlen Hvalid].
  split.
  - intros Hnone.
    assert (find_key cfg kvs k = None) as Hfind.
    { destruct (find_key cfg kvs k) as [[i d]|] eqn:Hfind; [exfalso|done].
      apply find_key_Some in Hfind as (Hi & e & He & Hke & Hr).
      rewrite Forall_forall in Hvalid.
      rewrite (Hvalid d) in Hr by (apply list_elem_of_lookup; eauto).
      assert (holds kvs k (value e)) as Hh.
      { exists (hash cfg k), e. split; [|done].
        apply list_elem_of_lookup. eauto. }
      apply Hm in Hh. congruence. }
    unfold Put. rewrite Hk. simpl.
    destruct (Z.ltb_spec (kMaxValueLength cfg) (len v)); [lia|].
    rewrite Hfind, bool_decide_true by done.
    by rewrite bool_decide_true by lia.
  - intros [v0 Hv0]. rewrite (Put_status _ _ _ _ HI Hk Hv), Hnext.
    assert (find_key cfg kvs k ≠ None) as Hfind.
    { intros Hfind. apply Hm in Hv0 as (h & e & Hin & Hke & _).
      apply (find_key_None _ _ _ HI Hfind).
      apply list_elem_of_fmap. exists (h, valid, Some e).
      split; [|done]. unfold key_of. simpl. by rewrite Hke. }
    by rewrite bool_decide_false by done.
Qed.

End with_config.

(** **** The claims on small stores *)

Lemma wf_basic : wf_Config KvsTester.basic.
Proof. by vm_compute. Qed.

Lemma wf_tiny : wf_Config KvsTester.tiny.
Proof. by vm_compute. Qed.

Lemma contents_match_reference_witness :
  let ops := [OpPut "a" "1"; OpPut "b" "2"; OpPut "a" "3"; OpDelete "b"] in
  let kvs := (KvsTester.run KvsTester.basic ops).1 in
  Get KvsTester.basic kvs "a" 65 = (OK, "3", len "3") ∧
  Get KvsTester.basic kvs "b" 65 = (NOT_FOUND, "", 0) ∧
  size kvs = 1%nat.
Proof.
  intros ops kvs.
  destruct (contents_match_reference KvsTester.basic wf_basic ops) as (H1 & H2 & _ & H4).
  split; [|split].
  - apply (H1 "a" "3"); [reflexivity|]. vm_compute. discriminate.
  - apply (H2 "b"). reflexivity.
  - exact H4.
Defined.

Lemma key_length_validation_witness :
  let kvs := (KvsTester.run KvsTester.basic [OpPut "a" "1"]).1 in
  Put KvsTester.basic kvs "" "x" = (INVALID_ARGUMENT, kvs) ∧
  Delete KvsTester.basic kvs "" = (INVALID_ARGUMENT, kvs) ∧
  (Put KvsTester.basic kvs "k" "x").1 ≠ INVALID_ARGUMENT.
Proof.
  intros kvs.
  destruct (key_length_validation KvsTester.basic wf_basic [OpPut "a" "1"] "" "x")
    as (H1 & H2 & _).
  destruct (key_length_validation KvsTester.basic wf_basic [OpPut "a" "1"] "k" "x")
    as (_ & _ & H3).
  split; [|split].
  - apply H1. by left.
  - apply H2. by left.
  - apply H3; by vm_compute.
Defined.

Lemma replacement_at_capacity_witness :
  let ops := [OpPut "a" "1"; OpPut "b" "2"] in
  let kvs := (KvsTester.run KvsTester.tiny ops).1 in
  Put KvsTester.tiny kvs "c" "9" = (RESOURCE_EXHAUSTED, kvs) ∧
  (Put KvsTester.tiny kvs "a" "9").1 = OK.
Proof.
  intros ops kvs.
  assert (Hnext : next_transaction kvs
                  = Some (mkKVS (partition kvs) (key_descriptors kvs)
                            (sector_descriptors kvs) 3)) by reflexivity.
  split.
  - apply (replacement_at_capacity KvsTester.tiny wf_tiny ops "c" "9" _
             eq_refl ltac:(by vm_compute) ltac:(by vm_compute) Hnext).
    reflexivity.
  - etrans.
    + apply (proj2 (replacement_at_capacity KvsTester.tiny wf_tiny ops "a" "9" _
                      eq_refl ltac:(by vm_compute) ltac:(by vm_compute) Hnext)).
      by eexists.
    + reflexivity.
Defined.

(** C6, as stated, fails: with two keys in an index of two descriptors,
    the 32 bytes left in the one sector in use do not take a 64-byte
    entry, garbage collection frees nothing, and the [Put] that replaces
    the value of ["a"] returns [RESOURCE_EXHAUSTED]. *)
Lemma replacement_without_room_fails :
  let ops := [OpPut "a" "1"; OpPut "b" "2"] in
  let kvs := (KvsTester.run KvsTester.tiny ops).1 in
  let m := (KvsTester.run KvsTester.tiny ops).2 in
  size kvs = kMaxEntries KvsTester.tiny ∧
  m !! "a" = Some "1" ∧
  Get KvsTester.tiny kvs "a" 65 = (OK, "1", 1) ∧
  (Put KvsTester.tiny kvs "a" "0123456789012345678901234567890123456789").1
    = RESOURCE_EXHAUSTED.
Proof. by vm_compute. Qed.

End KeyValueStoreProperties.

(** * Properties of the map test *)

Module KvsTesterProperties.
Import KeyValueStore KvsTester.

(** C8: [RandomPresentKey] returns the empty string when the reference
    map is empty, and otherwise the second component, the value, of the
    entry the iteration of the map starts with. *)
Theorem RandomPresentKey_returns_value
    (iteration : gmap string string → list (string * string)) t :
  (∀ m, iteration m ≡ₚ map_to_list m) →
  (map_ t = ∅ → RandomPresentKey iteration t = "") ∧
  (map_ t ≠ ∅ →
   ∃ k v, begin iteration (map_ t) = Some (k, v) ∧
          map_ t !! k = Some v ∧
          RandomPresentKey iteration t = v).
Proof.
  intros Horder. unfold RandomPresentKey, empty, begin. split.
  - intros ->. by rewrite bool_decide_true.
  - intros Hne. rewrite bool_decide_false by done.
    destruct (iteration (map_ t)) as [|[k v] rest] eqn:Hit.
    + exfalso. apply Hne, map_to_list_empty_iff.
      apply Permutation_nil_r. by rewrite <- Horder, Hit.
    + exists k, v. simpl. split; [done|]. split; [|done].
      apply elem_of_map_to_list. rewrite <- Horder, Hit. by left.
Qed.

Lemma RandomPresentKey_returns_value_witness :
  RandomPresentKey map_to_list (mkTester (kvs_ one_entry) ∅ ∅ 0 0) = "" ∧
  ∃ k v, begin map_to_list (map_ one_entry) = Some (k, v) ∧
         map_ one_entry !! k = Some v ∧
         RandomPresentKey map_to_list one_entry = v.
Proof.
  split.
  - by apply (RandomPresentKey_returns_value map_to_list
                (mkTester (kvs_ one_entry) ∅ ∅ 0 0)).
  - by apply (RandomPresentKey_returns_value map_to_list one_entry).
Defined.

(** What it returns need not be a key of the map. *)
Lemma RandomPresentKey_not_a_key :
  RandomPresentKey map_to_list one_entry = "value" ∧
  map_ one_entry !! "value" = None.
Proof. by vm_compute. Qed.

(** A [Put] of the tester that neither aborts nor sees an expectation
    fail leaves the store and the reference map as [step] has them. *)
Lemma Put_step cfg t key value t' :
  Put cfg t key value = Some t' →
  failures t' = failures t →
  (kvs_ t', map_ t') = step cfg (kvs_ t, map_ t) (OpPut key value).
Proof.
  unfold Put, step, record, ok, EXPECT_EQ, EXPECT, StartOperation, with_kvs.
  simpl.
  destruct (len value <=? kMaxValueLength); simpl;
    destruct (KeyValueStore.Put cfg (kvs_ t) key value) as [result kvs];
    simpl;
    destruct ((len key =? 0) || (kMaxKeyLength <? len key)); simpl;
    destruct result; simpl;
    repeat (case_bool_decide; simpl);
    intros; simplify_eq/=; try done; lia.
Qed.

(** The same for [Delete]. *)
Lemma Delete_step cfg t key t' :
  Delete cfg t key = Some t' →
  failures t' = failures t →
  (kvs_ t', map_ t') = step cfg (kvs_ t, map_ t) (OpDelete key).
Proof.
  unfold Delete, step, record, ok, EXPECT_EQ, EXPECT, StartOperation, with_kvs.
  simpl.
  destruct (KeyValueStore.Delete cfg (kvs_ t) key) as [result kvs];
    simpl;
    destruct ((len key =? 0) || (kMaxKeyLength <? len key)); simpl;
    destruct result; simpl;
    repeat (case_bool_decide; simpl);
    intros; simplify_eq/=; try done; lia.
Qed.

Lemma perform_failures cfg t op t' :
  perform cfg t op = Some t' → (failures t ≤ failures t')%nat.
Proof.
  destruct op as [key value|key]; simpl.
  - unfold Put, EXPECT_EQ, EXPECT, StartOperation, with_kvs. simpl.
    destruct (len value <=? kMaxValueLength); simpl;
      destruct (KeyValueStore.Put cfg (kvs_ t) key value) as [result kvs];
      simpl;
      destruct ((len key =? 0) || (kMaxKeyLength <? len key)); simpl;
      destruct result; simpl;
      repeat (case_bool_decide; simpl);
      intros; simplify_eq/=; lia.
  - unfold Delete, EXPECT_EQ, EXPECT, StartOperation, with_kvs. simpl.
    destruct (KeyValueStore.Delete cfg (kvs_ t) key) as [result kvs];
      simpl;
      destruct ((len key =? 0) || (kMaxKeyLength <? len key)); simpl;
      destruct result; simpl;
      repeat (case_bool_decide; simpl);
      intros; simplify_eq/=; lia.
Qed.

(** As long as the tester neither aborts nor sees an expectation fail,
    its store and its reference map are those of [run]. *)
Lemma perform_all_run cfg ops : ∀ t,
  perform_all cfg (fresh cfg) ops = Some t →
  failures t = 0%nat →
  (kvs_ t, map_ t) = run cfg ops.
Proof.
  unfold perform_all, run.
  induction ops as [|op ops IH] using rev_ind; intros t H Hf.
  - by injection H as <-.
  - rewrite foldl_app in H. rewrite foldl_app. simpl in *.
    destruct (foldl _ (Some (fresh cfg)) ops) as [t0|] eqn:H0; [|done].
    simpl in H. pose proof (perform_failures _ _ _ _ H) as Hle.
    rewrite <- (IH t0 eq_refl ltac:(lia)).
    destruct op as [key value|key]; simpl in H.
    + apply Put_step; [done|lia].
    + apply Delete_step; [done|lia].
Qed.

Lemma compare_item_passes t k v :
  map_ t !! k = Some v →
  c_string v = v → len v <= kMaxValueLength →
  compare_item t (k, v) = Returns t.
Proof.
  intros Hk Hc Hv. unfold compare_item, EXPECT_EQ, EXPECT. simpl. rewrite Hk.
  rewrite KeyValueStoreProperties.prefix_all
    by (unfold len, kMaxValueLength in *; lia).
  rewrite Hc. destruct (Z.ltb_spec (kMaxValueLength + 1) (len v)); [lia|].
  destruct (Z.eqb_spec (len v) (kMaxValueLength + 1)); [lia|].
  rewrite bool_decide_true by done.
  by destruct (String.eqb_spec v v).
Qed.

Lemma compare_items_pass t items : ∀ count,
  Forall (λ item : string * string,
            map_ t !! item.1 = Some item.2 ∧
            c_string item.2 = item.2 ∧ len item.2 <= kMaxValueLength) items →
  compare_items t count items = Returns (t, (count + length items)%nat).
Proof.
  induction items as [|[k v] items IH]; intros count Hall; simpl.
  - by rewrite Nat.add_0_r.
  - apply Forall_cons in Hall as [(Hk & Hc & Hv) Hall]. simpl in *.
    rewrite (compare_item_passes _ _ _ Hk Hc Hv). simpl.
    rewrite IH by done. do 2 f_equal. lia.
Qed.

(** On the store and the reference map that a sequence of operations
    leaves, [CompareContents] sees no expectation fail, the values being
    strings of at most [kMaxValueLength] bytes without a NUL, as the tests
    make them. *)
Lemma CompareContents_passes cfg ops t :
  wf_Config cfg →
  (kvs_ t, map_ t) = run cfg ops →
  (∀ k v, map_ t !! k = Some v →
          c_string v = v ∧ len v <= kMaxValueLength) →
  CompareContents t = Returns t.
Proof.
  intros Hcfg Hrun Hvalues.
  destruct (KeyValueStoreProperties.contents_match_reference cfg Hcfg ops)
    as (_ & _ & Hitems & Hsize).
  rewrite <- Hrun in Hitems, Hsize. simpl in *.
  unfold CompareContents, EXPECT.
  rewrite bool_decide_true by done.
  rewrite compare_items_pass.
  - simpl. rewrite bool_decide_true; [done|].
    by rewrite Hitems, length_map_to_list.
  - apply Forall_forall. intros [k v] Hin. simpl.
    rewrite Hitems in Hin. apply elem_of_map_to_list in Hin.
    split; [done|]. by apply (Hvalues k).
Qed.

(** So [CompareContents] sees no expectation fail as long as none
    failed before. *)
Lemma tester_CompareContents cfg ops t :
  wf_Config cfg →
  perform_all cfg (fresh cfg) ops = Some t →
  failures t = 0%nat →
  (∀ k v, map_ t !! k = Some v →
          c_string v = v ∧ len v <= kMaxValueLength) →
  CompareContents t = Returns t.
Proof. eauto using CompareContents_passes, perform_all_run. Qed.

(** At capacity the tester expects [RESOURCE_EXHAUSTED] from every [Put]
    with a key of valid length: when the store replaces the value of a
    key it holds, the expectation fails and the reference map keeps the
    old value. *)
Lemma Put_at_capacity_expects_exhausted :
  let cfg := tiny in
  match perform_all cfg (fresh cfg) [OpPut "a" "1"; OpPut "b" "2"] with
  | Some t2 =>
      failures t2 = 0%nat ∧
      base.size (map_ t2) = max_size cfg ∧
      match Put cfg t2 "a" "9" with
      | Some t3 =>
          failures t3 = 1%nat ∧
          map_ t3 !! "a" = Some "1" ∧
          Get cfg (kvs_ t3) "a" 65 = (OK, "9", 1)
      | None => False
      end
  | None => False
  end.
Proof. vm_compute. repeat split. Qed.

End KvsTesterProperties.

(** * The fake flash: how its calls compose *)

Module FakeFlashDeviceProperties.
Import InMemoryFakeFlash FakeFlashDevice FakeFlashProperties.

(** The loop of [Write] runs to its end on a target of [0xFF] bytes. *)
Lemma check_erased_erased buffer_ address remaining : ∀ i,
  wf_buffer buffer_ → 0 <= address → 0 <= i →
  (∀ j : nat, (j < remaining)%nat →
     buffer_ !! Z.to_nat (address + i + Z.of_nat j) = Some kErasedByte) →
  check_erased buffer_ address i remaining = Returns true.
Proof.
  unfold wf_buffer.
  induction remaining as [|n IH]; intros i Hwf Ha Hi Hall; [done|].
  simpl. pose proof (Hall 0%nat ltac:(lia)) as H0.
  rewrite Z.add_0_r in H0. apply lookup_lt_Some in H0 as Hlt.
  destruct (Z.leb_spec (2 ^ 32) i); [lia|].
  rewrite to_uint32_small by lia.
  pose proof (proj2 (load_Returns buffer_ (address + i) kErasedByte)) as ->;
    [|split; [lia|done]].
  simpl. apply IH; [done|lia|lia|].
  intros j Hj. specialize (Hall (S j) ltac:(lia)).
  by replace (address + (i + 1) + Z.of_nat j)
    with (address + i + Z.of_nat (S j)) by lia.
Qed.

(** What a [Write] that returned [OK] found and did. *)
Lemma Write_OK fm buffer_ address data r buffer' :
  Write fm buffer_ address data = Returns (r, buffer') →
  status r = OK →
  write_rejected fm address (Z.of_nat (length data)) = Returns false ∧
  check_erased buffer_ address 0 (length data) = Returns true ∧
  r = of_size (Z.of_nat (length data)) ∧
  in_buffer buffer_ address (Z.of_nat (length data)) = true ∧
  memcpy_to buffer_ address data = Returns buffer'.
Proof.
  intros H Hr. apply Write_Returns in H. cbv zeta in H.
  destruct H as [(_ & -> & _)|[(_ & _ & -> & _)|(Hrej & Hchk & -> & Hcpy)]];
    try discriminate.
  repeat split; try done.
  unfold memcpy_to in Hcpy. by destruct (in_buffer _ _ _).
Qed.

Lemma write_rejected_false fm address len :
  write_rejected fm address len = Returns false →
  past_end fm address len = false ∧ alignment_bytes fm ≠ 0 ∧
  address mod alignment_bytes fm = 0 ∧ len mod alignment_bytes fm = 0.
Proof.
  unfold write_rejected. destruct (past_end _ _ _); [discriminate|].
  intros H. inv_bind H. apply size_mod_Returns in Ha as [Hal ->].
  destruct (Z.eqb_spec (address mod alignment_bytes fm) 0); [|discriminate].
  simpl in H. inv_bind H. apply size_mod_Returns in Ha as [_ ->].
  destruct (Z.eqb_spec (len mod alignment_bytes fm) 0); [done|discriminate].
Qed.

Lemma write_rejected_false_2 fm address len :
  past_end fm address len = false → alignment_bytes fm ≠ 0 →
  address mod alignment_bytes fm = 0 → len mod alignment_bytes fm = 0 →
  write_rejected fm address len = Returns false.
Proof.
  intros Hp Hal Ha Hl. unfold write_rejected, size_mod. rewrite Hp.
  destruct (Z.eqb_spec (alignment_bytes fm) 0); [done|]. simpl.
  rewrite Ha. simpl. by rewrite Hl.
Qed.

(** X1: a [Write] that returns [OK] reports the size of [data], and a
    [Read] of as many bytes from the same address then returns [OK] and
    the very bytes written. *)
Theorem Write_then_Read fm buffer_ address data r buffer' output :
  Write fm buffer_ address data = Returns (r, buffer') →
  status r = OK →
  length output = length data →
  byte_count r = Z.of_nat (length data) ∧
  ∃ r', Read fm buffer' address output = Returns (r', data) ∧ status r' = OK.
Proof.
  intros HW Hr Hlen.
  apply Write_OK in HW as (Hrej & _ & -> & Hin & Hcpy); [|done].
  split; [done|].
  apply write_rejected_false in Hrej as (Hp & _).
  pose proof (memcpy_to_length _ _ _ _ Hcpy) as Hl.
  unfold Read. rewrite Hlen, Hp. unfold memcpy_from.
  assert (Hin' : in_buffer buffer' address (Z.of_nat (length data)) = true).
  { apply in_buffer_true. apply in_buffer_true in Hin. lia. }
  rewrite Hin'. simpl. exists (of_status OK). split; [|reflexivity].
  do 2 f_equal.
  unfold memcpy_to in Hcpy. rewrite Hin in Hcpy. injection Hcpy as <-.
  apply in_buffer_true in Hin.
  rewrite drop_app_length' by (rewrite length_take; lia).
  rewrite Nat2Z.id. by rewrite take_app_length.
Qed.

Lemma Write_then_Read_witness :
  let fm := mkFlashMemory 8 2 2 8 in
  byte_count (of_size 2) = 2 ∧
  ∃ r', Read fm [xff; xff; x12; x34; xff; xff; xff; xff] 2 [x00; x00]
        = Returns (r', [x12; x34]) ∧ status r' = OK.
Proof.
  intros fm.
  apply (Write_then_Read fm (replicate 8 xff) 2 [x12; x34] (of_size 2)
           [xff; xff; x12; x34; xff; xff; xff; xff] [x00; x00]);
    reflexivity.
Defined.

(** X2: a [Write] that returns [OK] was aligned, found its whole target
    in [buffer_] and erased, stored [data] there, and changed no byte
    outside the target. *)
Theorem Write_OK_stores_data fm buffer_ address data r buffer' :
  Write fm buffer_ address data = Returns (r, buffer') →
  status r = OK →
  let len := Z.of_nat (length data) in
  address mod alignment_bytes fm = 0 ∧ len mod alignment_bytes fm = 0 ∧
  0 <= address ∧ address + len <= Z.of_nat (length buffer_) ∧
  length buffer' = length buffer_ ∧
  (wf_buffer buffer_ →
   ∀ i : nat, (i < length data)%nat →
     buffer_ !! (Z.to_nat address + i)%nat = Some kErasedByte) ∧
  (∀ i : nat, (i < length data)%nat →
     buffer' !! (Z.to_nat address + i)%nat = data !! i) ∧
  (∀ i : nat,
     ¬ (Z.to_nat address <= i < Z.to_nat address + length data)%nat →
     buffer' !! i = buffer_ !! i).
Proof.
  intros HW Hr len.
  apply Write_OK in HW as (Hrej & Hchk & -> & Hin & Hcpy); [|done].
  apply write_rejected_false in Hrej as (_ & _ & Ha & Hl).
  apply in_buffer_true in Hin as (? & ? & ?).
  split; [done|]. split; [done|]. split; [done|]. split; [done|].
  split; [eauto using memcpy_to_length|]. split; [|split].
  - intros Hwf i Hi. unfold wf_buffer in Hwf.
    pose proof (check_erased_true _ _ _ _ Hchk i Hi) as Hload.
    rewrite to_uint32_small in Hload by (fold len in H1; lia).
    apply load_Returns in Hload as [_ Hload].
    by replace (Z.to_nat (address + 0 + Z.of_nat i))
      with (Z.to_nat address + i)%nat in Hload by lia.
  - intros i Hi. eauto using memcpy_to_inside.
  - intros i Hi. eauto using memcpy_to_outside.
Qed.

Lemma Write_OK_stores_data_witness :
  let fm := mkFlashMemory 8 2 2 8 in
  let buffer_ := replicate 8 xff in
  let data := [x12; x34] in
  let buffer' := [xff; xff; x12; x34; xff; xff; xff; xff] in
  2 mod alignment_bytes fm = 0 ∧ 2 mod alignment_bytes fm = 0 ∧
  0 <= 2 ∧ 2 + 2 <= Z.of_nat (length buffer_) ∧
  length buffer' = length buffer_ ∧
  (wf_buffer buffer_ →
   ∀ i : nat, (i < length data)%nat →
     buffer_ !! (Z.to_nat 2 + i)%nat = Some kErasedByte) ∧
  (∀ i : nat, (i < length data)%nat →
     buffer' !! (Z.to_nat 2 + i)%nat = data !! i) ∧
  (∀ i : nat,
     ¬ (Z.to_nat 2 <= i < Z.to_nat 2 + length data)%nat →
     buffer' !! i = buffer_ !! i).
Proof.
  intros fm buffer_ data buffer'.
  apply (Write_OK_stores_data fm buffer_ 2 data (of_size 2) buffer');
    reflexivity.
Defined.

(** What an [Erase] that returned [OK] did, the arguments being such as
    the device can hold. *)
Lemma Erase_OK fm buffer_ address num_sectors buffer' :
  wf_FlashMemory fm → wf_buffer buffer_ →
  is_uint32 address → is_size_t num_sectors →
  Erase fm buffer_ address num_sectors = Returns (OK, buffer') →
  let ss := sector_size_bytes fm in
  address + num_sectors * ss <= Z.of_nat (length buffer_) ∧
  memset buffer_ address kErasedByte (num_sectors * ss) = Returns buffer'.
Proof.
  intros Hfm Hwf Ha Hn H ss.
  apply Erase_Returns in H as [Hnz H]. fold ss in Hnz, H.
  destruct H as [(_ & [=] & _)|[(_ & _ & [=] & _)|[(_ & _ & _ & _ & [=] & _)|H]]].
  destruct H as (Hmod & Hle & Hal & Hmod' & _ & Hset).
  assert (Hin : in_buffer buffer_ address (to_size_t (ss * num_sectors)) = true).
  { unfold memset in Hset. by destruct (in_buffer _ _ _). }
  destruct (Erase_OK_no_wrap fm buffer_ address num_sectors
              Hfm Hwf Ha Hn Hnz Hmod Hle Hin) as [Hle' Hlen].
  fold ss in Hle', Hlen. rewrite Hlen in Hset, Hin.
  apply in_buffer_true in Hin. split; [lia|done].
Qed.

(** X3: erasing is what makes writing possible.  After an [Erase] that
    returned [OK], every [Write] into the erased sectors that passes the
    bounds and alignment check returns [OK]. *)
Theorem Erase_then_Write fm buffer_ address num_sectors buffer' target data :
  wf_FlashMemory fm → wf_buffer buffer_ →
  is_uint32 address → is_size_t num_sectors →
  Erase fm buffer_ address num_sectors = Returns (OK, buffer') →
  let len := Z.of_nat (length data) in
  address <= target →
  target + len <= address + num_sectors * sector_size_bytes fm →
  write_rejected fm target len = Returns false →
  ∃ r buffer'',
    Write fm buffer' target data = Returns (r, buffer'') ∧
    status r = OK ∧ byte_count r = len.
Proof.
  intros Hfm Hwf Ha Hn HE len Hlo Hhi Hrej.
  pose proof (Erase_length _ _ _ _ _ _ HE) as Hlen.
  apply Erase_OK in HE as [Hfit Hset]; try done.
  assert (Hwf' : wf_buffer buffer') by (unfold wf_buffer in *; lia).
  destruct Ha as [Ha0 _].
  unfold Write. fold len. rewrite Hrej. simpl.
  rewrite check_erased_erased; [|done|lia|lia|].
  - simpl. unfold memcpy_to. fold len.
    pose proof (proj2 (in_buffer_true buffer' target len)) as ->;
      [by do 2 eexists|]. lia.
  - intros j Hj. eapply memset_inside; [exact Hset|]. lia.
Qed.

Lemma Erase_then_Write_witness :
  let fm := mkFlashMemory 4 3 2 12 in
  ∃ r buffer'',
    Write fm (replicate 4 x00 ++ replicate 4 xff ++ replicate 4 x00)
      6 [x12; x34] = Returns (r, buffer'') ∧
    status r = OK ∧ byte_count r = 2.
Proof.
  intros fm.
  apply (Erase_then_Write fm (replicate 12 x00) 4 1
           (replicate 4 x00 ++ replicate 4 xff ++ replicate 4 x00)
           6 [x12; x34]); by vm_compute.
Defined.

(** X4: after an [Erase] that returned [OK], a [Read] from the erased
    sectors that passes the bounds check returns [OK] and nothing but
    [0xFF] bytes. *)
Theorem Erase_then_Read fm buffer_ address num_sectors buffer' target output :
  wf_FlashMemory fm → wf_buffer buffer_ →
  is_uint32 address → is_size_t num_sectors →
  Erase fm buffer_ address num_sectors = Returns (OK, buffer') →
  let len := Z.of_nat (length output) in
  address <= target →
  target + len <= address + num_sectors * sector_size_bytes fm →
  past_end fm target len = false →
  ∃ r,
    Read fm buffer' target output
    = Returns (r, replicate (length output) kErasedByte) ∧
    status r = OK.
Proof.
  intros Hfm Hwf Ha Hn HE len Hlo Hhi Hp.
  pose proof (Erase_length _ _ _ _ _ _ HE) as Hlen.
  apply Erase_OK in HE as [Hfit Hset]; try done.
  destruct Ha as [Ha0 _].
  unfold Read. fold len. rewrite Hp. unfold memcpy_from.
  pose proof (proj2 (in_buffer_true buffer' target len)) as ->; [|lia].
  simpl. exists (of_status OK). split; [|reflexivity]. do 2 f_equal.
  apply list_eq. intros i.
  destruct (decide (i < length output)%nat) as [Hi|Hi].
  - rewrite lookup_take_lt by lia. rewrite lookup_drop.
    rewrite lookup_replicate_2 by done.
    replace (Z.to_nat target + i)%nat
      with (Z.to_nat (target + Z.of_nat i)) by lia.
    eapply memset_inside; [exact Hset|]. lia.
  - rewrite lookup_take_ge by lia. symmetry.
    apply lookup_ge_None. rewrite length_replicate. lia.
Qed.

Lemma Erase_then_Read_witness :
  let fm := mkFlashMemory 4 3 2 12 in
  ∃ r,
    Read fm (replicate 4 x00 ++ replicate 4 xff ++ replicate 4 x00)
      5 [x00; x00; x00]
    = Returns (r, replicate 3 kErasedByte) ∧ status r = OK.
Proof.
  intros fm.
  apply (Erase_then_Read fm (replicate 12 x00) 4 1
           (replicate 4 x00 ++ replicate 4 xff ++ replicate 4 x00)
           5 [x00; x00; x00]); by vm_compute.
Defined.

(** X5: flash is written once.  After a [Write] that returned [OK] and
    stored a byte other than [0xFF], a second [Write] of as many bytes to
    the same address returns [UNKNOWN] and changes nothing, until the
    sector is erased. *)
Theorem Write_twice_Unknown fm buffer_ address data r buffer' data' :
  wf_buffer buffer_ →
  Write fm buffer_ address data = Returns (r, buffer') →
  status r = OK →
  (∃ b, b ∈ data ∧ b ≠ kErasedByte) →
  length data' = length data →
  ∃ r', Write fm buffer' address data' = Returns (r', buffer') ∧
        status r' = UNKNOWN.
Proof.
  intros Hwf HW Hr (b & Hb & Hne) Hlen.
  apply Write_OK in HW as (Hrej & _ & _ & Hin & Hcpy); [|done].
  pose proof (memcpy_to_length _ _ _ _ Hcpy) as Hl.
  assert (Hwf' : wf_buffer buffer') by (unfold wf_buffer in *; lia).
  apply in_buffer_true in Hin as (Ha & _ & Hfit).
  apply list_elem_of_lookup in Hb as [i Hi].
  apply lookup_lt_Some in Hi as Hlt.
  unfold Write. rewrite Hlen, Hrej. simpl.
  destruct (check_erased_returns buffer' address 0 (length data))
    as [erased Hchk]; [lia..|done|].
  rewrite Hchk. simpl.
  rewrite (check_erased_written buffer' address (length data) erased);
    [by eexists|done| |done].
  exists (Z.of_nat i), b. split; [done|]. split; [lia|]. split; [|done].
  replace (Z.to_nat (address + Z.of_nat i))
    with (Z.to_nat address + i)%nat by lia.
  by rewrite (memcpy_to_inside _ _ _ _ _ Hcpy Hlt).
Qed.

Lemma Write_twice_Unknown_witness :
  let fm := mkFlashMemory 8 2 2 8 in
  let buffer' := [xff; xff; x12; x34; xff; xff; xff; xff] in
  ∃ r', Write fm buffer' 2 [xff; x00] = Returns (r', buffer') ∧
        status r' = UNKNOWN.
Proof.
  intros fm buffer'.
  apply (Write_twice_Unknown fm (replicate 8 xff) 2 [x12; x34] (of_size 2)
           buffer' [xff; x00]); try reflexivity.
  exists x12. split; [by left | discriminate].
Defined.

(** X6: the sum [address / sector_size_bytes() + num_sectors] that [Erase]
    tests against the sector count is computed on [size_t]: a sector
    count so large that the sum wraps to a number of sectors the device
    has passes the test, and the [memset] then runs past the end of
    [buffer_]. *)
Theorem Erase_wrapped_count_passes fm buffer_ address num_sectors :
  wf_buffer buffer_ →
  let ss := sector_size_bytes fm in
  0 < ss → alignment_bytes fm ≠ 0 →
  is_uint32 address → 0 < address →
  address mod ss = 0 → address mod alignment_bytes fm = 0 →
  is_size_t num_sectors →
  2 ^ 64 <= address / ss + num_sectors →
  address / ss + num_sectors - 2 ^ 64 <= sector_count fm →
  Erase fm buffer_ address num_sectors = Undefined.
Proof.
  intros Hwf ss Hss Hal [Ha0 Ha1] Hpos Hmod Hmod' [Hn0 Hn1] Hwrap Hle.
  unfold wf_buffer, size_t_bits in *.
  assert (Hq : address = ss * (address / ss))
    by (apply Z.div_exact; [lia|exact Hmod]).
  assert (0 <= address / ss) by (apply Z.div_pos; lia).
  assert (address / ss <= address) by nia.
  unfold Erase, size_mod, size_div. fold ss.
  destruct (Z.eqb_spec ss 0); [lia|]. simpl. rewrite Hmod. simpl.
  assert (Hsum : to_size_t (address / ss + num_sectors)
                 = address / ss + num_sectors - 2 ^ 64).
  { unfold to_size_t, size_t_bits.
    symmetry. apply (Z.mod_unique _ _ 1); lia. }
  rewrite Hsum.
  destruct (Z.ltb_spec (sector_count fm)
              (address / ss + num_sectors - 2 ^ 64)); [lia|].
  destruct (Z.eqb_spec (alignment_bytes fm) 0); [done|]. simpl.
  rewrite Hmod'. simpl.
  set (k := 2 ^ 64 - num_sectors).
  assert (Hk : 1 <= k <= address / ss) by (unfold k; lia).
  assert (Hsk : 0 < ss * k <= address) by nia.
  assert (Hlen : to_size_t (ss * num_sectors) = 2 ^ 64 - ss * k).
  { unfold to_size_t, size_t_bits. symmetry.
    apply (Z.mod_unique _ _ (ss - 1)); [lia|]. unfold k. lia. }
  rewrite Hlen. unfold memset.
  destruct (in_buffer buffer_ address (2 ^ 64 - ss * k)) eqn:Hin; [|done].
  apply in_buffer_true in Hin. lia.
Qed.

Lemma Erase_wrapped_count_passes_witness :
  Erase (mkFlashMemory 4 3 2 12) (replicate 12 x00) 4 (2 ^ 64 - 1)
  = Undefined.
Proof.
  apply (Erase_wrapped_count_passes (mkFlashMemory 4 3 2 12)
           (replicate 12 x00) 4 (2 ^ 64 - 1)); by vm_compute.
Defined.

Lemma call_returns fm buffer_ c :
  consistent fm buffer_ → in_range c → returns (call fm buffer_ c).
Proof.
  intros (Hss & Hal & Hsc & Hsec & [Hb0 Hb1] & Hwf) Hc.
  unfold wf_buffer in Hwf.
  destruct c as [address n|address output|address data]; simpl in *.
  - destruct Hc as [[Ha0 Ha1] [Hn0 Hn1]].
    set (ss := sector_size_bytes fm) in *.
    assert (0 <= address / ss) by (apply Z.div_pos; lia).
    assert (address / ss <= address)
      by (apply Z.div_le_upper_bound; [lia|nia]).
    unfold Erase, size_mod, size_div. fold ss.
    destruct (Z.eqb_spec ss 0); [lia|]. simpl.
    destruct (Z.eqb_spec (address mod ss) 0) as [Hmod|]; simpl;
      [|by eexists].
    rewrite to_size_t_small by (unfold is_size_t, size_t_bits; lia).
    destruct (Z.ltb_spec (sector_count fm) (address / ss + n));
      [by eexists|].
    destruct (Z.eqb_spec (alignment_bytes fm) 0); [lia|]. simpl.
    destruct (negb (_ =? 0)); simpl; [by eexists|].
    assert (Hq : address = ss * (address / ss))
      by (apply Z.div_exact; [lia|exact Hmod]).
    assert (ss * n <= sector_count fm * ss) by nia.
    rewrite to_size_t_small
      by (unfold is_size_t, size_t_bits; split; [nia|lia]).
    unfold memset.
    pose proof (proj2 (in_buffer_true buffer_ address (ss * n))) as ->;
      [by eexists|].
    split; [lia|]. split; [nia|nia].
  - destruct Hc as [[Ha0 Ha1] Hn].
    unfold Read, past_end.
    rewrite !to_size_t_small by (unfold is_size_t, size_t_bits; lia).
    destruct (Z.leb_spec (sector_count fm * size_bytes fm)
                (address + Z.of_nat (length output))); simpl; [by eexists|].
    unfold memcpy_from.
    pose proof (proj2 (in_buffer_true buffer_ address
                         (Z.of_nat (length output)))) as ->;
      [by eexists|lia].
  - destruct Hc as [[Ha0 Ha1] Hn].
    destruct (past_end fm address (Z.of_nat (length data))) eqn:Hp.
    + unfold Write, write_rejected. rewrite Hp. by eexists.
    + unfold past_end in Hp.
      rewrite !to_size_t_small in Hp
        by (unfold is_size_t, size_t_bits; lia).
      apply Z.leb_gt in Hp.
      destruct (Write_returns fm buffer_ address data) as [[r b] Hr];
        [done|lia|apply in_buffer_true; lia|].
      rewrite Hr. by eexists.
Qed.

(** X7: the three calls stay within [buffer_].  When the accessors
    describe no more than [buffer_] holds and the sizes are not zero, every
    sequence of calls with arguments in range returns: there is then no
    division by zero, no access outside [buffer_] and no loop without
    end. *)
Theorem calls_stay_within_buffer fm cs : ∀ buffer_,
  consistent fm buffer_ → Forall in_range cs →
  returns (run fm buffer_ cs).
Proof.
  induction cs as [|c cs IH]; intros buffer_ Hfm Hcs; simpl; [by eexists|].
  apply Forall_cons in Hcs as [Hc Hcs].
  destruct (call_returns fm buffer_ c Hfm Hc) as [[st b] Hr].
  rewrite Hr. simpl. apply IH; [|done].
  apply call_length in Hr.
  destruct Hfm as (? & ? & ? & ? & ? & Hwf).
  unfold consistent, wf_buffer in *. rewrite Hr. done.
Qed.

Lemma calls_stay_within_buffer_witness :
  returns (run (mkFlashMemory 16 1 4 16) (replicate 16 x00)
             [CallErase 0 1; CallWrite 4 [x01; x02; x03; x04];
              CallRead 4 [x00; x00]; CallWrite 4 [x01; x02; x03; x04];
              CallErase 16 1; CallRead 15 [x00; x00]]).
Proof.
  apply (calls_stay_within_buffer (mkFlashMemory 16 1 4 16)).
  - unfold consistent, wf_buffer. simpl. lia.
  - unfold in_range, is_uint32. repeat constructor; simpl; lia.
Defined.

End FakeFlashDeviceProperties.

(** * Properties of the map test over any store *)

Module MapTestProperties.
Import MapTest.

Section any_store.
Context {Kvs : Type} {store : Store Kvs}.

(** *** Sequences of operations *)

Lemma foldl_perform_bind (acc : exec (Tester Kvs)) ops :
  foldl (λ acc op, acc ≫= λ t, perform t op) acc ops
  = acc ≫= λ t, perform_all t ops.
Proof.
  revert acc. induction ops as [|op ops IH]; intros acc; simpl.
  - by destruct acc.
  - rewrite IH. destruct acc as [t|why]; simpl; [|done].
    unfold perform_all. simpl. by rewrite IH.
Qed.

Lemma perform_all_app (t : Tester Kvs) ops1 ops2 :
  perform_all t (ops1 ++ ops2)
  = perform_all t ops1 ≫= λ t', perform_all t' ops2.
Proof.
  unfold perform_all at 1. rewrite foldl_app.
  by rewrite foldl_perform_bind.
Qed.

Lemma perform_all_cons (t : Tester Kvs) op ops :
  perform_all t (op :: ops) = perform t op ≫= λ t', perform_all t' ops.
Proof. unfold perform_all at 1. simpl. by rewrite foldl_perform_bind. Qed.

(** A property that every operation keeps is kept by a sequence. *)
Lemma perform_all_keeps (P : Tester Kvs → Prop) :
  (∀ t op t', P t → perform t op = Done t' → P t') →
  ∀ ops t t', P t → perform_all t ops = Done t' → P t'.
Proof.
  intros Hstep. induction ops as [|op ops IH]; intros t t' HP Hall.
  - by injection Hall as <-.
  - rewrite perform_all_cons in Hall.
    destruct (perform t op) as [t1|] eqn:Hop; [|done].
    simpl in Hall. eauto.
Qed.

Lemma construct_Done kvs (t : Tester Kvs) :
  construct kvs = Done t → map_ t = ∅ ∧ deleted_ t = ∅.
Proof.
  unfold construct, EXPECT_EQ, EXPECT, with_kvs.
  destruct (partition_Erase kvs) as [erased kvs1].
  destruct (bool_decide (OK = erased)); simpl;
    destruct (kvs_Init kvs1) as [result kvs2];
    destruct (bool_decide (OK = result)); simpl;
    destruct (ok result); simpl; intros; by simplify_eq/=.
Qed.

(** The cases of [Put], [Delete] and [Init]. *)
Ltac cases_of_Put t key value :=
  unfold Put, EXPECT_EQ, EXPECT, StartOperation, with_kvs, ok, empty;
  simpl;
  destruct (String.length value <=? kMaxValueLength)%nat; simpl;
  destruct (kvs_Put (kvs_ t) key value) as [result kvs] eqn:Hstore; simpl;
  destruct (invalid_key key) eqn:Hkey; simpl;
  destruct result; simpl;
  repeat (case_bool_decide; simpl).

Ltac cases_of_Delete t key :=
  unfold Delete, EXPECT_EQ, EXPECT, StartOperation, with_kvs, ok, empty;
  simpl;
  destruct (kvs_Delete (kvs_ t) key) as [result kvs] eqn:Hstore; simpl;
  destruct (invalid_key key) eqn:Hkey; simpl;
  destruct result; simpl;
  repeat (case_bool_decide; simpl).

Ltac cases_of_Init t :=
  unfold Init, EXPECT_EQ, EXPECT, StartOperation, with_kvs;
  simpl;
  destruct (kvs_Init (kvs_ t)) as [result kvs] eqn:Hstore; simpl;
  repeat (case_bool_decide; simpl).

Lemma Init_map (t : Tester Kvs) :
  map_ (Init t) = map_ t ∧ deleted_ (Init t) = deleted_ t.
Proof. by cases_of_Init t. Qed.

(** *** The keys deleted and the keys of the map *)

Lemma disjoint_insert (m : gmap string string) (d : gset string) k v :
  dom m ## d → dom (<[k:=v]> m) ## d ∖ {[k]}.
Proof.
  rewrite !elem_of_disjoint. intros Hd x Hx Hxd.
  rewrite dom_insert_L in Hx.
  apply elem_of_difference in Hxd as [Hxd Hne].
  apply elem_of_union in Hx as [Hx|Hx]; [by apply Hne | by apply (Hd x)].
Qed.

Lemma disjoint_delete (m : gmap string string) (d : gset string) k :
  dom m ## d → dom (delete k m) ## d ∪ {[k]}.
Proof.
  rewrite !elem_of_disjoint. intros Hd x Hx Hxd.
  rewrite dom_delete_L in Hx.
  apply elem_of_difference in Hx as [Hx Hne].
  apply elem_of_union in Hxd as [Hxd|Hxd]; [by apply (Hd x) | by apply Hne].
Qed.

Lemma perform_disjoint (t : Tester Kvs) op t' :
  dom (map_ t) ## deleted_ t → perform t op = Done t' →
  dom (map_ t') ## deleted_ t'.
Proof.
  intros Hinv. destruct op as [|key value|key]; simpl.
  - intros [= <-]. by destruct (Init_map t) as [-> ->].
  - cases_of_Put t key value; intros; simplify_eq/=; try done;
      by apply disjoint_insert.
  - cases_of_Delete t key; intros; simplify_eq/=; try done;
      by apply disjoint_delete.
Qed.

Lemma perform_not_DeletedTwice (t : Tester Kvs) op :
  dom (map_ t) ## deleted_ t → perform t op ≠ Aborted DeletedTwice.
Proof.
  intros Hinv. destruct op as [|key value|key]; simpl; [done| |].
  - by cases_of_Put t key value.
  - assert (Hnot : map_ t !! key ≠ None → key ∈ deleted_ t → False).
    { intros Hin Hd. apply not_eq_None_Some, elem_of_dom in Hin.
      by apply (proj1 (elem_of_disjoint _ _) Hinv key). }
    cases_of_Delete t key; try done; intros _; by apply Hnot.
Qed.

(** X8: from its construction on, whatever the store answers, the tester
    never has a key both in [map_] and in [deleted_]; so the abort of
    [Delete] for a key that was already deleted is never reached. *)
Theorem deleted_keys_not_in_map kvs (t0 : Tester Kvs) ops :
  construct kvs = Done t0 →
  (∀ t, perform_all t0 ops = Done t → dom (map_ t) ## deleted_ t) ∧
  perform_all t0 ops ≠ Aborted DeletedTwice.
Proof.
  intros Hnew. apply construct_Done in Hnew as [Hm Hd].
  assert (H0 : dom (map_ t0) ## deleted_ t0) by (rewrite Hm, Hd; set_solver).
  clear Hm Hd. split.
  - intros t. by apply (perform_all_keeps _ perform_disjoint).
  - revert t0 H0. induction ops as [|op ops IH]; intros t0 H0; [done|].
    rewrite perform_all_cons.
    destruct (perform t0 op) as [t1|why] eqn:Hop; simpl.
    + eauto using perform_disjoint.
    + intros [= ->]. by eapply perform_not_DeletedTwice.
Qed.

(** *** The keys of the map *)

Lemma perform_valid_keys (t : Tester Kvs) op t' :
  (∀ k, is_Some (map_ t !! k) → invalid_key k = false) →
  perform t op = Done t' →
  ∀ k, is_Some (map_ t' !! k) → invalid_key k = false.
Proof.
  intros Hinv. destruct op as [|key value|key]; simpl.
  - intros [= <-]. by destruct (Init_map t) as [-> _].
  - cases_of_Put t key value; intros; simplify_eq/=; eauto;
      match goal with
      | Hk : is_Some (<[key:=value]> (map_ t) !! ?k) |- _ =>
          destruct (decide (key = k)) as [<-|];
          [done|rewrite lookup_insert_ne in Hk by done; eauto]
      end.
  - cases_of_Delete t key; intros; simplify_eq/=; eauto;
      match goal with
      | Hk : is_Some (delete key (map_ t) !! ?k) |- _ =>
          destruct (decide (key = k)) as [<-|];
          [by rewrite lookup_delete_eq in Hk; destruct Hk
          |rewrite lookup_delete_ne in Hk by done; eauto]
      end.
Qed.

(** X9: whatever the store answers, every key of the reference map is one
    the tester takes for valid: not empty and of at most [kMaxKeyLength]
    characters. *)
Theorem map_keys_valid kvs (t0 t : Tester Kvs) ops key :
  construct kvs = Done t0 →
  perform_all t0 ops = Done t →
  is_Some (map_ t !! key) →
  key ≠ "" ∧ (String.length key ≤ kMaxKeyLength)%nat.
Proof.
  intros Hnew Hall Hkey. apply construct_Done in Hnew as [Hm _].
  assert (Hk : invalid_key key = false).
  { revert key Hkey.
    apply (perform_all_keeps
             (λ t, ∀ k, is_Some (map_ t !! k) → invalid_key k = false)
             perform_valid_keys ops t0 t); [|done].
    intros k. rewrite Hm, lookup_empty. by intros [? ?]. }
  unfold invalid_key in Hk. apply orb_false_iff in Hk as [Hk1 Hk2].
  apply Nat.eqb_neq in Hk1. apply Nat.ltb_ge in Hk2.
  split; [|done]. by intros ->.
Qed.

(** *** The size of the map *)

Lemma perform_size (t : Tester Kvs) op t' :
  fixed_max_size →
  (size (map_ t) ≤ kvs_max_size (kvs_ t))%nat →
  perform t op = Done t' →
  (size (map_ t') ≤ kvs_max_size (kvs_ t'))%nat.
Proof.
  intros Hfix Hinv. destruct op as [|key value|key]; simpl.
  - intros [= <-]. destruct (Hfix (kvs_ t) "" "") as (Hi & _).
    revert Hi. cases_of_Init t; intros; simplify_eq/=; lia.
  - destruct (Hfix (kvs_ t) key value) as (_ & Hp & _). revert Hp.
    cases_of_Put t key value; intros; simplify_eq/=; try lia.
    all: destruct (map_ t !! key) eqn:Hk;
      [rewrite map_size_insert_Some by done; lia
      |rewrite map_size_insert_None by done; lia].
  - destruct (Hfix (kvs_ t) key "") as (_ & _ & Hd). revert Hd.
    cases_of_Delete t key; intros; simplify_eq/=; try lia.
    all: pose proof (map_size_delete key (map_ t)) as Hsz;
      destruct (map_ t !! key); unfold id in Hsz; lia.
Qed.

(** X10: when the store always reports the same capacity, the reference
    map never holds more than [kvs_.max_size()] entries, whatever else
    the store answers. *)
Theorem map_within_capacity kvs (t0 t : Tester Kvs) ops :
  fixed_max_size →
  construct kvs = Done t0 →
  perform_all t0 ops = Done t →
  (size (map_ t) ≤ kvs_max_size (kvs_ t))%nat.
Proof.
  intros Hfix Hnew Hall. apply construct_Done in Hnew as [Hm _].
  apply (perform_all_keeps
           (λ t, (size (map_ t) ≤ kvs_max_size (kvs_ t))%nat)
           (λ t op t', perform_size t op t' Hfix) ops t0 t); [|done].
  rewrite Hm, map_size_empty. lia.
Qed.

(** *** CompareContents *)

Lemma EXPECT_map holds (t : Tester Kvs) :
  map_ (EXPECT holds t) = map_ t ∧ kvs_ (EXPECT holds t) = kvs_ t ∧
  (failures t ≤ failures (EXPECT holds t))%nat ∧
  (failures (EXPECT holds t) = failures t → holds = true ∧ EXPECT holds t = t).
Proof. destruct holds; simpl; repeat split; try done; lia. Qed.

Lemma find_Some (m : gmap string string) k entry :
  find m k = Some entry ↔ entry.1 = k ∧ m !! k = Some entry.2.
Proof.
  unfold find. destruct entry as [k' v]. simpl.
  destruct (m !! k) as [v'|]; simpl; split.
  - by intros [= <- <-].
  - by intros [<- [= <-]].
  - done.
  - by intros [_ ?].
Qed.

Lemma eqb_true (s1 s2 : string) : String.eqb s1 s2 = true ↔ s1 = s2.
Proof. apply String.eqb_eq. Qed.

(** An item that agrees with the map leaves the tester as it is. *)
Lemma compare_item_agrees (t : Tester Kvs) item :
  agrees (map_ t) item → compare_item t item = Returns t.
Proof.
  unfold agrees, compare_item, find. intros Hag.
  destruct (map_ t !! key item) as [expected|]; simpl; [|done].
  destruct (Hag expected eq_refl) as [Hst Hs]. cbv zeta in *.
  rewrite (proj2 (eqb_true _ _) eq_refl). simpl.
  destruct (Get item _) as [status value]. simpl in *. subst status.
  unfold EXPECT_EQ. rewrite bool_decide_true by done. simpl.
  rewrite Hs. simpl. by rewrite (proj2 (eqb_true _ _) eq_refl).
Qed.

(** An item changes the count of failures only, and leaves it alone only
    when it agrees with the map. *)
Lemma compare_item_Returns (t : Tester Kvs) item t' :
  compare_item t item = Returns t' →
  map_ t' = map_ t ∧ kvs_ t' = kvs_ t ∧
  (failures t ≤ failures t')%nat ∧
  (failures t' = failures t → agrees (map_ t) item).
Proof.
  unfold agrees, compare_item, find.
  destruct (map_ t !! key item) as [expected|]; simpl;
    [|by intros [= <-]].
  destruct (Get item _) as [status value]. unfold EXPECT_EQ. simpl.
  set (t1 := EXPECT (String.eqb (key item) (key item)) t).
  set (t2 := EXPECT (bool_decide (OK = status)) t1).
  destruct (string_from value) as [s|]; simpl; [|done].
  intros [= <-].
  destruct (EXPECT_map (String.eqb (key item) (key item)) t)
    as (Hm1 & Hk1 & Hf1 & _).
  destruct (EXPECT_map (bool_decide (OK = status)) t1)
    as (Hm2 & Hk2 & Hf2 & He2).
  destruct (EXPECT_map (String.eqb expected s) t2)
    as (Hm3 & Hk3 & Hf3 & He3).
  fold t1 in Hm1, Hk1, Hf1. fold t2 in Hm2, Hk2, Hf2, He2.
  split; [congruence|]. split; [congruence|]. split; [lia|].
  intros Hf expected' [= <-].
  destruct He3 as [He3 _]; [lia|]. destruct He2 as [He2 _]; [lia|].
  apply eqb_true in He3 as ->. apply bool_decide_eq_true in He2 as <-.
  done.
Qed.

Lemma compare_items_agree items : ∀ (t : Tester Kvs) count,
  Forall (agrees (map_ t)) items →
  compare_items t count items = Returns (t, (count + length items)%nat).
Proof.
  induction items as [|item items IH]; intros t count Hall; simpl.
  - by rewrite Nat.add_0_r.
  - apply Forall_cons in Hall as [Hag Hall].
    rewrite compare_item_agrees by done. simpl.
    rewrite IH by done. do 2 f_equal. lia.
Qed.

Lemma compare_items_Returns items : ∀ (t : Tester Kvs) count t' count',
  compare_items t count items = Returns (t', count') →
  map_ t' = map_ t ∧ kvs_ t' = kvs_ t ∧
  count' = (count + length items)%nat ∧
  (failures t ≤ failures t')%nat ∧
  (failures t' = failures t → Forall (agrees (map_ t)) items).
Proof.
  induction items as [|item items IH]; intros t count t' count'; simpl.
  - intros [= <- <-]. repeat split; try done; lia.
  - destruct (compare_item t item) as [t1|] eqn:Hitem; simpl; [|done].
    intros Hrest.
    apply compare_item_Returns in Hitem as (Hm1 & Hk1 & Hf1 & Hag1).
    apply IH in Hrest as (Hm & Hk & -> & Hf & Hag).
    rewrite Hm1 in Hm, Hag.
    split; [done|]. split; [congruence|]. split; [lia|]. split; [lia|].
    intros Heq. apply Forall_cons. split; [apply Hag1|apply Hag]; lia.
Qed.

(** What [CompareContents] has checked when no expectation failed. *)
Lemma CompareContents_checked (t t' : Tester Kvs) :
  CompareContents t = Returns t' → failures t' = failures t →
  size (map_ t) = kvs_size (kvs_ t) ∧
  length (kvs_items (kvs_ t)) = size (map_ t) ∧
  Forall (agrees (map_ t)) (kvs_items (kvs_ t)).
Proof.
  unfold CompareContents. intros Hret Hf.
  set (b := bool_decide (size (map_ t) = kvs_size (kvs_ t))) in *.
  destruct (EXPECT_map b t) as (Hm0 & Hk0 & Hf0 & He0).
  destruct (compare_items (EXPECT b t) 0 (kvs_items (kvs_ (EXPECT b t))))
    as [[t1 count]|] eqn:Hitems; simpl in Hret; [|done].
  injection Hret as <-.
  apply compare_items_Returns in Hitems as (Hm1 & Hk1 & -> & Hf1 & Hag1).
  destruct (EXPECT_map
              (bool_decide ((0 + length (kvs_items (kvs_ (EXPECT b t))))%nat
                            = size (map_ t1))) t1)
    as (_ & _ & Hf2 & He2).
  destruct He0 as [He0 _]; [lia|]. destruct He2 as [He2 _]; [lia|].
  apply bool_decide_eq_true in He0, He2.
  rewrite Hk0, Hm1, Hm0 in *.
  split; [done|]. split; [done|]. apply Hag1. lia.
Qed.

(** X11: what [CompareContents] checks.  It returns with no expectation
    failed exactly when the store reports as many entries as the map
    has, its iteration yields as many items, and every item whose key
    the map has reads back, with status [OK], the value the map has for
    it.  An item whose key the map lacks makes no expectation fail. *)
Theorem CompareContents_passes_iff (t : Tester Kvs) :
  (∃ t', CompareContents t = Returns t' ∧ failures t' = failures t) ↔
  size (map_ t) = kvs_size (kvs_ t) ∧
  length (kvs_items (kvs_ t)) = size (map_ t) ∧
  Forall (agrees (map_ t)) (kvs_items (kvs_ t)).
Proof.
  split.
  - intros (t' & Hret & Hf). eauto using CompareContents_checked.
  - intros (Hsize & Hlen & Hag). exists t. unfold CompareContents.
    rewrite bool_decide_true by done. simpl.
    rewrite compare_items_agree by done. simpl.
    by rewrite bool_decide_true.
Qed.

Lemma c_string_no_NUL (s : string) :
  Ascii.zero ∉ String.list_ascii_of_string (KvsTester.c_string s).
Proof.
  induction s as [|c s IH]; simpl; [by apply not_elem_of_nil|].
  destruct (Ascii.eqb_spec c Ascii.zero) as [->|Hne]; simpl.
  - by apply not_elem_of_nil.
  - rewrite not_elem_of_cons. done.
Qed.

(** X12: a value with a NUL character in it cannot pass.  When the map
    has such a value for the key of an item of the store, some
    expectation of [CompareContents] fails, or the conversion of the
    buffer to a string runs past its end, whatever the store holds for
    the key: the buffer is read as a C string and compared with the whole
    value. *)
Theorem value_with_NUL_fails (t : Tester Kvs) item expected :
  item ∈ kvs_items (kvs_ t) →
  map_ t !! key item = Some expected →
  Ascii.zero ∈ String.list_ascii_of_string expected →
  ¬ ∃ t', CompareContents t = Returns t' ∧ failures t' = failures t.
Proof.
  intros Hitem Hmap Hnul (t' & Hret & Hf).
  destruct (CompareContents_checked t t' Hret Hf) as (_ & _ & Hag).
  rewrite Forall_forall in Hag.
  destruct (Hag item Hitem expected Hmap) as [_ Hs].
  unfold string_from in Hs.
  destruct (_ =? _)%nat; [done|]. injection Hs as <-.
  by apply c_string_no_NUL in Hnul.
Qed.

(** *** The random test *)

Lemma get_elem_of (s : string) : ∀ i c,
  String.get i s = Some c → c ∈ String.list_ascii_of_string s.
Proof.
  induction s as [|c' s IH]; intros i c; simpl; [done|].
  destruct i as [|i].
  - intros [= ->]. by left.
  - intros Hget. right. eauto.
Qed.

Lemma get_is_Some (s : string) : ∀ i,
  (i < String.length s)%nat → is_Some (String.get i s).
Proof.
  induction s as [|c s IH]; intros i; simpl; [lia|].
  destruct i as [|i]; [by eexists|]. intros Hi. apply IH. lia.
Qed.

(** The index that [random_string] computes is always one of [kChars]. *)
Lemma kChars_at_elem_of x :
  kChars_at (x mod Z.of_nat (String.length kChars))
  ∈ String.list_ascii_of_string kChars.
Proof.
  unfold kChars_at.
  pose proof (Z.mod_pos_bound x (Z.of_nat (String.length kChars))
                ltac:(by vm_compute)) as Hx.
  destruct (get_is_Some kChars
              (Z.to_nat (x mod Z.of_nat (String.length kChars))))
    as [c Hc]; [lia|].
  rewrite Hc. exact (get_elem_of kChars _ c Hc).
Qed.

(** X13: [random_string] asked for [length] characters draws as many
    random numbers and returns a string of that length whose characters
    are all of [kChars]: the index it computes never leaves [kChars]. *)
Theorem random_string_spec random length drawn :
  String.length (random_string random length drawn).1 = length ∧
  (random_string random length drawn).2 = (drawn + length)%nat ∧
  from_kChars (random_string random length drawn).1.
Proof.
  unfold from_kChars. revert drawn.
  induction length as [|n IH]; intros drawn; simpl.
  - split; [done|]. split; [lia|]. constructor.
  - destruct (IH (S drawn)) as (Hlen & Hdrawn & Hchars).
    split; [by rewrite Hlen|]. split; [lia|].
    constructor; [apply kChars_at_elem_of|done].
Qed.

Section iteration_order.
Context (iteration : gmap string string → list (string * string)).
Hypothesis iteration_lists : ∀ m, iteration m ≡ₚ map_to_list m.

Lemma RandomPresentKey_tame (t : Tester Kvs) :
  tame_map t →
  from_kChars (RandomPresentKey iteration t) ∧
  (String.length (RandomPresentKey iteration t) < kMaxValueLength)%nat.
Proof.
  intros Htame. unfold RandomPresentKey.
  assert (Hempty : from_kChars "" ∧ (String.length "" < kMaxValueLength)%nat).
  { split; [constructor|]. unfold kMaxValueLength. simpl. lia. }
  destruct (empty t); [done|].
  destruct (iteration (map_ t)) as [|[k v] rest] eqn:Hit; simpl; [done|].
  apply (Htame k), elem_of_map_to_list.
  rewrite <- iteration_lists, Hit. by left.
Qed.

Lemma random_operation_reinit reinit op :
  random_operation false op → random_operation reinit op.
Proof. by destruct op. Qed.

Lemma perform_tame (t : Tester Kvs) reinit op t' :
  tame_map t → random_operation reinit op →
  perform t op = Done t' → tame_map t'.
Proof.
  unfold tame_map. intros Htame.
  destruct op as [|key value|key]; simpl.
  - intros _ [= <-]. by destruct (Init_map t) as [-> _].
  - intros (_ & _ & Hv1 & Hv2).
    cases_of_Put t key value; intros; simplify_eq/=; eauto;
      match goal with
      | Hk : <[key:=value]> (map_ t) !! ?k = Some _ |- _ =>
          destruct (decide (key = k)) as [<-|];
          [rewrite lookup_insert_eq in Hk; by simplify_eq
          |rewrite lookup_insert_ne in Hk by done; eauto]
      end.
  - intros _.
    cases_of_Delete t key; intros; simplify_eq/=; eauto;
      match goal with
      | Hk : delete key (map_ t) !! ?k = Some _ |- _ =>
          destruct (decide (key = k)) as [<-|];
          [by rewrite lookup_delete_eq in Hk
          |rewrite lookup_delete_ne in Hk by done; eauto]
      end.
Qed.

Lemma perform_all_tame reinit ops : ∀ (t t' : Tester Kvs),
  tame_map t → Forall (random_operation reinit) ops →
  perform_all t ops = Done t' → tame_map t'.
Proof.
  induction ops as [|op ops IH]; intros t t' Htame Hops Hall.
  - by injection Hall as <-.
  - apply Forall_cons in Hops as [Hop Hops].
    rewrite perform_all_cons in Hall.
    destruct (perform t op) as [t1|] eqn:H1; [|done].
    simpl in Hall. eauto using perform_tame.
Qed.

Lemma perform_all_one (t : Tester Kvs) op :
  perform_all t [op] = perform t op.
Proof. unfold perform_all. simpl. done. Qed.

Lemma Done_fst {A B} (m : exec A) (b : B) :
  ((a ← m; Done (a, b)) ≫= λ s, Done s.1) = m.
Proof. by destruct m. Qed.

Lemma random_int_range random drawn : is_uint32 (random_int random drawn).
Proof.
  unfold random_int, to_uint32, is_uint32. apply Z.mod_pos_bound. lia.
Qed.

(** A round without reinitialisation is one [Put] or one [Delete]. *)
Lemma round_operation random (t : Tester Kvs) drawn :
  tame_map t →
  ∃ op, random_operation false op ∧
    (round iteration random false (t, drawn) ≫= λ s, Done s.1)
    = perform t op.
Proof.
  intros Htame. pose proof (RandomPresentKey_tame t Htame) as [Hk1 Hk2].
  unfold round.
  destruct (random_int random drawn mod 4 =? 0).
  - assert (Hmissing : ∀ d,
      ∃ op, random_operation false op ∧
        ((t' ← Delete t ("not_a_key" +:+ to_string (random_int random d));
          Done (t', S d)) ≫= λ s, Done s.1) = perform t op).
    { intros d. eexists (OpDelete _). split; [|apply Done_fst].
      left. eauto using random_int_range. }
    destruct (empty t); [apply Hmissing|].
    destruct (random_int random (S drawn) mod 8 =? 0);
      [apply Hmissing|].
    eexists (OpDelete _). split; [|apply Done_fst]. by right.
  - assert (Hput : ∀ key d,
      from_kChars key →
      (String.length key ≤ kMaxKeyLength `max` (kMaxValueLength - 1))%nat →
      ∃ op, random_operation false op ∧
        ((let '(value, drawn) :=
            random_string random
              (Z.to_nat (random_int random d mod Z.of_nat kMaxValueLength))
              (S d) in
          t' ← Put t key value; Done (t', drawn)) ≫= λ s, Done s.1)
        = perform t op).
    { intros key d Hkey1 Hkey2.
      destruct (random_string_spec random
                  (Z.to_nat (random_int random d mod Z.of_nat kMaxValueLength))
                  (S d)) as (Hlen & _ & Hchars).
      destruct (random_string random _ _) as [value d'].
      eexists (OpPut _ _). split; [|apply Done_fst].
      simpl in *. split; [done|]. split; [done|]. split; [done|].
      rewrite Hlen.
      pose proof (Z.mod_pos_bound (random_int random d)
                    (Z.of_nat kMaxValueLength) ltac:(by vm_compute)).
      lia. }
    assert (Hfresh : ∀ d,
      ∃ op, random_operation false op ∧
        ((let '(key, drawn) :=
            random_string random
              (Z.to_nat (random_int random d
                         mod (Z.of_nat kMaxKeyLength + 1)))
              (S d) in
          let '(value, drawn) :=
            random_string random
              (Z.to_nat (random_int random drawn
                         mod Z.of_nat kMaxValueLength))
              (S drawn) in
          t' ← Put t key value; Done (t', drawn)) ≫= λ s, Done s.1)
        = perform t op).
    { intros d.
      destruct (random_string_spec random
                  (Z.to_nat (random_int random d
                             mod (Z.of_nat kMaxKeyLength + 1)))
                  (S d)) as (Hlen & _ & Hchars).
      destruct (random_string random _ _) as [key d'].
      simpl in *. apply Hput; [done|]. rewrite Hlen.
      pose proof (Z.mod_pos_bound (random_int random d)
                    (Z.of_nat (@kMaxKeyLength Kvs store) + 1) ltac:(lia)).
      lia. }
    destruct (empty t); [apply Hfresh|].
    destruct (random_int random (S drawn) mod 2 =? 0);
      [apply Hfresh|].
    apply Hput; [done|]. lia.
Qed.

Lemma round_operations random reinit (t : Tester Kvs) drawn :
  tame_map t →
  ∃ ops, Forall (random_operation reinit) ops ∧
    (round iteration random reinit (t, drawn) ≫= λ s, Done s.1)
    = perform_all t ops.
Proof.
  intros Htame. destruct reinit.
  - assert (Hround : round iteration random true (t, drawn)
      = round iteration random false
          (if random_int random drawn mod 10 =? 0 then Init t else t,
           S drawn)) by done.
    rewrite Hround.
    destruct (random_int random drawn mod 10 =? 0).
    + destruct (round_operation random (Init t) (S drawn))
        as (op & Hop & ->).
      { eapply (perform_tame t true OpInit); done. }
      exists [OpInit; op]. split.
      * repeat constructor. by apply random_operation_reinit.
      * rewrite perform_all_cons. simpl. by rewrite perform_all_one.
    + destruct (round_operation random t (S drawn) Htame)
        as (op & Hop & ->).
      exists [op]. split; [|by rewrite perform_all_one].
      repeat constructor. by apply random_operation_reinit.
  - destruct (round_operation random t drawn Htame) as (op & Hop & ->).
    exists [op]. split; [|by rewrite perform_all_one].
    by repeat constructor.
Qed.

(** X14: what the random test asks of the tester.  From a map whose
    values are strings of [kChars] shorter than [kMaxValueLength], as
    the map of a new tester is, [Test_RandomValidInputs] is a sequence of
    operations of three kinds: a [Put] of a key and a value that are
    strings of [kChars], the value shorter than [kMaxValueLength]; a
    [Delete] of ["not_a_key"] followed by a number, or of such a
    string; and, when told to reinitialise, an [Init]. *)
Theorem Test_RandomValidInputs_operations
    iterations random reinit (t : Tester Kvs) :
  tame_map t →
  ∃ ops, Forall (random_operation reinit) ops ∧
    Test_RandomValidInputs iteration iterations random reinit t
    = perform_all t ops.
Proof.
  unfold Test_RandomValidInputs. generalize 0%nat. revert t.
  induction (Z.to_nat iterations) as [|n IH]; intros t drawn Htame;
    [by exists []|].
  change (rounds iteration (S n) random reinit (t, drawn))
    with (round iteration random reinit (t, drawn)
          ≫= rounds iteration n random reinit).
  destruct (round_operations random reinit t drawn Htame)
    as (ops1 & Hops1 & Hround).
  destruct (round iteration random reinit (t, drawn))
    as [[t1 drawn1]|why]; cbn [mbind exec_bind fst] in *.
  - destruct (IH t1 drawn1) as (ops2 & Hops2 & Hrest).
    { eauto using perform_all_tame. }
    exists (ops1 ++ ops2). split; [by apply Forall_app|].
    by rewrite perform_all_app, <- Hround.
  - by exists ops1.
Qed.

End iteration_order.
End any_store.

(** *** The theorems at work on a store that keeps a map *)

Lemma deleted_keys_not_in_map_witness :
  let ops := [OpPut "a" "1"; OpDelete "a"; OpPut "a" "2"; OpDelete "a";
              OpDelete "a"; OpInit] in
  (∀ t, perform_all (store := map_store 4) new_tester ops = Done t →
        dom (map_ t) ## deleted_ t) ∧
  perform_all (store := map_store 4) new_tester ops ≠ Aborted DeletedTwice.
Proof.
  intros ops.
  apply (deleted_keys_not_in_map (store := map_store 4) ∅ new_tester ops).
  reflexivity.
Defined.

Lemma map_keys_valid_witness :
  "a" ≠ "" ∧
  (String.length "a" ≤ kMaxKeyLength (Store := map_store 4))%nat.
Proof.
  apply (map_keys_valid (store := map_store 4) ∅ new_tester
           (mkTester {["a" := "1"]} {["a" := "1"]} ∅ 2 0)
           [OpPut "" "0"; OpPut "a" "1"] "a").
  - reflexivity.
  - by vm_compute.
  - by eexists.
Defined.

Lemma map_within_capacity_witness :
  let t := mkTester (Kvs := gmap string string)
             {["a" := "1"]} {["a" := "1"]} ∅ 2 0 in
  (size (map_ t) ≤ kvs_max_size (Store := map_store 1) (kvs_ t))%nat.
Proof.
  intros t.
  apply (map_within_capacity (store := map_store 1) ∅ new_tester t
           [OpPut "a" "1"; OpPut "b" "2"]).
  - by intros kvs key value.
  - reflexivity.
  - by vm_compute.
Defined.

Lemma value_with_NUL_fails_witness :
  ¬ ∃ t', CompareContents (store := map_store 4) NUL_tester = Returns t' ∧
          failures t' = failures NUL_tester.
Proof.
  apply (value_with_NUL_fails (store := map_store 4) NUL_tester
           (mkItem "k" (copy_to with_NUL)) with_NUL).
  - vm_compute. by left.
  - by vm_compute.
  - vm_compute. right. by left.
Defined.

(** An item whose key the map lacks goes unnoticed when the counts
    agree: the map has ["a"] and ["b"], the store ["a"] and ["c"]. *)
Lemma CompareContents_foreign_key :
  let t := mkTester (Kvs := gmap string string)
             {["a" := "1"; "c" := "3"]} {["a" := "1"; "b" := "2"]} ∅ 3 0 in
  CompareContents (store := map_store 4) t = Returns t.
Proof. by vm_compute. Qed.

Lemma Test_RandomValidInputs_operations_witness :
  ∃ ops, Forall (random_operation (store := map_store 4) true) ops ∧
    Test_RandomValidInputs (store := map_store 4) map_to_list 20
      (λ n, 7919 * Z.of_nat n + 3) true new_tester
    = perform_all (store := map_store 4) new_tester ops.
Proof.
  apply (Test_RandomValidInputs_operations (store := map_store 4)
           map_to_list).
  - intros m. reflexivity.
  - intros k v Hk. by vm_compute in Hk.
Defined.

End MapTestProperties.
